(** * SuperSexySteamDownloader: a shallow embedding and its properties

  The development follows [SuperSexySteamDownloader.py]:
  - [Acf]        : [SteamManifestGenerator.generate_acf_content];
  - [Aggregator] : the manifest layering loop of [download_game];
  - [Verifier]   : [_verify_and_repair_file] over a small file-system model,
                   for a plain file whose existence check answers;
  - [VerifierCall] : the same function with the existence check and the
                   calls of [seek], which can raise to the caller;
  - [Scheduler]  : [_download_single_file] and the download phase, one file
                   after the other;
  - [Pool]       : the same phase as a thread pool whose workers interleave;
  - [Reconcile]  : [_execute_verification_and_download_cycle];
  - [Sfd]        : [_write_sfd_file], [_load_sfd_from_path], [_reset_queue];
  - [Names], [Session], [Picker], [Lua] : [_sanitize_filename],
                   [_get_game_name] and [_ensure_logged_in],
                   [_select_file_from_list], [convert_lua_workflow].

  Python integers are unbounded: identifiers are [Z], byte counts are [nat].
  Python dictionaries used as maps are [gmap]s; the one dictionary whose
  iteration order is observed ([master_file_map]) is an insertion-ordered
  association list. An exception is a result of its own ([Raise]), and
  [try]/[except] is a match on it. What the program gets from outside (the
  file system raising, the bytes the remote side serves, the lines the user
  types, SHA-1, Python's parsing built-ins) is an argument of the
  definitions. *)

From Stdlib Require Import ZArith Lia Ascii String Strings.Byte.
From stdpp Require Import base tactics option list gmap strings pretty sorting.

Local Open Scope Z_scope.

(** ** Text helpers *)

Module Text.

Definition chr (n : nat) : string := String (ascii_of_nat n) EmptyString.

Definition TAB : string := chr 9.
Definition NL : string := chr 10.
Definition DQ : string := chr 34.
Definition SQ : string := chr 39.

(** [str.join] with an empty separator. *)
Definition join (parts : list string) : string :=
  foldr String.append EmptyString parts.

(** The text of [f'"{s}"']. *)
Definition quoted (s : string) : string := DQ +:+ s +:+ DQ.

(** [str(z)] for an [int]. *)
Definition str_int (z : Z) : string := pretty z.

End Text.

(** ** [SteamManifestGenerator.generate_acf_content] *)

Module Acf.
Import Text.

(** One value of [self.depots]: [{'manifest': gid, 'size': n}] with the
    optional key ['dlc_appid']. *)
Record DepotDetails := {
  manifest : string;
  size : Z;
  dlc_appid : option Z
}.

(** The fields of [SteamManifestGenerator] read by the builder. *)
Record Generator := {
  app_id : Z;
  name : string;
  installdir : string;
  buildid : string;
  depots : gmap Z DepotDetails;
  shared_depots : gmap Z Z
}.

(** [sum(d['size'] for d in self.depots.values())] *)
Definition size_on_disk (ds : gmap Z DepotDetails) : Z :=
  foldl Z.add 0 (size <$> (map_to_list ds).*2).

(** [sorted(d.items())]: the keys of a dictionary are distinct, so tuple
    comparison is decided by the key alone. *)
Definition key_le {V} (a b : Z * V) : Prop := a.1 ≤ b.1.

#[global] Instance key_le_dec {V} (a b : Z * V) : Decision (key_le a b).
Proof. unfold key_le. apply _. Defined.

Definition sorted_items {V} (m : gmap Z V) : list (Z * V) :=
  merge_sort key_le (map_to_list m).

Definition t1 : string := TAB.
Definition t2 : string := TAB +:+ TAB.
Definition t3 : string := TAB +:+ TAB +:+ TAB.

(** [f'{t1}"{key}"{t2}"{value}"\n'] *)
Definition kv_line (key value : string) : string :=
  t1 +:+ quoted key +:+ t2 +:+ quoted value +:+ NL.

Definition main_kv (g : Generator) (size_on_disk : Z) : list (string * string) :=
  [ ("appid", str_int (app_id g)); ("Universe", str_int 1);
    ("LauncherPath", EmptyString); ("name", name g);
    ("StateFlags", str_int 4); ("installdir", installdir g);
    ("LastUpdated", str_int 0); ("SizeOnDisk", str_int size_on_disk);
    ("StagingSize", str_int 0); ("buildid", buildid g);
    ("LastOwner", "None"); ("UpdateResult", str_int 0);
    ("BytesToDownload", str_int 0); ("BytesDownloaded", str_int 0);
    ("BytesToStage", str_int 0); ("BytesStaged", str_int 0);
    ("TargetBuildID", str_int 0); ("AutoUpdateBehavior", str_int 0);
    ("AllowOtherDownloadsWhileRunning", str_int 0);
    ("ScheduledAutoUpdate", str_int 0) ]%string.

(** The parts appended for one [(depot_id, details)] pair. *)
Definition depot_block (e : Z * DepotDetails) : list string :=
  [ t2 +:+ quoted (str_int e.1) +:+ NL;
    t2 +:+ "{" +:+ NL;
    t3 +:+ quoted "manifest" +:+ t2 +:+ quoted (manifest e.2) +:+ NL;
    t3 +:+ quoted "size" +:+ t2 +:+ quoted (str_int (size e.2)) +:+ NL ]
  ++ match dlc_appid e.2 with
     | Some a => [ t3 +:+ quoted "dlcappid" +:+ t2 +:+ quoted (str_int a) +:+ NL ]
     | None => []
     end
  ++ [ t2 +:+ "}" +:+ NL ].

Definition shared_line (e : Z * Z) : string :=
  t2 +:+ quoted (str_int e.1) +:+ t2 +:+ quoted (str_int e.2) +:+ NL.

(** The parts before the first depot entry, between the two blocks, and
    after the last shared depot. *)
Definition parts_head (g : Generator) : list string :=
  let size_on_disk := size_on_disk (depots g) in
  [ quoted "AppState" +:+ NL; "{" +:+ NL ]
  ++ ((λ kv, kv_line kv.1 kv.2) <$> main_kv g size_on_disk)
  ++ [ t1 +:+ quoted "InstalledDepots" +:+ NL; t1 +:+ "{" +:+ NL ].

Definition parts_between : list string :=
  [ t1 +:+ "}" +:+ NL; t1 +:+ quoted "SharedDepots" +:+ NL; t1 +:+ "{" +:+ NL ].

Definition parts_tail : list string :=
  [ t1 +:+ "}" +:+ NL; "}" +:+ NL ].

Definition content_parts (g : Generator) : list string :=
  parts_head g
  ++ (sorted_items (depots g) ≫= depot_block)
  ++ parts_between
  ++ (shared_line <$> sorted_items (shared_depots g))
  ++ parts_tail.

Definition generate_acf_content (g : Generator) : string :=
  join (content_parts g).

(** The generator state of the worked example: depots 10 and 20. *)
Definition example_generator : Generator :=
  {| app_id := 480; name := "Game"; installdir := "Game"; buildid := "7";
     depots := <[20 := {| manifest := "222"; size := 50; dlc_appid := Some 30 |}]>
               (<[10 := {| manifest := "111"; size := 100; dlc_appid := None |}]> ∅);
     shared_depots := ∅ |}.

(** The generator state of a second example: the same depots, and two
    shared depots. *)
Definition example_shared : Generator :=
  {| app_id := 480; name := "Game"; installdir := "Game"; buildid := "7";
     depots := depots example_generator;
     shared_depots := <[5 := 480]> (<[228990 := 228980]> ∅) |}.

End Acf.

(** ** Files, manifests and the local file system *)

Module Fs.

Abbreviation bytes := (list byte).

#[global] Instance byte_eq_dec : EqDecision byte := Byte.byte_eq_dec.

(** Python exceptions: [IOError] (an alias of [OSError]) and every other
    subclass of [Exception] (network and protocol errors). *)
Inductive exn := IOError | OtherError.

Inductive outcome (A : Type) :=
| Return (a : A)
| Raise (e : exn).
Arguments Return {A} a.
Arguments Raise {A} e.

(** Regular files by path. Directories carry no data and are not recorded. *)
Abbreviation fs := (gmap string bytes).

(** A chunk of a manifest file mapping: [chunk.cb_original], [chunk.sha].
    Verification walks [file_info.chunks] in list order and reads nothing else
    of a chunk, so the order of the list is the layout of the file. *)
Record Chunk := {
  cb_original : nat;
  sha : bytes
}.

(** The fields of the [steam] library's [CDNDepotFile] that the program
    reads, with the read cursor [offset] that [seek] sets and iteration
    advances. *)
Record FileInfo := {
  filename : string;
  size : nat;
  chunks : list Chunk;
  is_directory : bool;
  offset : nat
}.

Definition set_offset (fi : FileInfo) (o : nat) : FileInfo :=
  {| filename := filename fi; size := size fi; chunks := chunks fi;
     is_directory := is_directory fi; offset := o |}.

(** [file_info.seek(o)] for a non-negative [o] on an entry that is a plain
    file: the library clamps the cursor to the file's size. For an entry that
    is not a plain file the library raises instead; [VerifierCall.seek_call]
    has that case. *)
Definition seek (fi : FileInfo) (o : nat) : FileInfo :=
  set_offset fi (Nat.min (size fi) o).

(** Two states of one entry: everything but the cursor agrees. *)
Definition same_entry (fi fi' : FileInfo) : Prop :=
  filename fi' = filename fi ∧ size fi' = size fi
  ∧ chunks fi' = chunks fi ∧ is_directory fi' = is_directory fi.

(** [base_dir / file_info.filename] for a relative manifest name. *)
Definition joinpath (base name : string) : string := base +:+ "/" +:+ name.

(** [f.truncate(n)]: cuts the file at [n], or pads it with zero bytes. *)
Definition truncate (n : nat) (content : bytes) : bytes :=
  take n content ++ replicate (n - length content) x00.

(** What iterating a [CDNDepotFile] from its cursor produces: the pieces
    yielded, and whether the iteration then ended or raised. *)
Record transfer := {
  yields : list bytes;
  raises : bool
}.

(** The environment of one pass: which operations raise, and what the
    remote side serves. The positions given to [read_fails] and
    [write_fails] are the file position of the read and the index of the
    write. *)
Record io_env := {
  open_rb_fails : string → bool;
  read_fails : string → nat → bool;
  open_rwb_fails : string → bool;
  truncate_fails : string → bool;
  mkdir_fails : string → bool;
  open_ab_fails : string → bool;
  write_fails : string → nat → bool;
  cdn_iter : FileInfo → transfer
}.

End Fs.

(** ** [_verify_and_repair_file] *)

Module Verifier.
Import Fs.
#[local] Open Scope nat_scope.

Section WithHash.
Context (sha1 : bytes → bytes).

(** The [for chunk in file_info.chunks] loop: [pos] is the position of the
    open file, [verified_offset] the running sum. A [break] and the end of the
    loop both return the sum; a failing read raises. *)
Fixpoint scan_chunks (env : io_env) (safe_path : string) (content : bytes)
    (pos : nat) (cs : list Chunk) (verified_offset : nat) : outcome nat :=
  match cs with
  | [] => Return verified_offset
  | chunk :: rest =>
      if read_fails env safe_path pos then Raise IOError
      else
        let data := take (cb_original chunk) (drop pos content) in
        match data with
        | [] => Return verified_offset
        | _ :: _ =>
            if decide (sha1 data = sha chunk)
            then scan_chunks env safe_path content (pos + length data) rest
                   (verified_offset + cb_original chunk)
            else Return verified_offset
        end
  end.

(** The body of the [try] block for a file that exists with [content]. *)
Definition verify_body (env : io_env) (file_info : FileInfo)
    (safe_path : string) (content : bytes) (st : fs)
    : outcome (bool * FileInfo) * fs :=
  if open_rb_fails env safe_path then (Raise IOError, st)
  else
    match scan_chunks env safe_path content 0 (chunks file_info) 0 with
    | Raise e => (Raise e, st)
    | Return verified_offset =>
        if decide (verified_offset = size file_info)
        then (Return (true, file_info), st)
        else if open_rwb_fails env safe_path then (Raise IOError, st)
        else if truncate_fails env safe_path then (Raise IOError, st)
        else (Return (false, seek file_info verified_offset),
              <[safe_path := truncate verified_offset content]> st)
    end.

(** The function on a plain file whose existence check answers: the body
    of the [try] block with its [except IOError] clause. The existence check
    and the calls of [seek], which can raise past that clause, are in
    [VerifierCall._verify_and_repair_file], which is this function whenever
    they do not raise. *)
Definition _verify_and_repair_file (env : io_env) (file_info : FileInfo)
    (safe_path : string) (st : fs) : outcome (bool * FileInfo) * fs :=
  match st !! safe_path with
  | None => (Return (false, seek file_info 0), st)
  | Some content =>
      match verify_body env file_info safe_path content st with
      | (Raise IOError, st') => (Return (false, seek file_info 0), st')
      | r => r
      end
  end.

(** The resume offset that a result stands for: [True] says that the whole
    file is verified, [False] leaves the offset in the cursor. *)
Definition resume_offset (r : bool * FileInfo) : nat :=
  if r.1 then size r.2 else offset r.2.

(** Calling verification again and again on the same entry and path, call
    [k] under the environment [envs k]: the results in order, and the entry
    and the file system left by the last call. *)
Fixpoint verify_repeat (calls : nat) (envs : nat → io_env) (k : nat)
    (file_info : FileInfo) (safe_path : string) (st : fs)
    : list (outcome bool) * FileInfo * fs :=
  match calls with
  | O => ([], file_info, st)
  | S calls' =>
      match _verify_and_repair_file (envs k) file_info safe_path st with
      | (Return (ok, file_info'), st') =>
          let '(rs, fi'', st'') :=
            verify_repeat calls' envs (S k) file_info' safe_path st' in
          (Return ok :: rs, fi'', st'')
      | (Raise e, st') => ([Raise e], file_info, st')
      end
  end.

(** The bytes [data] are the chunks [cs] laid out one after the other, each
    with its full size and its digest. *)
Fixpoint chunks_match (cs : list Chunk) (data : bytes) : Prop :=
  match cs with
  | [] => data = []
  | c :: rest =>
      cb_original c ≤ length data
      ∧ sha1 (take (cb_original c) data) = sha c
      ∧ chunks_match rest (drop (cb_original c) data)
  end%nat.

End WithHash.

Definition sum_sizes (cs : list Chunk) : nat := sum_list_with cb_original cs.

(** The data-model invariant of a file entry: every chunk has a positive
    size, and the sizes add up to the file size. *)
Definition well_formed (fi : FileInfo) : Prop :=
  Forall (λ c, 0 < cb_original c)%nat (chunks fi)
  ∧ sum_sizes (chunks fi) = size fi.

(** No operation of verification raises for this path. *)
Definition verify_fault_free (env : io_env) (p : string) : Prop :=
  open_rb_fails env p = false ∧ (∀ pos, read_fails env p pos = false)
  ∧ open_rwb_fails env p = false ∧ truncate_fails env p = false.

End Verifier.

(** ** [_verify_and_repair_file] as its caller sees it *)

Module VerifierCall.
Import Fs Verifier.
#[local] Open Scope nat_scope.

(** What the platform and the [steam] library decide outside the [try]
    block: whether [Path.exists] raises for a path (before Python 3.12 it
    raises again every [OSError] that does not say that the path is missing,
    such as [PermissionError]), and whether [CDNDepotFile.seek] accepts the
    entry (it raises [ValueError] for an entry that is not a plain file). *)
Record lib_env := {
  exists_raises : string → bool;
  seekable : FileInfo → bool
}.

(** [file_info.seek(o)]: a [ValueError] is [OtherError]. *)
Definition seek_call (lib : lib_env) (file_info : FileInfo) (o : nat)
    : outcome FileInfo :=
  if seekable lib file_info then Return (seek file_info o)
  else Raise OtherError.

Section WithHash.
Context (sha1 : bytes → bytes).

(** The [try] block for a file that exists with [content]. The file is
    truncated before [seek] is called. *)
Definition try_block (env : io_env) (lib : lib_env) (file_info : FileInfo)
    (safe_path : string) (content : bytes) (st : fs)
    : outcome (bool * FileInfo) * fs :=
  if open_rb_fails env safe_path then (Raise IOError, st)
  else
    match scan_chunks sha1 env safe_path content 0 (chunks file_info) 0 with
    | Raise e => (Raise e, st)
    | Return verified_offset =>
        if decide (verified_offset = size file_info)
        then (Return (true, file_info), st)
        else if open_rwb_fails env safe_path then (Raise IOError, st)
        else if truncate_fails env safe_path then (Raise IOError, st)
        else
          let st' := <[safe_path := truncate verified_offset content]> st in
          match seek_call lib file_info verified_offset with
          | Return file_info' => (Return (false, file_info'), st')
          | Raise e => (Raise e, st')
          end
    end.

(** The whole function: the existence check comes before the [try], and
    the [except] clause catches [IOError] only. *)
Definition _verify_and_repair_file (env : io_env) (lib : lib_env)
    (file_info : FileInfo) (safe_path : string) (st : fs)
    : outcome (bool * FileInfo) * fs :=
  if exists_raises lib safe_path then (Raise IOError, st)
  else
    match st !! safe_path with
    | None =>
        match seek_call lib file_info 0 with
        | Return file_info' => (Return (false, file_info'), st)
        | Raise e => (Raise e, st)
        end
    | Some content =>
        match try_block env lib file_info safe_path content st with
        | (Raise IOError, st') =>
            match seek_call lib file_info 0 with
            | Return file_info' => (Return (false, file_info'), st')
            | Raise e => (Raise e, st')
            end
        | r => r
        end
    end.

End WithHash.

End VerifierCall.

(** ** The aggregation loop of [download_game] *)

Module Aggregator.
Import Text Fs.

(** The fields of an entry of [self.depots_to_download] that the loop
    reads. *)
Record DepotRecord := {
  depot_id : Z;
  manifest_id : Z;
  depot_key : bytes
}.

(** A Python [dict] with string keys, in insertion order: assigning to a key
    that is present replaces its value in place, a new key goes to the end. *)
Fixpoint odict_set {V} (k : string) (v : V) (d : list (string * V))
    : list (string * V) :=
  match d with
  | [] => [(k, v)]
  | (k', v') :: d' =>
      if decide (k = k') then (k, v) :: d' else (k', v') :: odict_set k v d'
  end.

Fixpoint odict_get {V} (k : string) (d : list (string * V)) : option V :=
  match d with
  | [] => None
  | (k', v') :: d' => if decide (k = k') then Some v' else odict_get k d'
  end.

(** One line of [self.overwrite_log], as the three values it is formatted
    from. *)
Record OverwriteEvent := {
  ev_path : string;
  superseded : Z;
  winning : Z
}.

#[global] Instance OverwriteEvent_eq_dec : EqDecision OverwriteEvent.
Proof. solve_decision. Defined.

(** [f"File '{path}' from Depot {old} was overwritten by Depot {new}."] *)
Definition overwrite_line (ev : OverwriteEvent) : string :=
  "File '" +:+ ev_path ev +:+ "' from Depot " +:+ str_int (superseded ev)
  +:+ " was overwritten by Depot " +:+ str_int (winning ev) +:+ ".".

(** What the [try] block of one depot gets to see: the entries that
    [iter_files] yields before the block ends, and the exception that ends it
    early, if any ([get_manifest] or [decrypt_filenames] raising yields no
    entry at all). *)
Record manifest_run := {
  files : list FileInfo;
  failure : option exn
}.

(** The remote side and the manifest cache, by app id and depot. *)
Definition cdn := Z → DepotRecord → manifest_run.

Definition master_file_map := list (string * (FileInfo * Z)).

(** The body of [for file_info in manifest.iter_files()]. *)
Definition add_file (depot : DepotRecord)
    (acc : master_file_map * list OverwriteEvent) (file_info : FileInfo)
    : master_file_map * list OverwriteEvent :=
  let '(map, log) := acc in
  let log' :=
    match odict_get (filename file_info) map with
    | Some (_, old_depot_id) =>
        log ++ [{| ev_path := filename file_info;
                   superseded := old_depot_id;
                   winning := depot_id depot |}]
    | None => log
    end in
  (odict_set (filename file_info) (file_info, depot_id depot) map, log').

(** The body of [for depot in self.depots_to_download]: an exception ends
    the depot with a warning and keeps what was merged so far. *)
Definition add_depot (remote : cdn) (app_id : Z)
    (acc : master_file_map * list OverwriteEvent) (depot : DepotRecord)
    : master_file_map * list OverwriteEvent :=
  foldl (add_file depot) acc (files (remote app_id depot)).

Definition aggregate (remote : cdn) (app_id : Z) (queue : list DepotRecord)
    : master_file_map * list OverwriteEvent :=
  foldl (add_depot remote app_id) ([], []) queue.

Definition overwrite_log (remote : cdn) (app_id : Z) (queue : list DepotRecord)
    : list string :=
  overwrite_line <$> (aggregate remote app_id queue).2.

(** [[item[0] for item in master_file_map.values()]] *)
Definition all_files_in_manifest (map : master_file_map) : list FileInfo :=
  (λ item, item.2.1) <$> map.

(** The writes to [master_file_map] in the order they happen: every entry
    with the depot that brings it. *)
Definition occurrences (remote : cdn) (app_id : Z) (queue : list DepotRecord)
    : list (FileInfo * DepotRecord) :=
  queue ≫= λ depot, (λ fi, (fi, depot)) <$> files (remote app_id depot).

(** The writes to one path. *)
Definition holders (path : string) (occ : list (FileInfo * DepotRecord))
    : list (FileInfo * DepotRecord) :=
  filter (λ o, filename o.1 = path) occ.

(** One event for each write to a path that follows another write to it. *)
Fixpoint handovers (path : string) (hs : list (FileInfo * DepotRecord))
    : list OverwriteEvent :=
  match hs with
  | o1 :: ((o2 :: _) as rest) =>
      {| ev_path := path; superseded := depot_id o1.2;
         winning := depot_id o2.2 |} :: handovers path rest
  | _ => []
  end.

Definition events_for (path : string) (log : list OverwriteEvent)
    : list OverwriteEvent :=
  filter (λ ev, ev_path ev = path) log.

End Aggregator.

(** ** [_download_single_file] and the download phase *)

Module Scheduler.
Import Fs.
#[local] Open Scope nat_scope.

(** The progress bar: the byte counter advanced by [pbar.update] and the
    lines of [pbar.write], kept as the file name and the exception caught. *)
Record Pbar := {
  n : nat;
  messages : list (string * exn)
}.

Definition pbar_update (pbar : Pbar) (k : nat) : Pbar :=
  {| n := n pbar + k; messages := messages pbar |}.

Definition pbar_write (pbar : Pbar) (name : string) (e : exn) : Pbar :=
  {| n := n pbar; messages := messages pbar ++ [(name, e)] |}.

(** The [for chunk_data in file_info] loop over the pieces the iteration
    yields: each piece is appended to the open file and counted. The result
    is the exception that stopped the loop, if any, the file's bytes, the
    progress bar and the number of bytes fetched from the iterator. A write
    is taken to reach the file, or to raise, at the call itself: the buffer
    that Python puts in front of the file, which can let a failing write
    surface at a later write or at the close, after the piece is counted, is
    left out. *)
Fixpoint write_chunks (env : io_env) (safe_path : string) (i : nat)
    (pieces : list bytes) (content : bytes) (pbar : Pbar) (fetched : nat)
    : option exn * bytes * Pbar * nat :=
  match pieces with
  | [] => (None, content, pbar, fetched)
  | chunk_data :: rest =>
      if write_fails env safe_path i
      then (Some IOError, content, pbar, fetched + length chunk_data)
      else write_chunks env safe_path (S i) rest (content ++ chunk_data)
             (pbar_update pbar (length chunk_data))
             (fetched + length chunk_data)
  end.

(** The worker. Opening in mode ['ab'] creates a missing file and keeps the
    bytes of an existing one; every exception ends in [pbar.write]. *)
Definition _download_single_file (env : io_env) (file_info : FileInfo)
    (base_download_dir : string) (st : fs) (pbar : Pbar)
    : FileInfo * fs * Pbar :=
  let safe_path := joinpath base_download_dir (filename file_info) in
  if mkdir_fails env safe_path
  then (file_info, st, pbar_write pbar (filename file_info) IOError)
  else if open_ab_fails env safe_path
  then (file_info, st, pbar_write pbar (filename file_info) IOError)
  else
    let content := default [] (st !! safe_path) in
    let t := cdn_iter env file_info in
    let '(err, content', pbar', fetched) :=
      write_chunks env safe_path 0 (yields t) content pbar 0 in
    let file_info' := seek file_info (offset file_info + fetched) in
    let st' := <[safe_path := content']> st in
    match err with
    | Some e => (file_info', st', pbar_write pbar' (filename file_info) e)
    | None =>
        if raises t
        then (file_info', st', pbar_write pbar' (filename file_info) OtherError)
        else (file_info', st', pbar')
    end.

(** The download phase over the verified list: the files flagged for
    repair are the tasks, taken here in submission order, one after the other.
    The entries are the objects of [all_files], so their cursors move in
    place. *)
Fixpoint download_flagged (env : io_env) (base_dir : string)
    (files : list (FileInfo * bool)) (st : fs) (pbar : Pbar)
    : list FileInfo * fs * Pbar :=
  match files with
  | [] => ([], st, pbar)
  | (file_info, flagged) :: rest =>
      let '(file_info', st', pbar') :=
        if flagged then _download_single_file env file_info base_dir st pbar
        else (file_info, st, pbar) in
      let '(rest', st'', pbar'') := download_flagged env base_dir rest st' pbar' in
      (file_info' :: rest', st'', pbar'')
  end.

End Scheduler.

(** ** The thread pool of the download phase *)

Module Pool.
Import Fs Scheduler.
#[local] Open Scope nat_scope.

(** Where a worker is in [_download_single_file]: not started; inside the
    [for] loop, before write number [i], with the pieces still to come and the
    bytes fetched so far; or returned, with the entry as it leaves it. *)
Inductive wstate :=
| Queued
| Writing (i : nat) (pieces : list bytes) (fetched : nat)
| Finished (file_info' : FileInfo).

Definition running (w : wstate) : bool :=
  match w with Writing _ _ _ => true | _ => false end.

Definition finished (w : wstate) : bool :=
  match w with Finished _ => true | _ => false end.

(** One atomic step of a worker on its own file: [content] is what the file
    holds ([None] when it does not exist). Creating the directories and
    opening the file is one step, each write is one step, and so is leaving
    the loop. Every failure ends the worker with a line in the log. A write
    and the [pbar.update] that follows it are one step here, so the steps say
    nothing about how the progress bar behaves under concurrent updates. *)
Definition worker_step (env : io_env) (base : string) (fi : FileInfo)
    (w : wstate) (content : option bytes) (pbar : Pbar)
    : wstate * option bytes * Pbar :=
  let p := joinpath base (filename fi) in
  match w with
  | Queued =>
      if mkdir_fails env p
      then (Finished fi, content, pbar_write pbar (filename fi) IOError)
      else if open_ab_fails env p
      then (Finished fi, content, pbar_write pbar (filename fi) IOError)
      else (Writing 0 (yields (cdn_iter env fi)) 0,
            Some (default [] content), pbar)
  | Writing i [] fetched =>
      let fi' := seek fi (offset fi + fetched) in
      if raises (cdn_iter env fi)
      then (Finished fi', content, pbar_write pbar (filename fi) OtherError)
      else (Finished fi', content, pbar)
  | Writing i (chunk_data :: rest) fetched =>
      if write_fails env p i
      then (Finished (seek fi (offset fi + (fetched + length chunk_data))),
            content, pbar_write pbar (filename fi) IOError)
      else (Writing (S i) rest (fetched + length chunk_data),
            Some (default [] content ++ chunk_data),
            pbar_update pbar (length chunk_data))
  | Finished _ => (w, content, pbar)
  end.

(** The pool: the tasks submitted, each with the state of its worker, the
    file system and the shared progress bar. *)
Record pool := {
  workers : list (FileInfo * wstate);
  pool_fs : fs;
  pool_pbar : Pbar
}.

Definition set_content (p : string) (content : option bytes) (st : fs) : fs :=
  match content with
  | Some c => <[p := c]> st
  | None => st
  end.

(** One step of the pool: some worker that has not returned takes one step.
    A task starts only while fewer than [max_workers] workers are running. *)
Inductive pool_step (env : io_env) (base : string) (max_workers : nat)
    : pool → pool → Prop :=
| pool_step_worker ps k fi w w' content' pbar' :
    workers ps !! k = Some (fi, w) →
    finished w = false →
    (w = Queued → length (filter (λ e, running e.2) (workers ps)) < max_workers) →
    worker_step env base fi w (pool_fs ps !! joinpath base (filename fi))
      (pool_pbar ps) = (w', content', pbar') →
    pool_step env base max_workers ps
      {| workers := <[k := (fi, w')]> (workers ps);
         pool_fs := set_content (joinpath base (filename fi)) content' (pool_fs ps);
         pool_pbar := pbar' |}.

(** [executor.submit] for every file, in order. *)
Definition submit_all (files : list FileInfo) (st : fs) (pbar : Pbar) : pool :=
  {| workers := (λ fi, (fi, Queued)) <$> files; pool_fs := st; pool_pbar := pbar |}.

(** [concurrent.futures.wait(futures)] lets the scheduler go on once every
    worker has returned. *)
Definition drained (ps : pool) : Prop :=
  Forall (λ e, finished e.2 = true) (workers ps).

(** The steps a worker still has to take, at most. *)
Definition steps_left (env : io_env) (e : FileInfo * wstate) : nat :=
  match e.2 with
  | Queued => 2 + length (yields (cdn_iter env e.1))
  | Writing _ pieces _ => 1 + length pieces
  | Finished _ => 0
  end.

Definition pool_steps_left (env : io_env) (ps : pool) : nat :=
  sum_list_with (steps_left env) (workers ps).

(** The lines of the log about one file. *)
Definition messages_of (name : string) (pbar : Pbar) : list (string * exn) :=
  filter (λ m, m.1 = name) (messages pbar).

(** What a worker makes of its file when it runs from its state to the end:
    the entry, the content of the file, and the lines it still logs. *)
Definition complete (env : io_env) (base : string) (fi : FileInfo)
    (w : wstate) (content : option bytes)
    : FileInfo * option bytes * list (string * exn) :=
  let p := joinpath base (filename fi) in
  let loop i pieces fetched :=
    let '(err, content', _, fetched') :=
      write_chunks env p i pieces (default [] content)
        {| n := 0; messages := [] |} fetched in
    (seek fi (offset fi + fetched'), Some content',
     match err with
     | Some e => [(filename fi, e)]
     | None => if raises (cdn_iter env fi) then [(filename fi, OtherError)] else []
     end) in
  match w with
  | Queued =>
      if mkdir_fails env p then (fi, content, [(filename fi, IOError)])
      else if open_ab_fails env p then (fi, content, [(filename fi, IOError)])
      else loop 0 (yields (cdn_iter env fi)) 0
  | Writing i pieces fetched => loop i pieces fetched
  | Finished fi' => (fi', content, [])
  end.

(** What holds of the pool however the workers are interleaved: each worker
    is on the way to what it makes of its file when run on its own from the
    initial state [st0], a worker inside its loop has its file, and the paths
    and log lines that belong to no submitted file are as they were. *)
Definition pool_inv (env : io_env) (base : string) (files : list FileInfo)
    (st0 : fs) (pbar0 : Pbar) (ps : pool) : Prop :=
  (workers ps).*1 = files
  ∧ (∀ k fi w, workers ps !! k = Some (fi, w) →
       let p := joinpath base (filename fi) in
       let r := complete env base fi w (pool_fs ps !! p) in
       let r0 := complete env base fi Queued (st0 !! p) in
       r.1.1 = r0.1.1 ∧ r.1.2 = r0.1.2
       ∧ messages_of (filename fi) (pool_pbar ps) ++ r.2
         = messages_of (filename fi) pbar0 ++ r0.2
       ∧ (running w = true → is_Some (pool_fs ps !! p)))
  ∧ (∀ q, (∀ fi, fi ∈ files → joinpath base (filename fi) ≠ q) →
       pool_fs ps !! q = st0 !! q)
  ∧ (∀ name, name ∉ filename <$> files →
       messages_of name (pool_pbar ps) = messages_of name pbar0).

End Pool.

(** ** [_execute_verification_and_download_cycle] *)

Module Reconcile.
Import Fs Verifier Scheduler.
#[local] Open Scope nat_scope.

(** What a run does, phase by phase: a verification pass with the names it
    flagged, a download phase with the names it was given. *)
Inductive phase_event :=
| Verified (needs_repair : list string)
| Downloaded (files : list string).

Section WithHash.
Context (sha1 : bytes → bytes).

(** PHASE 1: the loop over [all_files]. Each entry comes back with its
    cursor as verification left it and with the flag that puts it in
    [files_to_download]; the third component is [total_download_size]. *)
Fixpoint verify_all (env : io_env) (base_dir : string)
    (all_files : list FileInfo) (st : fs)
    : outcome (list (FileInfo * bool) * nat) * fs :=
  match all_files with
  | [] => (Return ([], 0%nat), st)
  | file_info :: rest =>
      if is_directory file_info then
        match verify_all env base_dir rest st with
        | (Return (l, total), st') => (Return ((file_info, false) :: l, total), st')
        | (Raise e, st') => (Raise e, st')
        end
      else
        let safe_path := joinpath base_dir (filename file_info) in
        match _verify_and_repair_file sha1 env file_info safe_path st with
        | (Raise e, st') => (Raise e, st')
        | (Return (ok, file_info'), st') =>
            match verify_all env base_dir rest st' with
            | (Return (l, total), st'') =>
                if ok then (Return ((file_info', false) :: l, total), st'')
                else (Return ((file_info', true) :: l,
                              (size file_info' - offset file_info') + total)%nat,
                      st'')
            | (Raise e, st'') => (Raise e, st'')
            end
        end
  end.

Definition files_to_download (l : list (FileInfo * bool)) : list FileInfo :=
  fst <$> filter (λ p, p.2 = true) l.

(** [input(...).upper() == 'Y'] *)
Definition is_yes (answer : string) : bool :=
  bool_decide (answer = "Y" ∨ answer = "y").

(** The state a run ends in. *)
Record run_result := {
  result : outcome bool;
  files_after : list FileInfo;
  fs_after : fs;
  trace : list phase_event
}.

(** The [while True] loop. [envs k] is the environment of pass [k]; [inputs]
    are the lines the user will type, and reading past them raises. The loop
    has no bound of its own: [fuel] counts the passes allowed, and [None]
    says that they ran out. *)
Fixpoint cycle (fuel : nat) (envs : nat → io_env) (pass : nat)
    (inputs : list string) (all_files : list FileInfo) (base_dir : string)
    (verify_only : bool) (st : fs) (tr : list phase_event)
    : option run_result :=
  match fuel with
  | O => None
  | S fuel' =>
      let env := envs pass in
      match verify_all env base_dir all_files st with
      | (Raise e, st') =>
          Some {| result := Raise e; files_after := all_files;
                  fs_after := st'; trace := tr |}
      | (Return (verified, total_download_size), st') =>
          let to_download := files_to_download verified in
          let tr' := tr ++ [Verified (filename <$> to_download)] in
          let stop r :=
            Some {| result := r; files_after := verified.*1;
                    fs_after := st'; trace := tr' |} in
          match to_download with
          | [] => stop (Return true)
          | _ :: _ =>
              let confirm :=
                if verify_only then
                  match inputs with
                  | [] => inl (Raise OtherError)
                  | answer :: inputs' =>
                      if is_yes answer then inr inputs' else inl (Return false)
                  end
                else inr inputs in
              match confirm with
              | inl r => stop r
              | inr [] => stop (Raise OtherError)
              | inr (_ :: inputs') =>
                  let '(files', st'', _) :=
                    download_flagged env base_dir verified st'
                      {| n := 0; messages := [] |} in
                  cycle fuel' envs (S pass) inputs' files' base_dir false st''
                    (tr' ++ [Downloaded (filename <$> to_download)])
              end
          end
      end
  end.

Definition _execute_verification_and_download_cycle (fuel : nat)
    (envs : nat → io_env) (inputs : list string) (all_files : list FileInfo)
    (base_dir : string) (verify_only : bool) (st : fs) : option run_result :=
  cycle fuel envs 0 inputs all_files base_dir verify_only st [].

(** The file of an entry holds exactly its chunks; it is not there. *)
Definition valid_on_disk (base_dir : string) (st : fs) (fi : FileInfo) : Prop :=
  ∃ content, st !! joinpath base_dir (filename fi) = Some content
             ∧ chunks_match sha1 (chunks fi) content.

Definition absent (base_dir : string) (st : fs) (fi : FileInfo) : Prop :=
  st !! joinpath base_dir (filename fi) = None.

#[global] Instance absent_dec base_dir st fi : Decision (absent base_dir st fi).
Proof. unfold absent. apply _. Defined.



End WithHash.




End Reconcile.

(** ** The queue descriptor: [_write_sfd_file], [_load_sfd_from_path] *)

Module Sfd.
Import Text Fs.

(** The Python built-ins and the [steam] constructor that the codec calls.
    A result of [None] stands for the exception the call raises. The value
    that [ast.literal_eval] gives back is whatever Python literal the line
    holds, so its type is left open. *)
Class Builtins (payload Manifest : Type) := {
  strip : string → string;
  py_int : string → option Z;
  fromhex : string → option bytes;
  hex : bytes → string;
  literal_eval : string → option payload;
  repr : payload → string;
  DepotManifestClass : Z → payload → option Manifest
}.

Section Codec.
Context {payload Manifest : Type} `{!Builtins payload Manifest}.

(** One entry of [self.depots_to_download]. *)
Record DepotInfo := {
  depot_id : Z;
  manifest_id : Z;
  depot_key : bytes;
  manifest_content : payload
}.

(** The fields of the application that hold the queue, and the two caches of
    the CDN client. *)
Record App := {
  app_id : option Z;
  depots_to_download : list DepotInfo;
  overwrite_log : list string;
  cdn_manifests : gmap (Z * Z * Z) Manifest;
  cdn_depot_keys : gmap Z bytes
}.

Definition _reset_queue (st : App) : App :=
  {| app_id := None; depots_to_download := []; overwrite_log := [];
     cdn_manifests := ∅; cdn_depot_keys := ∅ |}.

Definition SENTINEL : string := "EndOfFile".

(** The four lines written for one depot. *)
Definition depot_lines (depot : DepotInfo) : list string :=
  [ str_int (depot_id depot) +:+ NL;
    str_int (manifest_id depot) +:+ NL;
    hex (depot_key depot) +:+ NL;
    repr (manifest_content depot) +:+ NL ].

(** The text written, line by line. No field's text holds a newline, so the
    lines written are the lines read back. *)
Definition _write_sfd_file (app_id : Z) (collected_depots : list DepotInfo)
    : list string :=
  [ str_int app_id +:+ NL ]
  ++ (collected_depots ≫= depot_lines)
  ++ [ SENTINEL +:+ NL ].

(** The state after one record is taken in. *)
Definition add_depot (a : Z) (depot : DepotInfo) (m : Manifest) (st : App) : App :=
  {| app_id := app_id st;
     depots_to_download := depots_to_download st ++ [depot];
     overwrite_log := overwrite_log st;
     cdn_manifests := <[(a, depot_id depot, manifest_id depot) := m]> (cdn_manifests st);
     cdn_depot_keys := <[depot_id depot := depot_key depot]> (cdn_depot_keys st) |}.

(** The fields of one record, parsed in the order the code parses them. *)
Definition parse_record (a : Z) (line1 line2 line3 line4 : string)
    : option (DepotInfo * Manifest) :=
  depot_id ← py_int (strip line1);
  manifest_id ← py_int (strip line2);
  depot_key ← fromhex (strip line3);
  manifest_content ← literal_eval (strip line4);
  m ← DepotManifestClass a manifest_content;
  Some ({| depot_id := depot_id; manifest_id := manifest_id;
           depot_key := depot_key; manifest_content := manifest_content |}, m).

(** The [while True] loop over the lines that are left. [readline] gives the
    empty string at the end of the file, so a missing line is an empty one.
    The loop ends at the end of the file, at the sentinel, or, with a
    warning, inside a record that is cut short; a field that does not parse
    raises. *)
Fixpoint load_records (a : Z) (ls : list string) (st : App) : outcome App :=
  match ls with
  | [] => Return st
  | line1 :: ls1 =>
      if decide (line1 = EmptyString ∨ strip line1 = SENTINEL) then Return st
      else
        match ls1 with
        | line2 :: line3 :: line4 :: rest =>
            if decide (line2 = EmptyString ∨ line3 = EmptyString
                       ∨ line4 = EmptyString)
            then Return st
            else
              match parse_record a line1 line2 line3 line4 with
              | Some (depot, m) => load_records a rest (add_depot a depot m st)
              | None => Raise OtherError
              end
        | _ => Return st
        end
  end.

(** The body of the [try] block, on the lines of the file, or on [None]
    when the file cannot be opened. *)
Definition load_body (file : option (list string)) (st : App) : outcome App :=
  match file with
  | None => Raise IOError
  | Some ls =>
      match py_int (strip (hd EmptyString ls)) with
      | None => Raise OtherError
      | Some a =>
          load_records a (tl ls)
            {| app_id := Some a;
               depots_to_download := depots_to_download st;
               overwrite_log := overwrite_log st;
               cdn_manifests := cdn_manifests st;
               cdn_depot_keys := cdn_depot_keys st |}
      end
  end.

Definition _load_sfd_from_path (file : option (list string)) (st : App) : App :=
  let st0 := _reset_queue st in
  match load_body file st0 with
  | Return st' => st'
  | Raise _ => _reset_queue st0
  end.

(** A persisted descriptor as the interface section describes it: the app
    id on line 1, then four lines for each depot in [depots], each parsing to
    that depot, then the sentinel as the final line. *)
Definition record_parses (a : Z) (r : string * string * string * string)
    (depot : DepotInfo) : Prop :=
  let '(line1, line2, line3, line4) := r in
  line1 ≠ EmptyString ∧ line2 ≠ EmptyString
  ∧ line3 ≠ EmptyString ∧ line4 ≠ EmptyString
  ∧ strip line1 ≠ SENTINEL
  ∧ ∃ m, parse_record a line1 line2 line3 line4 = Some (depot, m).

Definition record_text (r : string * string * string * string) : list string :=
  let '(line1, line2, line3, line4) := r in [line1; line2; line3; line4].

Definition well_formed_sfd (lines : list string) (a : Z)
    (depots : list DepotInfo) : Prop :=
  ∃ first recs last,
    lines = first :: (recs ≫= record_text) ++ [last]
    ∧ py_int (strip first) = Some a
    ∧ Forall2 (record_parses a) recs depots
    ∧ strip last = SENTINEL.

(** The four lines written for a depot, as one record. *)
Definition written_record (depot : DepotInfo)
    : string * string * string * string :=
  (str_int (depot_id depot) +:+ NL, str_int (manifest_id depot) +:+ NL,
   hex (depot_key depot) +:+ NL, repr (manifest_content depot) +:+ NL).

(** The lines written for a depot read back as that depot. *)
Definition rereads (a : Z) (depot : DepotInfo) : Prop :=
  strip (str_int (depot_id depot) +:+ NL) ≠ SENTINEL
  ∧ py_int (strip (str_int (depot_id depot) +:+ NL)) = Some (depot_id depot)
  ∧ py_int (strip (str_int (manifest_id depot) +:+ NL)) = Some (manifest_id depot)
  ∧ fromhex (strip (hex (depot_key depot) +:+ NL)) = Some (depot_key depot)
  ∧ literal_eval (strip (repr (manifest_content depot) +:+ NL))
    = Some (manifest_content depot).

(** The state after the depots are taken in, one after the other. *)
Definition add_all (a : Z) (depots : list DepotInfo) (st : App) : App :=
  foldl (λ st depot,
           match DepotManifestClass a (manifest_content depot) with
           | Some m => add_depot a depot m st
           | None => st
           end) st depots.

(** The queue right after line 1 is read. *)
Definition opened (a : Z) : App :=
  {| app_id := Some a; depots_to_download := []; overwrite_log := [];
     cdn_manifests := ∅; cdn_depot_keys := ∅ |}.

(** The line index of the first sentinel at the start of a record. *)
Fixpoint sentinel_index (i : nat) (records : list string) : option nat :=
  match records with
  | [] => None
  | line1 :: ls1 =>
      if decide (strip line1 = SENTINEL) then Some i
      else
        match ls1 with
        | _ :: _ :: _ :: rest => sentinel_index (4 + i) rest
        | _ => None
        end
  end.

End Codec.

Arguments DepotInfo : clear implicits.
Arguments App : clear implicits.

End Sfd.

(** ** [convert_lua_workflow] *)

Module Lua.
Import Text Fs.

(** A Python [dict] with [int] keys, in insertion order. *)
Fixpoint idict_set {V} (k : Z) (v : V) (d : list (Z * V)) : list (Z * V) :=
  match d with
  | [] => [(k, v)]
  | (k', v') :: d' =>
      if decide (k = k') then (k, v) :: d' else (k', v') :: idict_set k v d'
  end.

Fixpoint idict_get {V} (k : Z) (d : list (Z * V)) : option V :=
  match d with
  | [] => None
  | (k', v') :: d' => if decide (k = k') then Some v' else idict_get k d'
  end.

(** A value of [parsed_depots]: the text of the key, and the text of the
    manifest id once it is set. *)
Record LuaEntry := {
  key : string;
  lua_manifest_id : option string
}.

Section Importer.
Context {Manifest : Type} `{!Sfd.Builtins bytes Manifest}.

(** The groups of the first match in a line of the pattern for [addappid]
    (depot id, key) and of the pattern for [setManifestid] (depot id,
    manifest id), or [None] when the pattern matches nowhere in the line. *)
Context (re_addappid re_setmanifest : string → option (string * string)).

(** The body of [for line in f]. *)
Definition parse_line (parsed_depots : list (Z * LuaEntry)) (line : string)
    : outcome (list (Z * LuaEntry)) :=
  match re_addappid line with
  | Some (depot_id, depot_key) =>
      match Sfd.py_int depot_id with
      | Some i =>
          Return (idict_set i {| key := depot_key; lua_manifest_id := None |}
                    parsed_depots)
      | None => Raise OtherError
      end
  | None =>
      match re_setmanifest line with
      | Some (depot_id, manifest_id) =>
          match Sfd.py_int depot_id with
          | Some i =>
              match idict_get i parsed_depots with
              | Some e =>
                  Return (idict_set i {| key := key e;
                                         lua_manifest_id := Some manifest_id |}
                            parsed_depots)
              | None => Return parsed_depots
              end
          | None => Raise OtherError
          end
      | None => Return parsed_depots
      end
  end.

Fixpoint parse_lines (parsed_depots : list (Z * LuaEntry))
    (lines : list string) : outcome (list (Z * LuaEntry)) :=
  match lines with
  | [] => Return parsed_depots
  | line :: rest =>
      match parse_line parsed_depots line with
      | Return parsed_depots' => parse_lines parsed_depots' rest
      | Raise e => Raise e
      end
  end.

(** The directory of the [.lua] file: whether a file of that name exists,
    and its bytes, or [None] when reading it raises. *)
Context (manifest_exists : string → bool) (read_bytes : string → option bytes).

(** [f"{depot_id}_{data['manifest_id']}.manifest"] *)
Definition manifest_name (depot_id : Z) (manifest_id : string) : string :=
  str_int depot_id +:+ "_" +:+ manifest_id +:+ ".manifest".

(** The body of [for depot_id, data in parsed_depots.items()]: the depot it
    appends to [collected_depots], if any. *)
Definition collect_depot (item : Z * LuaEntry) : option (Sfd.DepotInfo bytes) :=
  match lua_manifest_id item.2 with
  | None => None
  | Some manifest_id =>
      if manifest_exists (manifest_name item.1 manifest_id) then
        manifest_content ← read_bytes (manifest_name item.1 manifest_id);
        m ← Sfd.py_int manifest_id;
        depot_key ← Sfd.fromhex (key item.2);
        Some {| Sfd.depot_id := item.1; Sfd.manifest_id := m;
                Sfd.depot_key := depot_key;
                Sfd.manifest_content := manifest_content |}
      else None
  end.

Definition collect_depots (parsed_depots : list (Z * LuaEntry))
    : list (Sfd.DepotInfo bytes) :=
  omap collect_depot parsed_depots.

(** The workflow from the point where the [.lua] file and the app id are
    chosen: [lua_file] are the lines of the file, or [None] when it cannot be
    read. The result is the descriptor written, if one is, and the queue. *)
Definition convert_lua (lua_file : option (list string)) (app_id : Z)
    (st : Sfd.App bytes Manifest)
    : option (list string) * Sfd.App bytes Manifest :=
  match lua_file with
  | None => (None, st)
  | Some lines =>
      match parse_lines [] lines with
      | Raise _ => (None, st)
      | Return [] => (None, st)
      | Return parsed_depots =>
          match collect_depots parsed_depots with
          | [] => (None, st)
          | collected_depots =>
              let sfd := Sfd._write_sfd_file app_id collected_depots in
              (Some sfd, Sfd._load_sfd_from_path (Some sfd) st)
          end
      end
  end.

(** The manifest ids that the lines set for depot [i]. *)
Definition sets_for (i : Z) (lines : list string) : list string :=
  omap (λ line,
          match re_addappid line with
          | Some _ => None
          | None =>
              match re_setmanifest line with
              | Some (depot_id, manifest_id) =>
                  if decide (Sfd.py_int depot_id = Some i)
                  then Some manifest_id else None
              | None => None
              end
          end) lines.

(** The line is an [addappid] line for depot [i]. *)
Definition adds (i : Z) (line : string) : Prop :=
  ∃ depot_id depot_key,
    re_addappid line = Some (depot_id, depot_key)
    ∧ Sfd.py_int depot_id = Some i.

End Importer.

End Lua.

(** ** [_sanitize_filename] *)

Module Names.

(** The characters of the class in the pattern: the angle brackets, the
    colon, the double quote, the slash, the backslash, the bar, the question
    mark and the star. *)
Definition invalid_chars : list ascii :=
  ["<"; ">"; ":"; ascii_of_nat 34; "/"; "\"; "|"; "?"; "*"]%char.

Definition invalid_char (c : ascii) : bool := bool_decide (c ∈ invalid_chars).

(** [re.sub(pattern, '_', name)]: every character of the class is replaced
    on its own, and the others are kept. *)
Fixpoint _sanitize_filename (name : string) : string :=
  match name with
  | EmptyString => EmptyString
  | String c rest =>
      String (if invalid_char c then "_"%char else c) (_sanitize_filename rest)
  end.

Fixpoint chars (s : string) : list ascii :=
  match s with
  | EmptyString => []
  | String c rest => c :: chars rest
  end.

End Names.

(** ** [_ensure_logged_in] and [_get_game_name] *)

Module Session.
Import Text.

(** What [client.anonymous_login()] does when it is called: whether it
    raises, and whether the client is logged on afterwards. *)
Record login_reply := {
  login_raises : bool;
  logged_on_after : bool
}.

(** The Steam side during one call: the reply to a login, and for an app id
    the value of [resp['apps'][app_id]['common']['name']], or [None] when the
    request or one of the lookups raises. *)
Record remote := {
  anonymous_login : login_reply;
  product_name : Z → option string
}.

Record state := {
  logged_on : bool;
  app_name_cache : gmap Z string
}.

Definition _ensure_logged_in (r : remote) (st : state) : bool * state :=
  if logged_on st then (true, st)
  else
    let st' := {| logged_on := logged_on_after (anonymous_login r);
                  app_name_cache := app_name_cache st |} in
    if login_raises (anonymous_login r) then (false, st')
    else (logged_on st', st').

Definition _get_game_name (r : remote) (app_id : Z) (st : state)
    : string * state :=
  match app_name_cache st !! app_id with
  | Some name => (name, st)
  | None =>
      let '(ok, st1) := _ensure_logged_in r st in
      if ok then
        match product_name r app_id with
        | Some game_name =>
            (game_name,
             {| logged_on := logged_on st1;
                app_name_cache := <[app_id := game_name]> (app_name_cache st1) |})
        | None => (str_int app_id, st1)
        end
      else (str_int app_id, st1)
  end.

End Session.

(** ** [_select_file_from_list] *)

Module Picker.
Import Fs.

(** [l[i]] for a Python list: a negative index counts from the end, and an
    index out of range raises. *)
Definition py_getitem {A} (l : list A) (i : Z) : option A :=
  if decide (0 ≤ i) then l !! Z.to_nat i
  else if decide (- Z.of_nat (length l) ≤ i)
       then l !! Z.to_nat (Z.of_nat (length l) + i)
       else None.

Section WithInt.
Context (py_int : string → option Z).

(** [found_files] is the sorted list of the files found; [inputs] are the
    lines the user will type, and reading past them raises. The result comes
    with the lines that are left. *)
Definition _select_file_from_list (found_files : list string)
    (inputs : list string) : outcome (option string) * list string :=
  match found_files with
  | [] => (Return None, inputs)
  | _ :: _ =>
      match inputs with
      | [] => (Raise OtherError, [])
      | answer :: inputs' =>
          match py_int answer with
          | None => (Return None, inputs')
          | Some choice =>
              if decide (1 ≤ choice ≤ Z.of_nat (length found_files)) then
                match py_getitem found_files (choice - 1) with
                | Some f => (Return (Some f), inputs')
                | None => (Raise OtherError, inputs')
                end
              else (Return None, inputs')
          end
      end
  end.

End WithInt.

End Picker.

(** ** The loaded queue and the caches of the CDN client *)

Module Queue.
Import Sfd.

Section WithBuiltins.
Context {payload Manifest : Type} `{!Builtins payload Manifest}.

(** The queue and the two caches hold the same depots: a queue that is not
    empty has an app id, every depot of the queue has its key and its
    manifest cached, and the caches hold nothing else. *)
Definition caches_agree (st : App payload Manifest) : Prop :=
  (depots_to_download st ≠ [] → is_Some (app_id st))
  ∧ (∀ d, d ∈ depots_to_download st →
       ∃ a, app_id st = Some a
            ∧ is_Some (cdn_manifests st !! (a, depot_id d, manifest_id d))
            ∧ is_Some (cdn_depot_keys st !! depot_id d))
  ∧ (∀ i k, cdn_depot_keys st !! i = Some k →
       ∃ d, d ∈ depots_to_download st ∧ depot_id d = i ∧ depot_key d = k)
  ∧ (∀ a i mid m, cdn_manifests st !! (a, i, mid) = Some m →
       app_id st = Some a
       ∧ ∃ d, d ∈ depots_to_download st ∧ depot_id d = i ∧ manifest_id d = mid
              ∧ DepotManifestClass a (manifest_content d) = Some m).

End WithBuiltins.

End Queue.

(** ** States of a file between verification and download *)

Module Repair.
Import Fs Verifier Scheduler.
#[local] Open Scope nat_scope.

Section WithHash.
Context (sha1 : bytes → bytes).

(** A digest of the manifest is only met by blocks of the chunk's size. *)
Definition digests_pin_length (fi : FileInfo) : Prop :=
  ∀ c d, c ∈ chunks fi → sha1 d = sha c → length d = cb_original c.

(** The file of an entry starts with the chunks of the entry; what follows
    them is not looked at. *)
Definition accepted (base_dir : string) (st : fs) (fi : FileInfo) : Prop :=
  ∃ good tail, st !! joinpath base_dir (filename fi) = Some (good ++ tail)
               ∧ chunks_match sha1 (chunks fi) good.

(** The file of an entry, or nothing when it is absent, is made of the
    first [k] chunks of the entry, and the cursor of the entry is at its end. *)
Definition resumable (base_dir : string) (st : fs) (fi : FileInfo) : Prop :=
  ∃ k, chunks_match sha1 (take k (chunks fi))
         (default [] (st !! joinpath base_dir (filename fi)))
       ∧ offset fi
         = length (default [] (st !! joinpath base_dir (filename fi))).

(** What a verification pass returns for an entry [fi], and the file system
    [st'] it leaves, from the file system [st] it started on. *)
Definition pass_outcome (base : string) (st st' : fs)
    (fi : FileInfo) (e : FileInfo * bool) : Prop :=
  same_entry fi e.1
  ∧ (e.2 = true →
       is_directory fi = false ∧ resumable base st' e.1
       ∧ ¬ accepted base st fi)
  ∧ (e.2 = false →
       e.1 = fi
       ∧ (is_directory fi = false →
            accepted base st fi
            ∧ st' !! joinpath base (filename fi)
              = st !! joinpath base (filename fi))).

End WithHash.

(** [total_download_size] as the loop adds it up. *)
Definition missing_bytes (l : list (FileInfo * bool)) : nat :=
  sum_list_with (λ e : FileInfo * bool,
                   if e.2 then size e.1 - offset e.1 else 0) l.

(** Iterating the entry from whatever cursor yields the rest of [full] and
    ends without raising. *)
Definition remote_serves (env : io_env) (fi : FileInfo) (full : bytes) : Prop :=
  ∀ fi', same_entry fi fi' →
    raises (cdn_iter env fi') = false
    ∧ mjoin (yields (cdn_iter env fi')) = drop (offset fi') full.

(** No operation of the download worker raises for this path. *)
Definition download_fault_free (env : io_env) (p : string) : Prop :=
  mkdir_fails env p = false ∧ open_ab_fails env p = false
  ∧ ∀ j, write_fails env p j = false.

End Repair.

(** ** Worked inputs *)

Module Examples.
Import Fs Verifier Scheduler Reconcile.
#[local] Open Scope nat_scope.

(** A stand-in for SHA-1 in the worked inputs: the digest of a block is the
    block itself. The properties below hold for every digest function. *)
Definition toy_sha1 (data : bytes) : bytes := data.

Definition chunk_of (data : bytes) : Chunk :=
  {| cb_original := length data; sha := toy_sha1 data |}.

Definition file_a : FileInfo :=
  {| filename := "a.bin"; size := 4;
     chunks := [chunk_of [x01; x02]; chunk_of [x03; x04]];
     is_directory := false; offset := 0 |}.

Definition file_b : FileInfo :=
  {| filename := "b.bin"; size := 3; chunks := [chunk_of [x0a; x0b; x0c]];
     is_directory := false; offset := 0 |}.

Definition file_c : FileInfo :=
  {| filename := "c.bin"; size := 4;
     chunks := [chunk_of [x05; x06]; chunk_of [x07; x08]];
     is_directory := false; offset := 0 |}.

(** The bytes that the remote side holds for an entry. *)
Definition served (fi : FileInfo) : bytes := mjoin (sha <$> chunks fi).

(** Nothing raises, and iterating an entry yields its remaining bytes. *)
Definition quiet_env : io_env :=
  {| open_rb_fails := λ _, false; read_fails := λ _ _, false;
     open_rwb_fails := λ _, false; truncate_fails := λ _, false;
     mkdir_fails := λ _, false; open_ab_fails := λ _, false;
     write_fails := λ _ _, false;
     cdn_iter := λ fi, {| yields := [drop (offset fi) (served fi)];
                          raises := false |} |}.

(** As [quiet_env], but truncating raises. *)
Definition no_truncate_env : io_env :=
  {| open_rb_fails := λ _, false; read_fails := λ _ _, false;
     open_rwb_fails := λ _, false; truncate_fails := λ _, true;
     mkdir_fails := λ _, false; open_ab_fails := λ _, false;
     write_fails := λ _ _, false;
     cdn_iter := cdn_iter quiet_env |}.

(** As [quiet_env], but every write to [c.bin] raises. *)
Definition c_unwritable_env : io_env :=
  {| open_rb_fails := λ _, false; read_fails := λ _ _, false;
     open_rwb_fails := λ _, false; truncate_fails := λ _, false;
     mkdir_fails := λ _, false; open_ab_fails := λ _, false;
     write_fails := λ p _, bool_decide (p = "game/c.bin"%string);
     cdn_iter := cdn_iter quiet_env |}.

(** [a.bin] and [b.bin] complete, [c.bin] missing. *)
Definition disk_ab : fs :=
  <["game/b.bin" := [x0a; x0b; x0c]]>
    (<["game/a.bin" := [x01; x02; x03; x04]]> ∅).

(** [c.bin] with a good first chunk and a damaged second one. *)
Definition disk_c_damaged : fs :=
  <["game/c.bin" := [x05; x06; xff; xff]]> ∅.

Definition empty_pbar : Pbar := {| n := 0; messages := [] |}.

(** Three depots that all bring the path [data.pak], each with an entry of
    its own size. *)
Definition depot_n (id : Z) : Aggregator.DepotRecord :=
  {| Aggregator.depot_id := id; Aggregator.manifest_id := 1000 + id;
     Aggregator.depot_key := [] |}.

Definition pak_of (id : Z) : FileInfo :=
  {| filename := "data.pak"; size := Z.to_nat id; chunks := [];
     is_directory := false; offset := 0 |}.

Definition pak_remote : Aggregator.cdn :=
  λ _ depot,
    {| Aggregator.files := [pak_of (Aggregator.depot_id depot)];
       Aggregator.failure := None |}.

(** Stand-ins for the Python built-ins on plain ASCII input: [str.strip]
    over ASCII white space, [int] on an optional sign and decimal digits,
    [bytes.fromhex] and [bytes.hex] on pairs of hexadecimal digits, and
    [repr] and [ast.literal_eval] on byte strings, written [b'...'] with
    [\xNN] for every byte that is not a plain printable character. *)
Fixpoint lstrip (s : string) : string :=
  match s with
  | String c s' => if Ascii.is_space c then lstrip s' else s
  | EmptyString => EmptyString
  end.

Definition toy_strip (s : string) : string :=
  String.rev (lstrip (String.rev (lstrip s))).

Fixpoint parse_digits (acc : Z) (s : string) : option Z :=
  match s with
  | EmptyString => Some acc
  | String c s' =>
      match Ascii.is_nat c with
      | Some d => parse_digits (10 * acc + Z.of_nat d)%Z s'
      | None => None
      end
  end.

Definition toy_int (s : string) : option Z :=
  match s with
  | EmptyString => None
  | String "-" (String c s' as digits) => Z.opp <$> parse_digits 0 digits
  | String "+" (String c s' as digits) => parse_digits 0 digits
  | String "-" EmptyString | String "+" EmptyString => None
  | _ => parse_digits 0 s
  end.

Definition hex_value (c : ascii) : option N :=
  let n := N_of_ascii c in
  if decide (48 ≤ n ≤ 57)%N then Some (n - 48)%N
  else if decide (97 ≤ n ≤ 102)%N then Some (n - 87)%N
  else if decide (65 ≤ n ≤ 70)%N then Some (n - 55)%N
  else None.

Definition hex_char (n : N) : ascii :=
  ascii_of_N (if decide (n < 10)%N then 48 + n else 87 + n)%N.

Fixpoint toy_fromhex (s : string) : option bytes :=
  match s with
  | EmptyString => Some []
  | String c1 (String c2 s') =>
      hi ← hex_value c1; lo ← hex_value c2; rest ← toy_fromhex s';
      b ← Byte.of_N (16 * hi + lo);
      Some (b :: rest)
  | String _ EmptyString => None
  end.

Definition hex_pair (b : byte) : string :=
  let n := Byte.to_N b in
  String (hex_char (n / 16)) (String (hex_char (n mod 16)) EmptyString).

Definition toy_hex (k : bytes) : string :=
  Text.join (hex_pair <$> k).

Definition plain (b : byte) : bool :=
  let n := Byte.to_N b in
  bool_decide (32 ≤ n < 127 ∧ n ≠ 39 ∧ n ≠ 92)%N.

Definition toy_repr (c : bytes) : string :=
  "b'" +:+ Text.join ((λ b, if plain b
                            then String (ascii_of_byte b) EmptyString
                            else "\x" +:+ hex_pair b) <$> c) +:+ "'".

Fixpoint literal_body (s : string) : option bytes :=
  match s with
  | String "'" EmptyString => Some []
  | String "\" (String "x" (String c1 (String c2 s'))) =>
      hi ← hex_value c1; lo ← hex_value c2; rest ← literal_body s';
      b ← Byte.of_N (16 * hi + lo);
      Some (b :: rest)
  | String c s' =>
      if plain (byte_of_ascii c) then (byte_of_ascii c ::.) <$> literal_body s'
      else None
  | EmptyString => None
  end.

Definition toy_literal_eval (s : string) : option bytes :=
  match s with
  | String "b" (String "'" body) => literal_body body
  | _ => None
  end.

#[export] Instance toy_builtins : Sfd.Builtins bytes bytes :=
  {| Sfd.strip := toy_strip; Sfd.py_int := toy_int;
     Sfd.fromhex := toy_fromhex; Sfd.hex := toy_hex;
     Sfd.literal_eval := toy_literal_eval; Sfd.repr := toy_repr;
     Sfd.DepotManifestClass := λ _ c, Some c |}.

Definition line (s : string) : string := s +:+ Text.NL.

(** A descriptor with one depot, and the same descriptor cut inside a second
    record. *)
Definition sfd_one_depot : list string :=
  [line "480"; line "1"; line "2"; line "ab"; line "b'x'"; line "EndOfFile"].

Definition sfd_cut_short : list string :=
  [line "480"; line "1"; line "2"; line "ab"; line "b'x'"; line "3"; line "4"].

(** A descriptor whose second record has a key that is not hexadecimal. *)
Definition sfd_bad_key : list string :=
  [line "480"; line "1"; line "2"; line "ab"; line "b'x'";
   line "3"; line "4"; line "zz"; line "b'y'"; line "EndOfFile"].

Definition depot_one : Sfd.DepotInfo bytes :=
  {| Sfd.depot_id := 1; Sfd.manifest_id := 2; Sfd.depot_key := [xab];
     Sfd.manifest_content := [x78] |}.

(** A queue left over from an earlier load. *)
Definition stale_app : Sfd.App bytes bytes :=
  {| Sfd.app_id := Some 7%Z; Sfd.depots_to_download := [depot_one];
     Sfd.overwrite_log := []; Sfd.cdn_manifests := {[ (7, 1, 2)%Z := [x78] ]};
     Sfd.cdn_depot_keys := {[ 1%Z := [xab] ]} |}.

(** The existence check answers and every entry is a plain file; the
    existence check raises; no entry is a plain file. *)
Definition plain_lib : VerifierCall.lib_env :=
  {| VerifierCall.exists_raises := λ _, false;
     VerifierCall.seekable := λ _, true |}.

Definition no_access_lib : VerifierCall.lib_env :=
  {| VerifierCall.exists_raises := λ _, true;
     VerifierCall.seekable := λ _, true |}.

Definition symlink_lib : VerifierCall.lib_env :=
  {| VerifierCall.exists_raises := λ _, false;
     VerifierCall.seekable := λ _, false |}.

(** As [quiet_env], but the read at position 2 raises. *)
Definition bad_read_env : io_env :=
  {| open_rb_fails := λ _, false;
     read_fails := λ _ pos, bool_decide (pos = 2);
     open_rwb_fails := λ _, false; truncate_fails := λ _, false;
     mkdir_fails := λ _, false; open_ab_fails := λ _, false;
     write_fails := λ _ _, false;
     cdn_iter := cdn_iter quiet_env |}.

(** [c.bin] complete. *)
Definition disk_c : fs := <["game/c.bin" := [x05; x06; x07; x08]]> ∅.

(** [c.bin] complete, with one more byte behind its chunks. *)
Definition disk_c_tail : fs :=
  <["game/c.bin" := [x05; x06; x07; x08; xff]]> ∅.


(** Stand-ins for the two patterns of the Lua importer on a line format of
    the worked inputs: [a:depot:key] for an [addappid] line and
    [m:depot:manifest] for a [setManifestid] line. *)
Fixpoint split_colon (s : string) : string * string :=
  match s with
  | EmptyString => (EmptyString, EmptyString)
  | String ":" rest => (EmptyString, rest)
  | String c rest => let '(a, b) := split_colon rest in (String c a, b)
  end.

Definition toy_addappid (l : string) : option (string * string) :=
  match l with
  | String "a" (String ":" rest) => Some (split_colon rest)
  | _ => None
  end.

Definition toy_setmanifest (l : string) : option (string * string) :=
  match l with
  | String "m" (String ":" rest) => Some (split_colon rest)
  | _ => None
  end.

(** Depot 1 gets a manifest id before it is added, one after, and a last
    one after depot 2 is added; depot 2 gets none. *)
Definition lua_lines : list string :=
  ["m:1:5"; "a:1:ab"; "m:1:7"; "a:2:cd"; "m:1:2"].

(** The directory of the [.lua] file holds one manifest file. *)
Definition lua_dir_exists (name : string) : bool :=
  bool_decide (name = "1_2.manifest").

Definition lua_dir_read (name : string) : option bytes :=
  if bool_decide (name = "1_2.manifest") then Some [x78] else None.

End Examples.

(* ================================================================== *)
(** * Properties *)
(* ================================================================== *)

(** ** The descriptor builder *)

Section AcfFacts.
Import Text Acf.

#[local] Instance key_le_total {V} : Total (@key_le V).
Proof. intros a b. unfold key_le. lia. Qed.

#[local] Instance key_le_trans {V} : Transitive (@key_le V).
Proof. intros a b c. unfold key_le. lia. Qed.

Lemma sorted_items_perm {V} (m : gmap Z V) : sorted_items m ≡ₚ map_to_list m.
Proof. apply merge_sort_Permutation. Qed.

Lemma sorted_items_NoDup {V} (m : gmap Z V) : NoDup (sorted_items m).*1.
Proof. rewrite sorted_items_perm. apply NoDup_fst_map_to_list. Qed.

(** Keys of a dictionary are distinct, so the order is strict. *)
Lemma sorted_items_strict {V} (m : gmap Z V) :
  StronglySorted Z.lt (sorted_items m).*1.
Proof.
  pose proof (sorted_items_NoDup m) as Hnd.
  assert (StronglySorted key_le (sorted_items m)) as Hs
    by (apply StronglySorted_merge_sort; apply _).
  induction Hs as [|a l Hl IH Hall]; simpl in *; [constructor|].
  apply NoDup_cons in Hnd as [Hnotin Hnd].
  constructor; [by apply IH|].
  apply Forall_fmap, Forall_forall. intros b Hb. simpl.
  rewrite Forall_forall in Hall. specialize (Hall b Hb). unfold key_le in Hall.
  assert (a.1 ≠ b.1); [|lia].
  intros Heq. apply Hnotin. rewrite Heq. by apply list_elem_of_fmap_2.
Qed.

Lemma sum_foldl_foldr (l : list Z) (a : Z) :
  foldl Z.add a l = a + foldr Z.add 0 l.
Proof. revert a. induction l as [|x l IH]; intros a; simpl; [lia|]. rewrite IH. lia. Qed.

Lemma size_on_disk_empty : size_on_disk ∅ = 0.
Proof. unfold size_on_disk. by rewrite map_to_list_empty. Qed.

Lemma foldr_add_perm (l l' : list Z) :
  l ≡ₚ l' → foldr Z.add 0 l = foldr Z.add 0 l'.
Proof. induction 1; simpl; lia. Qed.

Lemma size_on_disk_insert (ds : gmap Z DepotDetails) k d :
  ds !! k = None → size_on_disk (<[k:=d]> ds) = size d + size_on_disk ds.
Proof.
  intros Hk. unfold size_on_disk. rewrite !sum_foldl_foldr.
  rewrite (foldr_add_perm _ (size <$> ((k,d) :: map_to_list ds).*2)).
  - rewrite !fmap_cons. simpl. lia.
  - by rewrite map_to_list_insert.
Qed.

(** In a list sorted strictly by key, the element with the smaller key
    comes first. *)
Lemma sorted_split_pair {V} (l : list (Z * V)) i a j b :
  StronglySorted Z.lt l.*1 → (i, a) ∈ l → (j, b) ∈ l → i < j →
  ∃ l1 l2 l3, l = l1 ++ (i, a) :: l2 ++ (j, b) :: l3.
Proof.
  intros Hs Hi Hj Hlt.
  apply list_elem_of_split in Hi as (l1 & r & ->).
  rewrite fmap_app, fmap_cons in Hs. simpl in Hs.
  apply elem_of_app in Hj as [Hj|Hj].
  - exfalso. apply (list_elem_of_fmap_2 fst) in Hj. simpl in Hj.
    assert (j < i); [|lia].
    eapply (StronglySorted_app_1_elem_of Z.lt); [exact Hs|exact Hj|left].
  - apply elem_of_cons in Hj as [Hj|Hj]; [simplify_eq; lia|].
    apply list_elem_of_split in Hj as (l2 & l3 & ->). by exists l1, l2, l3.
Qed.

Lemma content_parts_depot_order (g : Generator) i di j dj :
  depots g !! i = Some di → depots g !! j = Some dj → i < j →
  ∃ pre mid post,
    content_parts g = pre ++ depot_block (i, di) ++ mid ++ depot_block (j, dj) ++ post.
Proof.
  intros Hi Hj Hlt.
  destruct (sorted_split_pair (sorted_items (depots g)) i di j dj)
    as (l1 & l2 & l3 & Heq); [apply sorted_items_strict|..|done|].
  - rewrite sorted_items_perm. by apply elem_of_map_to_list.
  - rewrite sorted_items_perm. by apply elem_of_map_to_list.
  - unfold content_parts. rewrite Heq.
    rewrite bind_app, bind_cons, bind_app, bind_cons.
    exists (parts_head g ++ (l1 ≫= depot_block)), (l2 ≫= depot_block),
      ((l3 ≫= depot_block) ++ parts_between
       ++ (shared_line <$> sorted_items (shared_depots g)) ++ parts_tail).
    by rewrite <-!app_assoc.
Qed.

Lemma content_parts_shared_order (g : Generator) i pi j pj :
  shared_depots g !! i = Some pi → shared_depots g !! j = Some pj → i < j →
  ∃ pre mid post,
    content_parts g = pre ++ shared_line (i, pi) :: mid ++ shared_line (j, pj) :: post.
Proof.
  intros Hi Hj Hlt.
  destruct (sorted_split_pair (sorted_items (shared_depots g)) i pi j pj)
    as (l1 & l2 & l3 & Heq); [apply sorted_items_strict|..|done|].
  - rewrite sorted_items_perm. by apply elem_of_map_to_list.
  - rewrite sorted_items_perm. by apply elem_of_map_to_list.
  - unfold content_parts. rewrite Heq.
    rewrite fmap_app, fmap_cons, fmap_app, fmap_cons.
    exists (parts_head g ++ (sorted_items (depots g) ≫= depot_block)
            ++ parts_between ++ (shared_line <$> l1)),
      (shared_line <$> l2), ((shared_line <$> l3) ++ parts_tail).
    by rewrite <-!app_assoc, <-!app_comm_cons, <-?app_assoc.
Qed.

Lemma string_app_assoc (a b c : string) : (a +:+ b) +:+ c = a +:+ b +:+ c.
Proof.
  induction a as [|x a IH]; [done|].
  change (String x ((a +:+ b) +:+ c) = String x (a +:+ b +:+ c)).
  by rewrite IH.
Qed.

Lemma join_then (l : list string) (rest : string) :
  join l +:+ rest = foldr String.append rest l.
Proof.
  unfold join. induction l as [|x l IH]; [done|].
  simpl. by rewrite string_app_assoc, IH.
Qed.

Lemma join_app (l1 l2 : list string) : join (l1 ++ l2) = join l1 +:+ join l2.
Proof. unfold join at 1. by rewrite foldr_app, join_then. Qed.

Lemma join_bind {A} (f : A → list string) (l : list A) :
  join (l ≫= f) = join ((λ e, join (f e)) <$> l).
Proof.
  induction l as [|e l IH]; [done|].
  rewrite bind_cons, join_app, IH. done.
Qed.

(** C10. The text that the descriptor builder returns is a function of the
    generator's fields alone, spelled out here line by line. Its [SizeOnDisk]
    line carries the sum of all depot sizes (0 for no depot, and [size d] more
    for each further depot [d]). Between the braces of [InstalledDepots] it
    has one entry for every depot, with the depot's id, manifest, size and
    dlcappid, in strictly ascending order of depot id, and between the braces
    of [SharedDepots] one line for every shared depot, with its id and its
    parent, in strictly ascending order of depot id: the text of a smaller id
    precedes that of a larger one. For the depots 10 (manifest 111, size 100)
    and 20 (manifest 222, size 50, dlcappid 30) entry 10 comes out before
    entry 20 and the size on disk is 150; the shared depots 228990 and 5 come
    out as 5 then 228990. *)
Theorem generate_acf_content_sorted_and_sized (g : Generator) :
  let kv (k v : string) :=
    TAB +:+ quoted k +:+ TAB +:+ TAB +:+ quoted v +:+ NL in
  let depot_text (e : Z * DepotDetails) :=
    (TAB +:+ TAB +:+ quoted (str_int e.1) +:+ NL)
    +:+ TAB +:+ TAB +:+ "{" +:+ NL
    +:+ (TAB +:+ TAB +:+ TAB +:+ quoted "manifest" +:+ TAB +:+ TAB
         +:+ quoted (manifest e.2) +:+ NL)
    +:+ (TAB +:+ TAB +:+ TAB +:+ quoted "size" +:+ TAB +:+ TAB
         +:+ quoted (str_int (size e.2)) +:+ NL)
    +:+ match dlc_appid e.2 with
        | Some a =>
            TAB +:+ TAB +:+ TAB +:+ quoted "dlcappid" +:+ TAB +:+ TAB
            +:+ quoted (str_int a) +:+ NL
        | None => EmptyString
        end
    +:+ TAB +:+ TAB +:+ "}" +:+ NL in
  let shared_text (e : Z * Z) :=
    TAB +:+ TAB +:+ quoted (str_int e.1) +:+ TAB +:+ TAB
    +:+ quoted (str_int e.2) +:+ NL in
  let ds := sorted_items (depots g) in
  let ss := sorted_items (shared_depots g) in
  (size_on_disk ∅ = 0
   ∧ ∀ m k d, m !! k = None →
       size_on_disk (<[k:=d]> m) = size d + size_on_disk m)
  ∧ (ds ≡ₚ map_to_list (depots g) ∧ StronglySorted Z.lt ds.*1)
  ∧ (ss ≡ₚ map_to_list (shared_depots g) ∧ StronglySorted Z.lt ss.*1)
  ∧ generate_acf_content g
    = quoted "AppState" +:+ NL +:+ "{" +:+ NL
      +:+ kv "appid" (str_int (app_id g))
      +:+ kv "Universe" "1"
      +:+ kv "LauncherPath" EmptyString
      +:+ kv "name" (name g)
      +:+ kv "StateFlags" "4"
      +:+ kv "installdir" (installdir g)
      +:+ kv "LastUpdated" "0"
      +:+ kv "SizeOnDisk" (str_int (size_on_disk (depots g)))
      +:+ kv "StagingSize" "0"
      +:+ kv "buildid" (buildid g)
      +:+ kv "LastOwner" "None"
      +:+ kv "UpdateResult" "0"
      +:+ kv "BytesToDownload" "0"
      +:+ kv "BytesDownloaded" "0"
      +:+ kv "BytesToStage" "0"
      +:+ kv "BytesStaged" "0"
      +:+ kv "TargetBuildID" "0"
      +:+ kv "AutoUpdateBehavior" "0"
      +:+ kv "AllowOtherDownloadsWhileRunning" "0"
      +:+ kv "ScheduledAutoUpdate" "0"
      +:+ TAB +:+ quoted "InstalledDepots" +:+ NL
      +:+ TAB +:+ "{" +:+ NL
      +:+ join (depot_text <$> ds)
      +:+ TAB +:+ "}" +:+ NL
      +:+ TAB +:+ quoted "SharedDepots" +:+ NL
      +:+ TAB +:+ "{" +:+ NL
      +:+ join (shared_text <$> ss)
      +:+ TAB +:+ "}" +:+ NL
      +:+ "}" +:+ NL
  ∧ (∀ i di j dj,
       depots g !! i = Some di → depots g !! j = Some dj → i < j →
       ∃ pre mid post,
         generate_acf_content g
         = pre +:+ depot_text (i, di) +:+ mid +:+ depot_text (j, dj) +:+ post)
  ∧ (∀ i pi j pj,
       shared_depots g !! i = Some pi → shared_depots g !! j = Some pj → i < j →
       ∃ pre mid post,
         generate_acf_content g
         = pre +:+ shared_text (i, pi) +:+ mid +:+ shared_text (j, pj) +:+ post)
  ∧ (sorted_items (depots example_generator)
     = [(10, {| manifest := "111"; size := 100; dlc_appid := None |});
        (20, {| manifest := "222"; size := 50; dlc_appid := Some 30 |})]
     ∧ size_on_disk (depots example_generator) = 150
     ∧ sorted_items (shared_depots example_shared) = [(5, 480); (228990, 228980)]
     ∧ generate_acf_content example_shared
       = quoted "AppState" +:+ NL +:+ "{" +:+ NL
           +:+ kv "appid" "480"
           +:+ kv "Universe" "1"
           +:+ kv "LauncherPath" EmptyString
           +:+ kv "name" "Game"
           +:+ kv "StateFlags" "4"
           +:+ kv "installdir" "Game"
           +:+ kv "LastUpdated" "0"
           +:+ kv "SizeOnDisk" "150"
           +:+ kv "StagingSize" "0"
           +:+ kv "buildid" "7"
           +:+ kv "LastOwner" "None"
           +:+ kv "UpdateResult" "0"
           +:+ kv "BytesToDownload" "0"
           +:+ kv "BytesDownloaded" "0"
           +:+ kv "BytesToStage" "0"
           +:+ kv "BytesStaged" "0"
           +:+ kv "TargetBuildID" "0"
           +:+ kv "AutoUpdateBehavior" "0"
           +:+ kv "AllowOtherDownloadsWhileRunning" "0"
           +:+ kv "ScheduledAutoUpdate" "0"
           +:+ TAB +:+ quoted "InstalledDepots" +:+ NL
           +:+ TAB +:+ "{" +:+ NL
           +:+ TAB +:+ TAB +:+ quoted "10" +:+ NL
           +:+ TAB +:+ TAB +:+ "{" +:+ NL
           +:+ TAB +:+ TAB +:+ TAB +:+ quoted "manifest" +:+ TAB +:+ TAB
               +:+ quoted "111" +:+ NL
           +:+ TAB +:+ TAB +:+ TAB +:+ quoted "size" +:+ TAB +:+ TAB
               +:+ quoted "100" +:+ NL
           +:+ TAB +:+ TAB +:+ "}" +:+ NL
           +:+ TAB +:+ TAB +:+ quoted "20" +:+ NL
           +:+ TAB +:+ TAB +:+ "{" +:+ NL
           +:+ TAB +:+ TAB +:+ TAB +:+ quoted "manifest" +:+ TAB +:+ TAB
               +:+ quoted "222" +:+ NL
           +:+ TAB +:+ TAB +:+ TAB +:+ quoted "size" +:+ TAB +:+ TAB
               +:+ quoted "50" +:+ NL
           +:+ TAB +:+ TAB +:+ TAB +:+ quoted "dlcappid" +:+ TAB +:+ TAB
               +:+ quoted "30" +:+ NL
           +:+ TAB +:+ TAB +:+ "}" +:+ NL
           +:+ TAB +:+ "}" +:+ NL
           +:+ TAB +:+ quoted "SharedDepots" +:+ NL
           +:+ TAB +:+ "{" +:+ NL
           +:+ TAB +:+ TAB +:+ quoted "5" +:+ TAB +:+ TAB +:+ quoted "480" +:+ NL
           +:+ TAB +:+ TAB +:+ quoted "228990" +:+ TAB +:+ TAB
               +:+ quoted "228980" +:+ NL
           +:+ TAB +:+ "}" +:+ NL
           +:+ "}" +:+ NL).
Proof.
  intros kv depot_text shared_text ds ss.
  assert (∀ e, join (depot_block e) = depot_text e) as Hblock.
  { intros [i [m sz [a|]]]; reflexivity. }
  split; [split; [apply size_on_disk_empty | apply size_on_disk_insert]|].
  split; [split; [apply sorted_items_perm | apply sorted_items_strict]|].
  split; [split; [apply sorted_items_perm | apply sorted_items_strict]|].
  split; [|split; [|split]].
  - unfold generate_acf_content, content_parts.
    rewrite !join_app, join_bind.
    rewrite (Forall_fmap_ext_1 (λ e, join (depot_block e)) depot_text)
      by (apply Forall_forall; intros e _; apply Hblock).
    fold ds ss. rewrite !join_then. reflexivity.
  - intros i di j dj Hi Hj Hlt.
    destruct (content_parts_depot_order g i di j dj Hi Hj Hlt)
      as (pre & mid & post & Heq).
    exists (join pre), (join mid), (join post).
    unfold generate_acf_content. by rewrite Heq, !join_app, !Hblock.
  - intros i pi j pj Hi Hj Hlt.
    destruct (content_parts_shared_order g i pi j pj Hi Hj Hlt)
      as (pre & mid & post & Heq).
    exists (join pre), (join mid), (join post).
    unfold generate_acf_content. rewrite Heq, join_app.
    change (pre ++ ?x :: ?l) with (pre ++ [x] ++ l).
    cbn [join foldr]. rewrite join_app. cbn [join foldr]. reflexivity.
  - split; [vm_compute; reflexivity|]. split; [vm_compute; reflexivity|].
    split; [vm_compute; reflexivity|].
    vm_compute. reflexivity.
Qed.

End AcfFacts.

(** ** The manifest aggregator *)

Section AggregatorFacts.
Import Fs Aggregator.

Lemma odict_get_set {V} k k' (v : V) d :
  odict_get k (odict_set k' v d) = if decide (k = k') then Some v else odict_get k d.
Proof.
  induction d as [|[k0 v0] d IH]; simpl.
  - by repeat case_decide.
  - destruct (decide (k' = k0)) as [->|]; simpl; [by repeat case_decide|].
    rewrite IH. repeat case_decide; congruence.
Qed.

Lemma foldl_snoc {A B} (f : A → B → A) a l x :
  foldl f a (l ++ [x]) = f (foldl f a l) x.
Proof. by rewrite foldl_app. Qed.

(** The nested loops are one loop over the writes in order. *)
Lemma aggregate_occurrences remote app queue :
  aggregate remote app queue
  = foldl (λ acc o, add_file o.2 acc o.1) ([], []) (occurrences remote app queue).
Proof.
  unfold aggregate, occurrences. generalize (@nil (string * (FileInfo * Z)),
                                            @nil OverwriteEvent).
  induction queue as [|depot queue IH]; intros acc; [done|].
  simpl. rewrite foldl_app, IH. f_equal. unfold add_depot.
  generalize (files (remote app depot)). clear. intros l. revert acc.
  induction l as [|fi l IH]; intros acc; simpl; [done|]. by rewrite IH.
Qed.

Lemma handovers_snoc path hs o :
  handovers path (hs ++ [o])
  = handovers path hs
    ++ match last hs with
       | Some p => [{| ev_path := path; superseded := depot_id p.2;
                       winning := depot_id o.2 |}]
       | None => []
       end.
Proof.
  induction hs as [|o1 [|o2 hs] IH]; [done..|].
  change (handovers path ((o1 :: o2 :: hs) ++ [o]))
    with ({| ev_path := path; superseded := depot_id o1.2;
             winning := depot_id o2.2 |} :: handovers path ((o2 :: hs) ++ [o])).
  rewrite IH. done.
Qed.

(** The state of the loop after any sequence of writes: each path maps to
    its latest write, and its events are the handovers between its writes. *)
Lemma add_file_invariant (os : list (FileInfo * DepotRecord)) path :
  let r := foldl (λ acc o, add_file o.2 acc o.1) ([], []) os in
  odict_get path r.1 = (λ o, (o.1, depot_id o.2)) <$> last (holders path os)
  ∧ events_for path r.2 = handovers path (holders path os).
Proof.
  revert path. induction os as [|o os IH] using rev_ind; intros path; [done|].
  rewrite foldl_snoc. unfold holders. rewrite filter_app. fold (holders path os).
  destruct (foldl _ _ os) as [map log] eqn:Hfold. simpl in IH.
  unfold add_file. simpl.
  rewrite odict_get_set.
  destruct (decide (path = filename o.1)) as [->|Hne].
  - rewrite filter_cons_True, filter_nil by done.
    rewrite last_snoc, handovers_snoc. split; [done|].
    destruct (IH (filename o.1)) as [Hget Hev]. rewrite Hget.
    destruct (last (holders (filename o.1) os)) as [p|]; simpl.
    + unfold events_for. rewrite filter_app, filter_cons_True, filter_nil by done.
      by rewrite <-Hev.
    + by rewrite app_nil_r.
  - rewrite filter_cons_False, filter_nil, app_nil_r by done.
    destruct (IH path) as [Hget Hev]. split; [done|].
    destruct (odict_get (filename o.1) map) as [[? old]|]; [|done].
    unfold events_for. rewrite filter_app, filter_cons_False, filter_nil by done.
    by rewrite app_nil_r.
Qed.

(** C1 (as amended). Aggregation is last-writer-wins in queue order: a path
    maps to the entry, and the depot id, of the last depot of the queue that
    brings it, and the events logged for the path are exactly the handovers
    from each depot that brings it to the next one that does. So when the
    path comes from exactly two depots, an earlier A and a later B, it maps to
    B's entry with B's id and the log holds exactly one event for it,
    (path, A, B). *)
Theorem aggregate_last_writer_wins remote app queue path :
  let r := aggregate remote app queue in
  let hs := holders path (occurrences remote app queue) in
  odict_get path r.1 = (λ o, (o.1, depot_id o.2)) <$> last hs
  ∧ events_for path r.2 = handovers path hs
  ∧ (∀ ea A eb B, hs = [(ea, A); (eb, B)] →
       odict_get path r.1 = Some (eb, depot_id B)
       ∧ events_for path r.2
         = [{| ev_path := path; superseded := depot_id A;
               winning := depot_id B |}]
       ∧ length (filter (λ ev, ev = {| ev_path := path;
                                      superseded := depot_id A;
                                      winning := depot_id B |}) r.2) = 1%nat).
Proof.
  intros r hs. subst r hs. rewrite aggregate_occurrences.
  destruct (add_file_invariant (occurrences remote app queue) path) as [Hget Hev].
  split; [done|]. split; [done|].
  intros ea A eb B Hhs. rewrite Hhs in Hget, Hev. simpl in Hget, Hev.
  split; [done|]. split; [done|].
  set (ev := {| ev_path := path; superseded := depot_id A; winning := depot_id B |}).
  fold ev in Hev.
  assert (filter (λ e, e = ev) (foldl (λ acc o, add_file o.2 acc o.1) ([], [])
                                  (occurrences remote app queue)).2
          = filter (λ e, e = ev) [ev]) as ->.
  { rewrite <-Hev. unfold events_for. rewrite list_filter_filter.
    apply list_filter_iff. intros e. split; [|by intros [? ?]].
    intros ->. done. }
  by rewrite filter_cons_True.
Qed.

End AggregatorFacts.

(** ** The chunk verifier *)

Section VerifierFacts.
Import Fs Verifier.
#[local] Open Scope nat_scope.
Context (sha1 : bytes → bytes).

Lemma seek_offset fi o : o ≤ size fi → offset (seek fi o) = o.
Proof. intros. simpl. lia. Qed.

Lemma sum_sizes_app cs1 cs2 : sum_sizes (cs1 ++ cs2) = sum_sizes cs1 + sum_sizes cs2.
Proof. apply sum_list_with_app. Qed.

Lemma chunks_match_length cs data :
  chunks_match sha1 cs data → length data = sum_sizes cs.
Proof.
  revert data. induction cs as [|c cs IH]; intros data; simpl.
  - by intros ->.
  - intros (Hle & _ & Hrest). apply IH in Hrest.
    rewrite length_drop in Hrest. unfold sum_sizes in *. simpl. lia.
Qed.

(** A failing read is the only way the loop can raise. *)
Lemma scan_chunks_raises env p content pos cs acc e :
  scan_chunks sha1 env p content pos cs acc = Raise e → e = IOError.
Proof.
  revert pos acc. induction cs as [|c cs IH]; intros pos acc; simpl; [done|].
  destruct (read_fails env p pos); [by intros [= <-]|].
  destruct (take _ _); [done|]. case_decide; [apply IH|done].
Qed.

(** The loop walks over a prefix of chunks that the file's bytes match. *)
Lemma scan_chunks_prefix env p content pos pre cs acc good rest :
  (∀ q, read_fails env p q = false) →
  Forall (λ c, 0 < cb_original c) pre →
  drop pos content = good ++ rest →
  chunks_match sha1 pre good →
  scan_chunks sha1 env p content pos (pre ++ cs) acc
  = scan_chunks sha1 env p content (pos + sum_sizes pre) cs (acc + sum_sizes pre).
Proof.
  intros Hread. revert pos acc good.
  induction pre as [|c pre IH]; intros pos acc good Hpos Hdrop Hm; simpl.
  - unfold sum_sizes. simpl. by rewrite !Nat.add_0_r.
  - apply Forall_cons in Hpos as [Hc Hpos].
    destruct Hm as (Hle & Hsha & Hm).
    rewrite Hread, Hdrop, take_app_le by done.
    destruct (take (cb_original c) good) as [|b data] eqn:Htake.
    { apply (f_equal length) in Htake. rewrite length_take in Htake.
      simpl in Htake. lia. }
    rewrite decide_True by done.
    assert (length (b :: data) = cb_original c) as ->.
    { rewrite <-Htake, length_take. lia. }
    rewrite (IH _ _ (drop (cb_original c) good)); [|done| |done].
    + unfold sum_sizes. simpl. f_equal; lia.
    + by rewrite <-drop_drop, Hdrop, drop_app_le.
Qed.

(** The loop on a file that holds exactly the chunks: it reaches the end
    unless a read raises. *)
Lemma scan_chunks_valid env p content pos cs acc :
  Forall (λ c, 0 < cb_original c) cs →
  chunks_match sha1 cs (drop pos content) →
  scan_chunks sha1 env p content pos cs acc = Return (acc + sum_sizes cs)
  ∨ scan_chunks sha1 env p content pos cs acc = Raise IOError.
Proof.
  revert pos acc. induction cs as [|c cs IH]; intros pos acc Hpos Hm; simpl.
  - left. unfold sum_sizes. simpl. by rewrite Nat.add_0_r.
  - apply Forall_cons in Hpos as [Hc Hpos].
    destruct Hm as (Hle & Hsha & Hm).
    destruct (read_fails env p pos); [by right|].
    destruct (take (cb_original c) (drop pos content)) as [|b data] eqn:Htake.
    { apply (f_equal length) in Htake. rewrite length_take in Htake.
      simpl in Htake. lia. }
    rewrite decide_True by done.
    assert (length (b :: data) = cb_original c) as ->.
    { rewrite <-Htake, length_take. lia. }
    rewrite drop_drop in Hm.
    destruct (IH (pos + cb_original c) (acc + cb_original c) Hpos Hm) as [->| ->];
      [|by right].
    left. unfold sum_sizes. simpl. f_equal; lia.
Qed.

Lemma scan_chunks_valid_no_fault env p content cs :
  (∀ q, read_fails env p q = false) →
  Forall (λ c, 0 < cb_original c) cs →
  chunks_match sha1 cs content →
  scan_chunks sha1 env p content 0 cs 0 = Return (sum_sizes cs).
Proof.
  intros Hread Hpos Hm.
  pose proof (scan_chunks_prefix env p content 0 cs [] 0 content [] Hread Hpos)
    as Hscan.
  rewrite !app_nil_r in Hscan. rewrite Hscan; done.
Qed.

Lemma truncate_prefix (good rest : bytes) :
  truncate (length good) (good ++ rest) = good.
Proof.
  unfold truncate. rewrite take_app_length, length_app.
  replace (length good - (length good + length rest)) with 0 by lia.
  apply app_nil_r.
Qed.

Lemma verify_body_raises env fi p content st r st' e :
  verify_body sha1 env fi p content st = (r, st') → r = Raise e →
  e = IOError ∧ st' = st.
Proof.
  unfold verify_body. intros Hbody ->.
  destruct (open_rb_fails env p); [by simplify_eq|].
  destruct (scan_chunks _ _ _ _ _ _ _) as [v|e'] eqn:Hscan.
  - repeat case_match; simplify_eq; done.
  - apply scan_chunks_raises in Hscan. by simplify_eq.
Qed.

(** C2. A file whose first N chunks match their digests and whose next
    chunk's bytes do not is cut to the total size of those N chunks, and that
    size is the resume offset: the call answers [False] with the cursor of the
    entry at that offset. The entry satisfies the data-model invariant and no
    operation raises. *)
Theorem verify_truncates_at_first_bad_chunk
    env fi p (st : fs) pre c post (good rest : bytes) :
  well_formed fi →
  verify_fault_free env p →
  chunks fi = pre ++ c :: post →
  st !! p = Some (good ++ rest) →
  chunks_match sha1 pre good →
  sha1 (take (cb_original c) rest) ≠ sha c →
  _verify_and_repair_file sha1 env fi p st
    = (Return (false, seek fi (sum_sizes pre)), <[p := good]> st)
  ∧ length good = sum_sizes pre
  ∧ resume_offset (false, seek fi (sum_sizes pre)) = sum_sizes pre.
Proof.
  intros [Hpos Hsize] (Hopen & Hread & Hrw & Htrunc) Hchunks Hfile Hgood Hbad.
  pose proof (chunks_match_length pre good Hgood) as Hlen.
  rewrite Hchunks in Hpos, Hsize.
  apply Forall_app in Hpos as [Hpre Hpost].
  apply Forall_cons in Hpost as [Hc _].
  rewrite sum_sizes_app in Hsize. unfold sum_sizes at 2 in Hsize. simpl in Hsize.
  assert (scan_chunks sha1 env p (good ++ rest) 0 (chunks fi) 0
          = Return (sum_sizes pre)) as Hscan.
  { rewrite Hchunks.
    rewrite (scan_chunks_prefix env p (good ++ rest) 0 pre (c :: post) 0 good rest)
      by done.
    simpl. rewrite Hread, <-Hlen, drop_app_length.
    destruct (take (cb_original c) rest) eqn:Htake; [done|].
    by rewrite decide_False. }
  split; [|split; [done|]].
  - unfold _verify_and_repair_file, verify_body.
    rewrite Hfile, Hopen, Hscan, Hrw, Htrunc.
    rewrite decide_False by lia.
    by rewrite <-Hlen, truncate_prefix.
  - unfold resume_offset. simpl. lia.
Qed.

(** One call on a file that holds exactly its chunks. *)
Lemma verify_valid_call env fi0 fi p (st : fs) (content : bytes) :
  Forall (λ c, 0 < cb_original c) (chunks fi) → sum_sizes (chunks fi) = size fi →
  st !! p = Some content →
  chunks_match sha1 (chunks fi) content →
  chunks fi0 = chunks fi → size fi0 = size fi →
  (∃ ok fi1, _verify_and_repair_file sha1 env fi0 p st = (Return (ok, fi1), st)
             ∧ chunks fi1 = chunks fi ∧ size fi1 = size fi)
  ∧ (open_rb_fails env p = false → (∀ q, read_fails env p q = false) →
     _verify_and_repair_file sha1 env fi0 p st = (Return (true, fi0), st)).
Proof.
  intros Hpos Hsize Hfile Hm Hcs Hsz. unfold _verify_and_repair_file, verify_body.
  rewrite Hfile, Hcs, Hsz.
  split.
  - destruct (open_rb_fails env p); [by eexists _, _|].
    destruct (scan_chunks_valid env p content 0 (chunks fi) 0 Hpos Hm)
      as [-> | ->]; [|by eexists _, _].
    rewrite decide_True by (simpl; lia). by eexists _, _.
  - intros -> Hread.
    rewrite (scan_chunks_valid_no_fault env p content (chunks fi)) by done.
    by rewrite decide_True by lia.
Qed.

(** C8. On a file whose bytes are exactly the chunks of its entry,
    verification never changes the file system, whatever the environment
    does; when opening and reading do not raise, it answers [True], which
    stands for the resume offset [total_size], and leaves the entry as it was.
    The same holds for any number of calls in a row. *)
Theorem verify_valid_file_idempotent
    (envs : nat → io_env) fi p (st : fs) (content : bytes) calls k :
  well_formed fi →
  st !! p = Some content →
  chunks_match sha1 (chunks fi) content →
  (verify_repeat sha1 calls envs k fi p st).2 = st
  ∧ ((∀ j, open_rb_fails (envs j) p = false
           ∧ ∀ q, read_fails (envs j) p q = false) →
     verify_repeat sha1 calls envs k fi p st
       = (replicate calls (Return true), fi, st)
     ∧ resume_offset (true, fi) = size fi).
Proof.
  intros [Hpos Hsize] Hfile Hm.
  pose proof (λ env fi0, verify_valid_call env fi0 fi p st content
                 Hpos Hsize Hfile Hm) as Hone.
  split.
  - assert (∀ fi0, chunks fi0 = chunks fi → size fi0 = size fi →
            (verify_repeat sha1 calls envs k fi0 p st).2 = st) as Hgen;
      [|by apply Hgen].
    revert k. induction calls as [|calls IH]; intros k fi0 Hcs Hsz; simpl; [done|].
    destruct (Hone (envs k) fi0 Hcs Hsz) as [(ok & fi1 & -> & Hcs1 & Hsz1) _].
    specialize (IH (S k) fi1 Hcs1 Hsz1).
    by destruct (verify_repeat sha1 calls envs (S k) fi1 p st) as [[rs fi2] st2].
  - intros Hok. split; [|done].
    revert k. induction calls as [|calls IH]; intros k; simpl; [done|].
    destruct (Hok k) as [Hopen Hread].
    destruct (Hone (envs k) fi eq_refl eq_refl) as [_ Hcall].
    by rewrite Hcall, IH.
Qed.

End VerifierFacts.

(** ** The download worker *)

Section SchedulerFacts.
Import Fs Verifier Scheduler.
#[local] Open Scope nat_scope.
Context (sha1 : bytes → bytes).

(** The loop stops at the end of some prefix of the chunks. *)
Lemma scan_chunks_prefix_sum env p content pos cs acc v :
  scan_chunks sha1 env p content pos cs acc = Return v →
  ∃ k, v = acc + sum_sizes (take k cs).
Proof.
  revert pos acc. induction cs as [|c cs IH]; intros pos acc; simpl.
  - intros [= <-]. exists 0. unfold sum_sizes. simpl. lia.
  - destruct (read_fails env p pos); [done|].
    destruct (take _ _) eqn:Htake.
    { intros [= <-]. exists 0. unfold sum_sizes. simpl. lia. }
    case_decide.
    + intros Hscan. apply IH in Hscan as [k ->]. exists (S k).
      unfold sum_sizes. simpl. lia.
    + intros [= <-]. exists 0. unfold sum_sizes. simpl. lia.
Qed.

Lemma sum_sizes_take_le k cs : sum_sizes (take k cs) ≤ sum_sizes cs.
Proof.
  rewrite <-(take_drop k cs) at 2. rewrite sum_sizes_app. lia.
Qed.

Lemma length_truncate v (content : bytes) : length (truncate v content) = v.
Proof. unfold truncate. rewrite length_app, length_take, length_replicate. lia. Qed.

(** The write loop only ever appends pieces that the iterator yielded. *)
Lemma write_chunks_appends env p i pieces (content : bytes) pbar fetched :
  ∃ k, (write_chunks env p i pieces content pbar fetched).1.1.2
       = content ++ mjoin (take k pieces).
Proof.
  revert i content pbar fetched.
  induction pieces as [|d pieces IH]; intros i content pbar fetched; simpl.
  - exists 0. by rewrite app_nil_r.
  - destruct (write_fails env p i); simpl.
    + exists 0. by rewrite app_nil_r.
    + destruct (IH (S i) (content ++ d) (pbar_update pbar (length d))
                  (fetched + length d)) as [k ->].
      exists (S k). simpl. by rewrite app_assoc.
Qed.

Lemma write_chunks_complete env p i pieces (content : bytes) pbar fetched :
  (∀ j, write_fails env p j = false) →
  write_chunks env p i pieces content pbar fetched
  = (None, content ++ mjoin pieces,
     pbar_update pbar (length (mjoin pieces)),
     fetched + length (mjoin pieces)).
Proof.
  intros Hw. revert i content pbar fetched.
  induction pieces as [|d pieces IH]; intros i content pbar fetched; simpl.
  - rewrite app_nil_r, Nat.add_0_r. unfold pbar_update. destruct pbar; simpl.
    by rewrite Nat.add_0_r.
  - rewrite Hw, IH, length_app, <-app_assoc.
    f_equal; [f_equal|lia]. unfold pbar_update; simpl. f_equal; lia.
Qed.

(** What the worker leaves at its path: nothing new, or the bytes that were
    there followed by pieces from the iterator. Other paths are untouched. *)
Lemma download_single_file_appends env fi base (st : fs) pbar :
  let p := joinpath base (filename fi) in
  let st' := (_download_single_file env fi base st pbar).1.2 in
  (st' = st
   ∨ ∃ k, st' = <[p := default [] (st !! p)
                         ++ mjoin (take k (yields (cdn_iter env fi)))]> st).
Proof.
  intros p st'. subst st'. unfold _download_single_file. fold p.
  destruct (mkdir_fails env p); [by left|].
  destruct (open_ab_fails env p); [by left|].
  destruct (write_chunks_appends env p 0 (yields (cdn_iter env fi))
              (default [] (st !! p)) pbar 0) as [k Hk].
  destruct (write_chunks _ _ _ _ _ _ _) as [[[err content'] pbar'] fetched].
  simpl in Hk. subst content'. right. exists k.
  destruct err; [done|]. by destruct (raises _).
Qed.

(** C9. When verification flags an entry, the cursor of the entry is the
    resume offset: 0 when the file is absent or an IO error made it
    unverifiable (the file system is then as it was), and otherwise the length
    of the file as truncation left it. The worker then either changes nothing
    or leaves, at the entry's path, the bytes that were there followed by
    pieces that iterating the entry from that cursor yielded: the bytes below
    the resume offset stay as they were, and no other path changes. *)
Theorem verify_cursor_then_append
    env env' fi base (st : fs) fi' (st' : fs) pbar :
  well_formed fi →
  _verify_and_repair_file sha1 env fi (joinpath base (filename fi)) st
    = (Return (false, fi'), st') →
  let p := joinpath base (filename fi) in
  let st'' := (_download_single_file env' fi' base st' pbar).1.2 in
  filename fi' = filename fi
  ∧ ((offset fi' = 0 ∧ st' = st
      ∧ (st !! p = None
         ∨ ∃ content, st !! p = Some content
             ∧ (verify_body sha1 env fi p content st).1 = Raise IOError))
     ∨ (∃ content, st !! p = Some content
          ∧ st' = <[p := truncate (offset fi') content]> st
          ∧ length (truncate (offset fi') content) = offset fi'))
  ∧ (∃ appended k,
       appended = mjoin (take k (yields (cdn_iter env' fi')))
       ∧ (st'' = st' ∨ st'' = <[p := default [] (st' !! p) ++ appended]> st')
       ∧ ∀ old new, st' !! p = Some old → st'' !! p = Some new →
           take (offset fi') new = take (offset fi') old)
  ∧ (∀ q, q ≠ p → st'' !! q = st' !! q).
Proof.
  intros [_ Hsize] Hverify p st''.
  assert (filename fi' = filename fi
    ∧ ((offset fi' = 0 ∧ st' = st
        ∧ (st !! p = None
           ∨ ∃ content, st !! p = Some content
               ∧ (verify_body sha1 env fi p content st).1 = Raise IOError))
       ∨ (∃ content, st !! p = Some content
            ∧ st' = <[p := truncate (offset fi') content]> st
            ∧ length (truncate (offset fi') content) = offset fi')))
    as [Hname Hcursor].
  { unfold _verify_and_repair_file in Hverify. fold p in Hverify.
    destruct (st !! p) as [content|] eqn:Hfile.
    - destruct (verify_body sha1 env fi p content st) as [r st0] eqn:Hbody.
      destruct r as [[ok fi0]|e].
      + simplify_eq. unfold verify_body in Hbody.
        destruct (open_rb_fails env p); [done|].
        destruct (scan_chunks _ _ _ _ _ _ _) as [v|] eqn:Hscan; [|done].
        case_decide; [done|].
        destruct (open_rwb_fails env p); [done|].
        destruct (truncate_fails env p); [done|].
        simplify_eq. split; [done|]. right. exists content.
        apply scan_chunks_prefix_sum in Hscan as [k ->].
        pose proof (sum_sizes_take_le k (chunks fi)).
        simpl. replace (size fi `min` sum_sizes (take k (chunks fi)))
          with (sum_sizes (take k (chunks fi))) by lia.
        by rewrite length_truncate.
      + destruct (verify_body_raises sha1 _ _ _ _ _ _ _ e Hbody eq_refl) as [-> ->].
        simplify_eq. split; [done|]. left. simpl.
        split; [lia|]. split; [done|]. right. exists content.
        by rewrite Hbody.
    - simplify_eq. split; [done|]. left. simpl. split; [lia|]. by eauto. }
  split; [done|]. split; [done|].
  assert (joinpath base (filename fi') = p) as Hp by (by unfold p; rewrite Hname).
  pose proof (download_single_file_appends env' fi' base st' pbar) as Happ.
  simpl in Happ. rewrite Hp in Happ. fold st'' in Happ.
  split.
  - destruct Happ as [Hsame | [k Hk]].
    + exists [], 0. split; [done|]. split; [by left|].
      intros old new Hold Hnew. rewrite Hsame in Hnew. by simplify_eq.
    + eexists _, k. split; [done|]. split; [by right|].
      intros old new Hold Hnew. rewrite Hk, lookup_insert_eq, Hold in Hnew.
      simpl in Hnew. simplify_eq.
      destruct Hcursor as [(Hz & _) | (content & Hfile & Hst' & Hlen)].
      * by rewrite Hz.
      * rewrite Hst', lookup_insert_eq in Hold. simplify_eq.
        by rewrite take_app_le by lia.
  - intros q Hq. destruct Happ as [-> | [k ->]]; [done|].
    by rewrite lookup_insert_ne.
Qed.

End SchedulerFacts.

(** ** Lists *)

Lemma filter_none {A} (P : A → Prop) `{∀ x, Decision (P x)} (l : list A) :
  Forall (λ x, ¬ P x) l → filter P l = [].
Proof.
  induction 1 as [|x l Hx _ IH]; [done|]. by rewrite filter_cons_False.
Qed.

Lemma joinpath_inj base a b :
  Fs.joinpath base a = Fs.joinpath base b → a = b.
Proof.
  unfold Fs.joinpath. intros H. apply (inj (String.app base)) in H.
  by apply (inj (String.app "/")) in H.
Qed.

(** ** The thread pool *)

Section PoolFacts.
Import Fs Scheduler Pool.
#[local] Open Scope nat_scope.

(** The progress bar does not steer the write loop. *)
Lemma write_chunks_pbar env p i pieces (content : bytes) pbar pbar0 fetched :
  let r := write_chunks env p i pieces content pbar fetched in
  let r0 := write_chunks env p i pieces content pbar0 fetched in
  r.1.1.1 = r0.1.1.1 ∧ r.1.1.2 = r0.1.1.2 ∧ r.2 = r0.2
  ∧ messages r.1.2 = messages pbar.
Proof.
  revert i content pbar pbar0 fetched.
  induction pieces as [|d pieces IH]; intros i content pbar pbar0 fetched; simpl.
  - done.
  - destruct (write_fails env p i); [done|].
    destruct (IH (S i) (content ++ d) (pbar_update pbar (length d))
                (pbar_update pbar0 (length d)) (fetched + length d))
      as (? & ? & ? & ?). done.
Qed.

Lemma messages_of_write name pbar name' e :
  messages_of name (pbar_write pbar name' e)
  = messages_of name pbar ++ (if decide (name' = name) then [(name', e)] else []).
Proof.
  unfold messages_of, pbar_write. simpl. rewrite filter_app.
  case_decide.
  - by rewrite filter_cons_True.
  - by rewrite filter_cons_False.
Qed.

(** A step of a worker does not change what the worker makes of its file in
    the end, and it touches no line of the log about another file. *)
Lemma complete_step env base fi w (content : option bytes) pbar w' content' pbar' :
  worker_step env base fi w content pbar = (w', content', pbar') →
  (running w = true → is_Some content) →
  let r := complete env base fi w content in
  let r' := complete env base fi w' content' in
  r'.1.1 = r.1.1 ∧ r'.1.2 = r.1.2
  ∧ messages_of (filename fi) pbar' ++ r'.2 = messages_of (filename fi) pbar ++ r.2
  ∧ (∀ name, name ≠ filename fi → messages_of name pbar' = messages_of name pbar)
  ∧ (running w' = true → is_Some content').
Proof.
  intros Hstep Hopen. destruct w as [|i [|d rest] fetched|fi0]; simpl in *.
  - destruct (mkdir_fails env _) eqn:Hmk; simplify_eq/=.
    { rewrite messages_of_write, decide_True, app_nil_r by done.
      repeat split; [|done].
      intros name Hne. by rewrite messages_of_write, decide_False, app_nil_r. }
    destruct (open_ab_fails env _) eqn:Hop; simplify_eq/=.
    { rewrite messages_of_write, decide_True, app_nil_r by done.
      repeat split; [|done].
      intros name Hne. by rewrite messages_of_write, decide_False, app_nil_r. }
    repeat split; eauto.
  - destruct (Hopen eq_refl) as [c ->].
    destruct (raises (cdn_iter env fi)) eqn:Hr; simplify_eq/=.
    + rewrite messages_of_write, decide_True, app_nil_r by done.
      repeat split; [|done].
      intros name Hne. by rewrite messages_of_write, decide_False, app_nil_r.
    + rewrite !app_nil_r. repeat split; done.
  - destruct (Hopen eq_refl) as [c ->]. simpl in *.
    destruct (write_fails env _ i) eqn:Hw; simplify_eq/=.
    + rewrite messages_of_write, decide_True, app_nil_r by done.
      repeat split; [|done].
      intros name Hne. by rewrite messages_of_write, decide_False, app_nil_r.
    + pose proof (write_chunks_pbar env (joinpath base (filename fi)) (S i) rest
                    (c ++ d) (pbar_update {| n := 0; messages := [] |} (length d))
                    {| n := 0; messages := [] |} (fetched + length d)) as Hirr.
      simpl in Hirr.
      destruct (write_chunks _ _ _ _ _ (pbar_update _ _) _)
        as [[[err1 c1] pb1] f1].
      destruct (write_chunks _ _ _ _ _ {| n := 0; messages := [] |} _)
        as [[[err0 c0] pb0] f0].
      simpl in Hirr. destruct Hirr as (-> & -> & -> & _).
      repeat split; eauto.
  - simplify_eq. repeat split; done.
Qed.

(** A step of a worker brings it closer to its end. *)
Lemma worker_step_decreases env base fi w (content : option bytes) pbar
    w' content' pbar' :
  worker_step env base fi w content pbar = (w', content', pbar') →
  finished w = false →
  steps_left env (fi, w') < steps_left env (fi, w).
Proof.
  intros Hstep Hnf. unfold steps_left.
  destruct w as [|i [|d rest] fetched|fi0]; simpl in *; [| | |done].
  - repeat case_match; simplify_eq/=; lia.
  - repeat case_match; simplify_eq/=; lia.
  - repeat case_match; simplify_eq/=; lia.
Qed.

Lemma sum_list_with_insert {A} (f : A → nat) (l : list A) k x y :
  l !! k = Some x →
  sum_list_with f (<[k := y]> l) + f x = sum_list_with f l + f y.
Proof.
  revert k. induction l as [|a l IH]; intros k; [done|].
  destruct k as [|k]; simpl.
  - intros [= ->]. lia.
  - intros Hk. specialize (IH k Hk). lia.
Qed.

Lemma pool_step_decreases env base W ps ps' :
  pool_step env base W ps ps' →
  pool_steps_left env ps' < pool_steps_left env ps.
Proof.
  intros [ps0 k fi w w' c' pb' Hk Hnf _ Hstep]. unfold pool_steps_left. simpl.
  pose proof (sum_list_with_insert (steps_left env) (workers ps0) k _ (fi, w') Hk).
  pose proof (worker_step_decreases _ _ _ _ _ _ _ _ _ Hstep Hnf). lia.
Qed.

(** While a worker has not returned, the pool can take a step. *)
Lemma pool_progress env base W ps :
  0 < W → ¬ drained ps → ∃ ps', pool_step env base W ps ps'.
Proof.
  intros HW Hnd. unfold drained in Hnd.
  apply not_Forall_Exists in Hnd; [|apply _].
  destruct (decide (Exists (λ e : FileInfo * wstate, running e.2 = true)
                      (workers ps))) as [Hrun|Hnorun].
  - apply Exists_exists in Hrun as ([fi w] & Hin & Hw). simpl in Hw.
    apply list_elem_of_lookup in Hin as [k Hk].
    destruct (worker_step env base fi w
                (pool_fs ps !! joinpath base (filename fi)) (pool_pbar ps))
      as [[w' c'] pb'] eqn:Hstep.
    eexists. eapply (pool_step_worker _ _ _ ps k fi w); [done| | |done].
    + by destruct w.
    + intros ->. done.
  - apply Exists_exists in Hnd as ([fi w] & Hin & Hw). simpl in Hw.
    apply list_elem_of_lookup in Hin as [k Hk].
    destruct (worker_step env base fi w
                (pool_fs ps !! joinpath base (filename fi)) (pool_pbar ps))
      as [[w' c'] pb'] eqn:Hstep.
    eexists. eapply (pool_step_worker _ _ _ ps k fi w); [done| | |done].
    + by destruct (finished w).
    + intros _. rewrite (filter_none (λ e, running e.2)); [simpl; lia|].
      apply Forall_forall. intros e He Hr. apply Hnorun.
      apply Exists_exists. exists e. split; [done|]. by destruct (running e.2).
Qed.

Lemma set_content_lookup p (content' : option bytes) (st : fs) :
  (content' = None → st !! p = None) →
  set_content p content' st !! p = content'.
Proof.
  destruct content' as [c|]; simpl; [by rewrite lookup_insert_eq|]. auto.
Qed.

Lemma set_content_lookup_ne p q (content' : option bytes) (st : fs) :
  p ≠ q → set_content p content' st !! q = st !! q.
Proof. destruct content'; simpl; [by apply lookup_insert_ne|done]. Qed.

Lemma worker_step_content_None env base fi w (content : option bytes) pbar
    w' pbar' :
  worker_step env base fi w content pbar = (w', None, pbar') → content = None.
Proof.
  destruct w as [|i [|d rest] fetched|fi0]; simpl;
    repeat case_match; by intros [= ? ?].
Qed.

(** Every step of the pool keeps the invariant. *)
Lemma pool_inv_step env base W files (st0 : fs) pbar0 ps ps' :
  NoDup (filename <$> files) →
  pool_inv env base files st0 pbar0 ps →
  pool_step env base W ps ps' →
  pool_inv env base files st0 pbar0 ps'.
Proof.
  intros Hnd Hinv Hps.
  destruct Hps as [ps0 k fi w w' c' pb' Hk Hnf _ Hstep].
  destruct Hinv as (Hfiles & Hworkers & Hpaths & Hnames).
  set (p := joinpath base (filename fi)) in *.
  assert (files !! k = Some fi) as Hfk.
  { by rewrite <-Hfiles, list_lookup_fmap, Hk. }
  assert (fi ∈ files) as Hin by (by eapply list_elem_of_lookup_2).
  destruct (Hworkers k fi w Hk) as (Hfi & Hc & Hms & Hopen). fold p in Hfi, Hc, Hms, Hopen.
  destruct (complete_step env base fi w (pool_fs ps0 !! p) (pool_pbar ps0)
              w' c' pb' Hstep Hopen) as (Hfi' & Hc' & Hms' & Hother & Hopen').
  assert (set_content p c' (pool_fs ps0) !! p = c') as Hset.
  { apply set_content_lookup. intros ->.
    by apply worker_step_content_None in Hstep. }
  split; [|split; [|split]]; simpl.
  - rewrite list_fmap_insert. simpl. rewrite <-Hfiles.
    apply list_insert_id. by rewrite list_lookup_fmap, Hk.
  - intros j fj wj Hj.
    destruct (decide (j = k)) as [->|Hjk].
    + rewrite list_lookup_insert_eq in Hj by (by eapply lookup_lt_Some).
      simplify_eq. fold p. rewrite Hset.
      split; [by etrans|]. split; [by etrans|]. split; [by etrans|done].
    + rewrite list_lookup_insert_ne in Hj by done.
      assert (filename fj ≠ filename fi) as Hne.
      { intros Heq. apply Hjk.
        eapply (NoDup_lookup (filename <$> files)); [done|..].
        - rewrite list_lookup_fmap, <-Hfiles, list_lookup_fmap, Hj. simpl.
          reflexivity.
        - rewrite list_lookup_fmap, Hfk. simpl. by rewrite Heq. }
      rewrite set_content_lookup_ne
        by (intros Heq; by apply joinpath_inj in Heq).
      rewrite (Hother (filename fj)) by done.
      by apply (Hworkers j).
  - intros q Hq. rewrite set_content_lookup_ne by (by apply Hq).
    by apply Hpaths.
  - intros name Hname. rewrite Hother; [by apply Hnames|].
    intros ->. apply Hname. by apply list_elem_of_fmap_2.
Qed.

Lemma pool_inv_init env base files (st : fs) pbar :
  pool_inv env base files st pbar (submit_all files st pbar).
Proof.
  split; [|split; [|split]]; simpl; [|  |done|done].
  - rewrite <-list_fmap_compose. by rewrite list_fmap_id.
  - intros k fi w Hk. rewrite list_lookup_fmap in Hk.
    destruct (files !! k); simplify_eq/=. done.
Qed.

Lemma pool_inv_reachable env base W files (st : fs) pbar ps :
  NoDup (filename <$> files) →
  rtc (pool_step env base W) (submit_all files st pbar) ps →
  pool_inv env base files st pbar ps.
Proof.
  intros Hnd Hsteps.
  apply (rtc_ind_r (R := pool_step env base W)
           (pool_inv env base files st pbar) (submit_all files st pbar));
    [apply pool_inv_init| |exact Hsteps].
  intros ps1 ps2 _ Hstep IH. by eapply pool_inv_step.
Qed.

(** The worker, run on its own, in terms of [complete]. *)
Lemma download_single_file_complete env fi base (st : fs) pbar :
  let p := joinpath base (filename fi) in
  let r := _download_single_file env fi base st pbar in
  let r0 := complete env base fi Queued (st !! p) in
  r.1.1 = r0.1.1
  ∧ r.1.2 = set_content p r0.1.2 st
  ∧ messages r.2 = messages pbar ++ r0.2.
Proof.
  unfold _download_single_file, complete. simpl.
  destruct (mkdir_fails env _); simpl.
  { split; [done|]. split; [|done]. destruct (st !! _) eqn:Hst; simpl; [|done].
    by rewrite insert_id. }
  destruct (open_ab_fails env _); simpl.
  { split; [done|]. split; [|done]. destruct (st !! _) eqn:Hst; simpl; [|done].
    by rewrite insert_id. }
  pose proof (write_chunks_pbar env (joinpath base (filename fi)) 0
                (yields (cdn_iter env fi)) (default [] (st !! joinpath base (filename fi)))
                pbar {| n := 0; messages := [] |} 0) as Hirr.
  simpl in Hirr.
  destruct (write_chunks _ _ _ _ _ pbar _) as [[[err1 c1] pb1] f1].
  destruct (write_chunks _ _ _ _ _ {| n := 0; messages := [] |} _)
    as [[[err0 c0] pb0] f0].
  simpl in Hirr. destruct Hirr as (-> & -> & -> & Hmsg).
  destruct err0 as [e|]; simpl; [by rewrite Hmsg|].
  destruct (raises _); simpl; [by rewrite Hmsg|]. by rewrite Hmsg, app_nil_r.
Qed.

Lemma complete_queued_None env base fi (content : option bytes) :
  (complete env base fi Queued content).1.2 = None → content = None.
Proof.
  unfold complete. repeat case_match; simpl; congruence.
Qed.

Lemma complete_queued_messages env base fi (content : option bytes) :
  length (complete env base fi Queued content).2 ≤ 1.
Proof.
  unfold complete. repeat case_match; simpl; lia.
Qed.

#[local] Instance drained_dec ps : Decision (drained ps).
Proof. unfold drained. apply _. Qed.

(** Whatever the interleaving so far, the pool can run until every worker
    has returned. *)
Lemma pool_drains env base W ps :
  0 < W → ∃ ps_end, rtc (pool_step env base W) ps ps_end ∧ drained ps_end.
Proof.
  intros HW. remember (pool_steps_left env ps) as m eqn:Hm.
  revert ps Hm. induction (lt_wf m) as [m _ IH]. intros ps ->.
  destruct (decide (drained ps)) as [Hd|Hnd]; [by exists ps|].
  destruct (pool_progress env base W ps HW Hnd) as [ps' Hstep].
  destruct (IH (pool_steps_left env ps')
              (pool_step_decreases env base W ps ps' Hstep) ps' eq_refl)
    as (ps_end & Hsteps & Hend).
  exists ps_end. split; [by eapply rtc_l|done].
Qed.

(** The state of a pool in which all workers have returned. *)
Lemma pool_drained_result env base W files (st : fs) pbar ps :
  NoDup (filename <$> files) →
  rtc (pool_step env base W) (submit_all files st pbar) ps →
  drained ps →
  (∀ k fi, files !! k = Some fi →
     let alone :=
       _download_single_file env fi base st {| n := 0; messages := [] |} in
     let p := joinpath base (filename fi) in
     workers ps !! k = Some (fi, Finished alone.1.1)
     ∧ pool_fs ps !! p = alone.1.2 !! p
     ∧ messages_of (filename fi) (pool_pbar ps)
       = messages_of (filename fi) pbar ++ messages alone.2
     ∧ length (messages alone.2) ≤ 1)
  ∧ (∀ q, (∀ fi, fi ∈ files → joinpath base (filename fi) ≠ q) →
       pool_fs ps !! q = st !! q)
  ∧ (∀ name, name ∉ filename <$> files →
       messages_of name (pool_pbar ps) = messages_of name pbar).
Proof.
  intros Hnd Hreach Hdrained.
  destruct (pool_inv_reachable env base W files st pbar ps Hnd Hreach)
    as (Hfiles & Hworkers & Hpaths & Hnames).
  split; [|done].
  intros k fi Hk alone p.
  assert (∃ w, workers ps !! k = Some (fi, w)) as [w Hw].
  { rewrite <-Hfiles, list_lookup_fmap in Hk.
    destruct (workers ps !! k) as [[fi0 w]|]; simplify_eq/=. by exists w. }
  unfold drained in Hdrained. rewrite Forall_forall in Hdrained.
  pose proof (Hdrained (fi, w) (list_elem_of_lookup_2 _ _ _ Hw)) as Hfin.
  destruct w as [| |fi']; simpl in Hfin; try done.
  destruct (Hworkers k fi _ Hw) as (Hfi & Hc & Hms & _).
  fold p in Hfi, Hc, Hms. simpl in Hfi, Hc, Hms. rewrite app_nil_r in Hms.
  destruct (download_single_file_complete env fi base st {| n := 0; messages := [] |})
    as (Ha1 & Ha2 & Ha3).
  fold p alone in Ha1, Ha2, Ha3. simpl in Ha3.
  split; [by rewrite Hw, Ha1, Hfi|]. split; [|split].
  - rewrite Ha2, set_content_lookup; [done|]. apply complete_queued_None.
  - by rewrite Ha3.
  - rewrite Ha3. apply complete_queued_messages.
Qed.

(** C7. The download phase as a pool of workers whose steps interleave in
    any order, at most [max_workers] of them running at a time, over files
    with distinct names. A worker never stops the pool: each of its steps,
    failing or not, is a step of the pool, and a failure ends that worker with
    a line in the log about its own file. Whatever the interleaving, once all
    workers have returned each file, its entry and the log lines about it are
    what the worker for that file produces when it runs alone on the initial
    state, so no task is affected by another task or its failure, and nothing
    else is touched. The pool drains: every step brings it closer to the state
    in which all workers have returned, which is the state the scheduler waits
    for, and it can always reach that state. *)
Theorem pool_isolates_failures_and_drains env base W files (st : fs) pbar ps :
  NoDup (filename <$> files) →
  0 < W →
  rtc (pool_step env base W) (submit_all files st pbar) ps →
  (∃ ps_end, rtc (pool_step env base W) ps ps_end ∧ drained ps_end)
  ∧ (∀ ps', pool_step env base W ps ps' →
       pool_steps_left env ps' < pool_steps_left env ps)
  ∧ (drained ps →
       (∀ k fi, files !! k = Some fi →
          let alone :=
            _download_single_file env fi base st {| n := 0; messages := [] |} in
          let p := joinpath base (filename fi) in
          workers ps !! k = Some (fi, Finished alone.1.1)
          ∧ pool_fs ps !! p = alone.1.2 !! p
          ∧ messages_of (filename fi) (pool_pbar ps)
            = messages_of (filename fi) pbar ++ messages alone.2
          ∧ length (messages alone.2) ≤ 1)
       ∧ (∀ q, (∀ fi, fi ∈ files → joinpath base (filename fi) ≠ q) →
            pool_fs ps !! q = st !! q)
       ∧ (∀ name, name ∉ filename <$> files →
            messages_of name (pool_pbar ps) = messages_of name pbar)).
Proof.
  intros Hnd HW Hreach.
  split; [by apply pool_drains|]. split; [by apply pool_step_decreases|].
  by apply (pool_drained_result env base W).
Qed.

End PoolFacts.

(** ** The reconciliation loop *)

Section ReconcileFacts.
Import Fs Verifier Scheduler Reconcile.
#[local] Open Scope nat_scope.
Context (sha1 : bytes → bytes).

Lemma same_entry_seek fi o : same_entry fi (seek fi o).
Proof. done. Qed.





Lemma Forall2_with_left {A B} (R : A → B → Prop) (P : A → Prop) l k :
  Forall2 R l k → Forall P l → Forall2 (λ x y, R x y ∧ P x) l k.
Proof.
  induction 1 as [|x y l k HR _ IH]; intros HP; [constructor|].
  apply Forall_cons in HP as [? ?]. constructor; auto.
Qed.

Lemma Forall2_right {A B} (R : A → B → Prop) (Q : B → Prop) l k :
  Forall2 R l k → (∀ x y, R x y → Q y) → Forall Q k.
Proof. induction 1; intros HQ; constructor; eauto. Qed.



Lemma same_entry_trans fi1 fi2 fi3 :
  same_entry fi1 fi2 → same_entry fi2 fi3 → same_entry fi1 fi3.
Proof. intros (?&?&?&?) (?&?&?&?). repeat split; congruence. Qed.






End ReconcileFacts.

(** ** The pool and the sequential download phase *)

Section PoolRefinement.
Import Fs Scheduler Pool Reconcile.
#[local] Open Scope nat_scope.

(** The download phase taken one task after the other, path by path. *)
Lemma download_flagged_paths env base l (st : fs) pbar :
  NoDup (filename <$> l.*1) →
  let r := download_flagged env base l st pbar in
  (∀ fi, (fi, true) ∈ l →
     r.1.2 !! joinpath base (filename fi)
     = (_download_single_file env fi base st {| n := 0; messages := [] |}).1.2
         !! joinpath base (filename fi))
  ∧ (∀ q, (∀ fi, (fi, true) ∈ l → joinpath base (filename fi) ≠ q) →
       r.1.2 !! q = st !! q).
Proof.
  revert st pbar. induction l as [|[fi b] l IH]; intros st pbar Hnd; simpl.
  { split; [by intros ? ?%elem_of_nil|done]. }
  simpl in Hnd. apply NoDup_cons in Hnd as [Hnotin Hnd].
  assert (∀ fj c, (fj, c) ∈ l →
            joinpath base (filename fj) ≠ joinpath base (filename fi)) as Hfresh.
  { intros fj c Hin Heq. apply joinpath_inj in Heq. apply Hnotin. rewrite <-Heq.
    apply list_elem_of_fmap_2. by apply (list_elem_of_fmap_2 fst) in Hin. }
  destruct b.
  - destruct (download_single_file_complete env fi base st pbar)
      as (_ & Hst1 & _).
    destruct (download_single_file_complete env fi base st
                {| n := 0; messages := [] |}) as (_ & Hst0 & _).
    destruct (_download_single_file env fi base st pbar) as [[fi1 st1] pbar1].
    simpl in Hst1.
    destruct (IH st1 pbar1 Hnd) as [Hflag Hother].
    destruct (download_flagged env base l st1 pbar1) as [[rest' st''] pbar''].
    simpl in *. split.
    + intros fj [Heq|Hin]%elem_of_cons.
      * assert (fj = fi) as -> by congruence.
        rewrite Hother by (intros fk Hk; by eapply Hfresh).
        by rewrite Hst1, Hst0.
      * rewrite (Hflag fj Hin).
        destruct (download_single_file_complete env fj base st1
                    {| n := 0; messages := [] |}) as (_ & -> & _).
        destruct (download_single_file_complete env fj base st
                    {| n := 0; messages := [] |}) as (_ & -> & _).
        assert (st1 !! joinpath base (filename fj) = st !! joinpath base (filename fj))
          as Hsame.
        { rewrite Hst1. apply set_content_lookup_ne.
          intros Heq. symmetry in Heq. by eapply Hfresh. }
        rewrite Hsame.
        destruct ((complete env base fj Queued (st !! joinpath base (filename fj))).1.2)
          as [c|]; simpl; [by rewrite !lookup_insert_eq|done].
    + intros q Hq. rewrite Hother by (intros fk Hk; apply Hq; by right).
      rewrite Hst1. apply set_content_lookup_ne. apply Hq. by left.
  - destruct (IH st pbar Hnd) as [Hflag Hother].
    destruct (download_flagged env base l st pbar) as [[rest' st''] pbar''].
    simpl in *. split.
    + intros fj [Heq|Hin]%elem_of_cons; [done|]. by apply Hflag.
    + intros q Hq. apply Hother. intros fk Hk. apply Hq. by right.
Qed.

(** Whatever the interleaving, the pool leaves the file system that the
    sequential download phase of the reconciliation loop computes. *)
Lemma pool_refines_download_flagged env base W l (st : fs) pbar ps :
  NoDup (filename <$> l.*1) →
  rtc (pool_step env base W) (submit_all (files_to_download l) st pbar) ps →
  drained ps →
  pool_fs ps = (download_flagged env base l st pbar).1.2.
Proof.
  intros Hnd Hreach Hdrained.
  assert (∀ fi, fi ∈ files_to_download l ↔ (fi, true) ∈ l) as Hmem.
  { intros fi. unfold files_to_download. rewrite list_elem_of_fmap. split.
    - intros ([fj b] & -> & [Hb Hin]%list_elem_of_filter). simpl in *. by subst b.
    - intros Hin. exists (fi, true). split; [done|]. by apply list_elem_of_filter. }
  assert (NoDup (filename <$> files_to_download l)) as Hnd'.
  { eapply sublist_NoDup; [exact Hnd|]. unfold files_to_download.
    apply fmap_sublist, fmap_sublist, sublist_filter. }
  destruct (pool_drained_result env base W _ st pbar ps Hnd' Hreach Hdrained)
    as (Hfiles & Hother & _).
  destruct (download_flagged_paths env base l st pbar Hnd) as [Hflag Hrest].
  apply map_eq. intros q.
  destruct (decide (Exists (λ fi, joinpath base (filename fi) = q)
                      (files_to_download l))) as [Hex|Hnex].
  - apply Exists_exists in Hex as (fi & Hin & <-).
    pose proof Hin as [k Hk]%list_elem_of_lookup.
    destruct (Hfiles k fi Hk) as (_ & -> & _).
    symmetry. apply Hflag. by apply Hmem.
  - assert (∀ fi, fi ∈ files_to_download l → joinpath base (filename fi) ≠ q)
      as Hq.
    { intros fi Hin Heq. apply Hnex, Exists_exists. by exists fi. }
    rewrite Hother by done. symmetry. apply Hrest.
    intros fi Hin. by apply Hq, Hmem.
Qed.

End PoolRefinement.

(** ** The queue codec *)

Section SfdFacts.
Import Text Fs Sfd.
#[local] Open Scope nat_scope.
Context {payload Manifest : Type} `{!Builtins payload Manifest}.

Lemma parse_record_Some a line1 line2 line3 line4 depot m :
  parse_record a line1 line2 line3 line4 = Some (depot, m) →
  py_int (strip line1) = Some (depot_id depot)
  ∧ py_int (strip line2) = Some (manifest_id depot)
  ∧ fromhex (strip line3) = Some (depot_key depot)
  ∧ literal_eval (strip line4) = Some (manifest_content depot)
  ∧ DepotManifestClass a (manifest_content depot) = Some m.
Proof.
  unfold parse_record. intros Hp.
  destruct (py_int (strip line1)) as [i|]; [|done].
  destruct (py_int (strip line2)) as [j|]; [|done].
  destruct (fromhex (strip line3)) as [k|]; [|done].
  destruct (literal_eval (strip line4)) as [c|]; [|done]. simpl in Hp.
  destruct (DepotManifestClass a c) as [m'|] eqn:Hm; [|done].
  simpl in Hp. by simplify_eq.
Qed.

Lemma add_all_snoc a ds depot (st : App payload Manifest) :
  add_all a (ds ++ [depot]) st
  = match DepotManifestClass a (manifest_content depot) with
    | Some m => add_depot a depot m (add_all a ds st)
    | None => add_all a ds st
    end.
Proof. unfold add_all. by rewrite foldl_app. Qed.

(** The loop takes in the records that parse, in order. *)
Lemma load_records_parsed a recs ds rest (st : App payload Manifest) :
  Forall2 (record_parses a) recs ds →
  load_records a ((recs ≫= record_text) ++ rest) st
  = load_records a rest (add_all a ds st).
Proof.
  intros Hrecs. revert st.
  induction Hrecs as [|[[[l1 l2] l3] l4] d recs ds Hr _ IH]; intros st; [done|].
  destruct Hr as (H1 & H2 & H3 & H4 & Hs & m & Hp).
  rewrite bind_cons. simpl.
  rewrite decide_False by (intros [?|?]; done).
  rewrite decide_False by (intros [?|[?|?]]; done).
  rewrite Hp, IH. f_equal.
  apply parse_record_Some in Hp as (_ & _ & _ & _ & Hm).
  unfold add_all at 2. simpl. by rewrite Hm.
Qed.

Lemma add_all_depots a ds (st : App payload Manifest) :
  Forall (λ d, is_Some (DepotManifestClass a (manifest_content d))) ds →
  depots_to_download (add_all a ds st) = depots_to_download st ++ ds
  ∧ app_id (add_all a ds st) = app_id st.
Proof.
  induction ds as [|d ds IH] using rev_ind; intros Hall.
  - by rewrite app_nil_r.
  - apply Forall_app in Hall as [Hds Hd]. apply Forall_singleton in Hd as [m Hm].
    rewrite add_all_snoc, Hm. simpl. destruct (IH Hds) as [-> ->].
    by rewrite app_assoc.
Qed.

Lemma record_parses_manifest a recs ds :
  Forall2 (record_parses a) recs ds →
  Forall (λ d, is_Some (DepotManifestClass a (manifest_content d))) ds.
Proof.
  induction 1 as [|[[[l1 l2] l3] l4] d recs ds Hr _ IH]; constructor; [|done].
  destruct Hr as (_ & _ & _ & _ & _ & m & Hp).
  apply parse_record_Some in Hp as (_ & _ & _ & _ & Hm). by exists m.
Qed.

(** Loading a well-formed descriptor. *)
Lemma load_well_formed lines a ds (st : App payload Manifest) :
  well_formed_sfd lines a ds →
  _load_sfd_from_path (Some lines) st = add_all a ds (opened a).
Proof.
  intros (first & recs & last & -> & Hfirst & Hrecs & Hlast).
  unfold _load_sfd_from_path, load_body. simpl. rewrite Hfirst.
  rewrite (load_records_parsed a recs ds [last]) by done.
  simpl. by rewrite decide_True by (by right).
Qed.

Lemma append_NL_nonempty s : s +:+ NL ≠ EmptyString.
Proof. by destruct s. Qed.

Lemma write_as_records a (ds : list (DepotInfo payload)) :
  _write_sfd_file a ds
  = (str_int a +:+ NL) :: ((written_record <$> ds) ≫= record_text)
    ++ [SENTINEL +:+ NL].
Proof.
  unfold _write_sfd_file. change ([?x] ++ ?l) with (x :: l). do 2 f_equal.
  induction ds as [|d ds IH]; [done|].
  by rewrite fmap_cons, !bind_cons, IH.
Qed.

(** What [_write_sfd_file] writes parses back, record by record, when its
    fields read back. *)
Lemma written_records_parse a ds :
  Forall (rereads a) ds →
  Forall (λ d, is_Some (DepotManifestClass a (manifest_content d))) ds →
  Forall2 (record_parses a) (written_record <$> ds) ds.
Proof.
  intros Hre Hm.
  apply Forall2_fmap_l, Forall_Forall2_diag.
  apply Forall_forall. intros d Hd.
  rewrite Forall_forall in Hre, Hm.
  destruct (Hre d Hd) as (Hns & Hid & Hmid & Hkey & Hc).
  destruct (Hm d Hd) as [m Hmk].
  unfold record_parses, written_record.
  do 4 (split; [apply append_NL_nonempty|]). split; [done|].
  exists m. unfold parse_record. rewrite Hid, Hmid, Hkey, Hc. simpl.
  rewrite Hmk. simpl. by destruct d.
Qed.

Lemma length_records (recs : list (string * string * string * string)) :
  length (recs ≫= record_text) = 4 * length recs.
Proof.
  induction recs as [|[[[l1 l2] l3] l4] recs IH]; [done|].
  rewrite bind_cons, length_app, IH. simpl. lia.
Qed.

Lemma lookup_records (recs : list (string * string * string * string)) rest k r :
  recs !! k = Some r →
  ((recs ≫= record_text) ++ rest) !! (4 * k) = Some r.1.1.1.
Proof.
  revert k. induction recs as [|[[[l1 l2] l3] l4] recs IH]; intros k; [done|].
  destruct k as [|k]; intros Hk.
  - by simplify_eq/=.
  - rewrite bind_cons, <-app_assoc, lookup_app_r by (simpl; lia).
    replace (4 * S k - length (record_text (l1, l2, l3, l4))) with (4 * k)
      by (simpl; lia).
    by apply IH.
Qed.

Lemma sentinel_index_records a recs ds last i :
  Forall2 (record_parses a) recs ds → strip last = SENTINEL →
  sentinel_index i ((recs ≫= record_text) ++ [last]) = Some (i + 4 * length ds).
Proof.
  intros Hrecs Hlast. revert i.
  induction Hrecs as [|[[[l1 l2] l3] l4] d recs ds Hr _ IH]; intros i.
  - simpl. rewrite decide_True by done. f_equal. lia.
  - destruct Hr as (_ & _ & _ & _ & Hs & _). rewrite bind_cons. simpl.
    rewrite decide_False by done. rewrite IH. f_equal. lia.
Qed.

(** C5. A well-formed descriptor loads into the queue with its depots in
    their order of appearance; writing that queue out again gives a
    descriptor of the same length, with the same depot id on the first line
    of each record and the sentinel on the same, final, line, and loading
    that one gives the same queue again. The fields written are assumed to
    read back: Python's [int], [bytes.fromhex] and [ast.literal_eval] invert
    [str], [bytes.hex] and [repr] on the values of this queue. *)
Theorem sfd_roundtrip lines a ds (st st2 : App payload Manifest) :
  well_formed_sfd lines a ds →
  py_int (strip (str_int a +:+ NL)) = Some a →
  strip (SENTINEL +:+ NL) = SENTINEL →
  Forall (rereads a) ds →
  let loaded := _load_sfd_from_path (Some lines) st in
  let lines' := _write_sfd_file a (depots_to_download loaded) in
  app_id loaded = Some a
  ∧ depots_to_download loaded = ds
  ∧ (∀ k d, ds !! k = Some d →
       (∃ line, lines !! (1 + 4 * k) = Some line
                ∧ py_int (strip line) = Some (depot_id d))
       ∧ lines' !! (1 + 4 * k) = Some (str_int (depot_id d) +:+ NL))
  ∧ length lines' = length lines
  ∧ sentinel_index 1 (tl lines) = Some (1 + 4 * length ds)
  ∧ sentinel_index 1 (tl lines') = Some (1 + 4 * length ds)
  ∧ lines' !! (1 + 4 * length ds) = Some (SENTINEL +:+ NL)
  ∧ well_formed_sfd lines' a ds
  ∧ _load_sfd_from_path (Some lines') st2 = loaded.
Proof.
  intros Hwf Ha Hs Hre loaded lines'.
  assert (loaded = add_all a ds (opened a)) as Hloaded
    by (by apply load_well_formed).
  destruct Hwf as (first & recs & last & -> & Hfirst & Hrecs & Hlast).
  pose proof (record_parses_manifest a recs ds Hrecs) as Hm.
  destruct (add_all_depots a ds (opened a) Hm) as [Hds Happ].
  simpl in Hds, Happ.
  assert (lines' = (str_int a +:+ NL) :: ((written_record <$> ds) ≫= record_text)
                   ++ [SENTINEL +:+ NL]) as Hlines'.
  { subst lines'. by rewrite Hloaded, Hds, write_as_records. }
  pose proof (written_records_parse a ds Hre Hm) as Hrecs'.
  split; [by rewrite Hloaded|]. split; [by rewrite Hloaded|].
  split; [|split; [|split; [|split; [|split; [|split]]]]].
  - intros k d Hk.
    destruct (Forall2_lookup_r _ _ _ _ _ Hrecs Hk) as ([[[l1 l2] l3] l4] & Hr & Hp).
    destruct Hp as (_ & _ & _ & _ & _ & m & Hp).
    apply parse_record_Some in Hp as (Hid & _).
    split.
    + exists l1. split; [|done].
      apply (lookup_records recs [last] k _ Hr).
    + rewrite Hlines'.
      apply (lookup_records (written_record <$> ds) _ k (written_record d)).
      by rewrite list_lookup_fmap, Hk.
  - rewrite Hlines'. rewrite !length_cons, !length_app, !length_records, length_fmap.
    apply Forall2_length in Hrecs. by rewrite Hrecs.
  - by apply (sentinel_index_records a).
  - rewrite Hlines'. by apply (sentinel_index_records a).
  - rewrite Hlines'.
    change ((((written_record <$> ds) ≫= record_text) ++ [SENTINEL +:+ NL])
              !! (4 * length ds) = Some (SENTINEL +:+ NL)).
    rewrite lookup_app_r by (rewrite length_records, length_fmap; lia).
    rewrite length_records, length_fmap.
    by replace (4 * length ds - 4 * length ds) with 0 by lia.
  - rewrite Hlines'. by eexists _, _, _.
  - rewrite Hloaded. apply load_well_formed. rewrite Hlines'. by eexists _, _, _.
Qed.

(** C6 (as amended). When loading raises, the queue is left cleared: no
    app id, no depot, empty key and manifest caches. That is the case when the
    file cannot be opened, when its first line is not an app id, and when a
    field of a complete record does not parse, whatever was taken in before
    it. A descriptor that ends inside a record is not an error: the load
    stops there and keeps the app id and the depots read so far. *)
Theorem load_error_clears_queue (file : option (list string))
    (st : App payload Manifest) :
  (_reset_queue st
   = {| app_id := None; depots_to_download := []; overwrite_log := [];
        cdn_manifests := ∅; cdn_depot_keys := ∅ |})
  ∧ (∀ e, load_body file (_reset_queue st) = Raise e →
       _load_sfd_from_path file st = _reset_queue st)
  ∧ (file = None → _load_sfd_from_path file st = _reset_queue st)
  ∧ (∀ ls, file = Some ls → py_int (strip (hd EmptyString ls)) = None →
       _load_sfd_from_path file st = _reset_queue st)
  ∧ (∀ first a recs ds line1 line2 line3 line4 rest,
       file = Some (first :: (recs ≫= record_text)
                            ++ line1 :: line2 :: line3 :: line4 :: rest) →
       py_int (strip first) = Some a →
       Forall2 (record_parses a) recs ds →
       line1 ≠ EmptyString → line2 ≠ EmptyString →
       line3 ≠ EmptyString → line4 ≠ EmptyString →
       strip line1 ≠ SENTINEL →
       parse_record a line1 line2 line3 line4 = None →
       _load_sfd_from_path file st = _reset_queue st)
  ∧ (∀ first a recs ds line1 cut,
       file = Some (first :: (recs ≫= record_text) ++ line1 :: cut) →
       py_int (strip first) = Some a →
       Forall2 (record_parses a) recs ds →
       line1 ≠ EmptyString → strip line1 ≠ SENTINEL →
       length cut < 3 →
       _load_sfd_from_path file st = add_all a ds (opened a)
       ∧ depots_to_download (add_all a ds (opened a)) = ds
       ∧ app_id (add_all a ds (opened a)) = Some a).
Proof.
  split; [done|]. split; [|split; [|split; [|split]]].
  - intros e He. unfold _load_sfd_from_path. by rewrite He.
  - intros ->. done.
  - intros ls -> Hbad. unfold _load_sfd_from_path, load_body. by rewrite Hbad.
  - intros first a recs ds l1 l2 l3 l4 rest -> Hfirst Hrecs H1 H2 H3 H4 Hs Hp.
    unfold _load_sfd_from_path, load_body. simpl. rewrite Hfirst.
    rewrite (load_records_parsed a recs ds) by done. simpl.
    rewrite decide_False by (intros [?|?]; done).
    rewrite decide_False by (intros [?|[?|?]]; done).
    by rewrite Hp.
  - intros first a recs ds l1 cut -> Hfirst Hrecs H1 Hs Hcut.
    split; [|by apply add_all_depots, (record_parses_manifest a recs)].
    unfold _load_sfd_from_path, load_body. simpl. rewrite Hfirst.
    rewrite (load_records_parsed a recs ds) by done. simpl.
    rewrite decide_False by (intros [?|?]; done).
    destruct cut as [|? [|? [|? ?]]]; simpl in Hcut; try done; lia.
Qed.

End SfdFacts.

(** ** Worked examples *)

Section WorkedExamples.
Import Fs Verifier Scheduler Reconcile Examples.
#[local] Open Scope nat_scope.

#[local] Ltac example_wf :=
  split; [repeat constructor; simpl; lia | reflexivity].

Lemma verify_truncates_at_first_bad_chunk_witness :
  _verify_and_repair_file toy_sha1 quiet_env file_c "game/c.bin" disk_c_damaged
    = (Return (false, seek file_c 2), <["game/c.bin" := [x05; x06]]> disk_c_damaged)
  ∧ length [x05; x06] = 2
  ∧ resume_offset (false, seek file_c 2) = 2.
Proof.
  apply (verify_truncates_at_first_bad_chunk toy_sha1 quiet_env file_c
           "game/c.bin" disk_c_damaged [chunk_of [x05; x06]]
           (chunk_of [x07; x08]) [] [x05; x06] [xff; xff]).
  - example_wf.
  - repeat split.
  - reflexivity.
  - reflexivity.
  - simpl. repeat split. lia.
  - discriminate.
Defined.

Lemma verify_valid_file_idempotent_witness :
  (verify_repeat toy_sha1 3 (λ _, quiet_env) 0 file_a "game/a.bin" disk_ab).2
    = disk_ab
  ∧ ((∀ j : nat, open_rb_fails quiet_env "game/a.bin" = false
           ∧ ∀ q, read_fails quiet_env "game/a.bin" q = false) →
     verify_repeat toy_sha1 3 (λ _, quiet_env) 0 file_a "game/a.bin" disk_ab
       = (replicate 3 (Return true), file_a, disk_ab)
     ∧ resume_offset (true, file_a) = size file_a).
Proof.
  apply (verify_valid_file_idempotent toy_sha1 (λ _, quiet_env) file_a
           "game/a.bin" disk_ab [x01; x02; x03; x04] 3 0).
  - example_wf.
  - reflexivity.
  - simpl. repeat split; lia.
Defined.

Lemma verify_cursor_then_append_witness :
  let p := joinpath "game" (filename file_c) in
  let st' := <[p := [x05; x06]]> disk_c_damaged in
  let fi' := seek file_c 2 in
  let st'' := (_download_single_file quiet_env fi' "game" st' empty_pbar).1.2 in
  well_formed file_c
  ∧ _verify_and_repair_file toy_sha1 quiet_env file_c p disk_c_damaged
      = (Return (false, fi'), st')
  ∧ filename fi' = filename file_c
  ∧ (∀ q, q ≠ p → st'' !! q = st' !! q)
  ∧ st'' !! p = Some ([x05; x06] ++ [x07; x08]).
Proof.
  intros p st' fi' st''.
  assert (well_formed file_c) as Hwf by example_wf.
  assert (_verify_and_repair_file toy_sha1 quiet_env file_c p disk_c_damaged
          = (Return (false, fi'), st')) as Hverify by reflexivity.
  destruct (verify_cursor_then_append toy_sha1 quiet_env quiet_env file_c
              "game" disk_c_damaged fi' st' empty_pbar Hwf Hverify)
    as (Hname & _ & _ & Hother).
  split; [exact Hwf|]. split; [exact Hverify|]. split; [exact Hname|].
  split; [exact Hother|]. reflexivity.
Defined.


(** One interleaving of two workers, the second of which fails on its first
    write: both start, the first one writes and returns, the second one
    fails. *)
Lemma pool_isolates_failures_and_drains_witness :
  ∃ ps,
    rtc (Pool.pool_step c_unwritable_env "game" 10)
      (Pool.submit_all [file_b; file_c] ∅ empty_pbar) ps
    ∧ Pool.drained ps
    ∧ Pool.pool_fs ps !! "game/b.bin"%string = Some [x0a; x0b; x0c]
    ∧ Pool.pool_fs ps !! "game/c.bin"%string = Some []
    ∧ Pool.messages_of "b.bin" (Pool.pool_pbar ps) = []
    ∧ Pool.messages_of "c.bin" (Pool.pool_pbar ps) = [("c.bin"%string, IOError)].
Proof.
  assert (∃ ps,
    rtc (Pool.pool_step c_unwritable_env "game" 10)
      (Pool.submit_all [file_b; file_c] ∅ empty_pbar) ps
    ∧ Pool.drained ps) as (ps & Hreach & Hdrained).
  { eexists. split.
    - eapply rtc_l.
      { eapply (Pool.pool_step_worker _ _ _ _ 0 file_b Pool.Queued);
          [reflexivity|reflexivity|intros _; vm_compute; lia|reflexivity]. }
      eapply rtc_l.
      { eapply (Pool.pool_step_worker _ _ _ _ 1 file_c Pool.Queued);
          [reflexivity|reflexivity|intros _; vm_compute; lia|reflexivity]. }
      eapply rtc_l.
      { eapply (Pool.pool_step_worker _ _ _ _ 0 file_b (Pool.Writing _ _ _));
          [reflexivity|reflexivity|intros [=]|reflexivity]. }
      eapply rtc_l.
      { eapply (Pool.pool_step_worker _ _ _ _ 1 file_c (Pool.Writing _ _ _));
          [reflexivity|reflexivity|intros [=]|reflexivity]. }
      eapply rtc_l.
      { eapply (Pool.pool_step_worker _ _ _ _ 0 file_b (Pool.Writing _ _ _));
          [reflexivity|reflexivity|intros [=]|reflexivity]. }
      apply rtc_refl.
    - repeat constructor. }
  destruct (pool_isolates_failures_and_drains c_unwritable_env "game" 10
              [file_b; file_c] ∅ empty_pbar ps) as (_ & _ & Hres).
  - apply (bool_decide_unpack _). vm_compute. reflexivity.
  - lia.
  - exact Hreach.
  - destruct (Hres Hdrained) as (Hfiles & _ & _).
    destruct (Hfiles 0 file_b eq_refl) as (_ & Hb & Hmb & _).
    destruct (Hfiles 1 file_c eq_refl) as (_ & Hc & Hmc & _).
    exists ps. split; [exact Hreach|]. split; [exact Hdrained|].
    split; [exact Hb|]. split; [exact Hc|]. split; [exact Hmb|exact Hmc].
Defined.

(** C1, as the specification states it, speaks of any earlier depot A and
    later depot B that bring the same path. With three depots bringing it,
    the entry of the middle one is not the one kept, and no event links the
    first to the last. *)
Lemma aggregate_middle_depot_is_overridden :
  ¬ (∀ remote app (queue : list Aggregator.DepotRecord) i j A B ea eb path,
       i < j → queue !! i = Some A → queue !! j = Some B →
       ea ∈ Aggregator.files (remote app A) →
       eb ∈ Aggregator.files (remote app B) →
       filename ea = path → filename eb = path →
       Aggregator.odict_get path (Aggregator.aggregate remote app queue).1
         = Some (eb, Aggregator.depot_id B)
       ∧ length (filter (λ ev, ev = {| Aggregator.ev_path := path;
                                      Aggregator.superseded := Aggregator.depot_id A;
                                      Aggregator.winning := Aggregator.depot_id B |})
                   (Aggregator.aggregate remote app queue).2) = 1).
Proof.
  intros Hclaim.
  destruct (Hclaim pak_remote 480%Z [depot_n 1; depot_n 2; depot_n 3] 0 1
              (depot_n 1) (depot_n 2) (pak_of 1) (pak_of 2) "data.pak"%string)
    as [Hget _]; [lia|done|done|by left|by left|done|done|].
  vm_compute in Hget. discriminate.
Qed.

Lemma sfd_roundtrip_witness :
  let loaded := Sfd._load_sfd_from_path (Some sfd_one_depot) stale_app in
  let lines' := Sfd._write_sfd_file 480 (Sfd.depots_to_download loaded) in
  Sfd.app_id loaded = Some 480%Z
  ∧ Sfd.depots_to_download loaded = [depot_one]
  ∧ (∀ k d, [depot_one] !! k = Some d →
       (∃ line, sfd_one_depot !! (1 + 4 * k) = Some line
                ∧ Sfd.py_int (Sfd.strip line) = Some (Sfd.depot_id d))
       ∧ lines' !! (1 + 4 * k)
         = Some (Text.str_int (Sfd.depot_id d) +:+ Text.NL))
  ∧ length lines' = length sfd_one_depot
  ∧ Sfd.sentinel_index 1 (tl sfd_one_depot) = Some (1 + 4 * length [depot_one])
  ∧ Sfd.sentinel_index 1 (tl lines') = Some (1 + 4 * length [depot_one])
  ∧ lines' !! (1 + 4 * length [depot_one]) = Some (Sfd.SENTINEL +:+ Text.NL)
  ∧ Sfd.well_formed_sfd lines' 480 [depot_one]
  ∧ Sfd._load_sfd_from_path (Some lines') (Sfd._reset_queue stale_app) = loaded.
Proof.
  apply (sfd_roundtrip sfd_one_depot 480%Z [depot_one] stale_app
           (Sfd._reset_queue stale_app)).
  - exists (line "480"), [(line "1", line "2", line "ab", line "b'x'")],
      (line "EndOfFile").
    split; [reflexivity|]. split; [vm_compute; reflexivity|].
    split; [|vm_compute; reflexivity].
    constructor; [|constructor].
    repeat (split; [vm_compute; discriminate|]).
    exists [x78]. vm_compute. reflexivity.
  - vm_compute. reflexivity.
  - vm_compute. reflexivity.
  - constructor; [|constructor].
    split; [vm_compute; discriminate|]. repeat split; vm_compute; reflexivity.
Defined.

(** C6, as the specification states it, has every load that stops early
    leave the queue empty. A descriptor that ends inside its second record
    stops the load early, and the first depot stays in the queue with the app
    id and its cached key. *)
Lemma load_cut_short_keeps_partial_queue :
  let st := Sfd._load_sfd_from_path (Some sfd_cut_short) stale_app in
  Sfd.sentinel_index 1 (tl sfd_cut_short) = None
  ∧ Sfd.app_id st = Some 480%Z
  ∧ Sfd.depots_to_download st = [depot_one]
  ∧ Sfd.cdn_depot_keys st !! 1%Z = Some [xab]
  ∧ st ≠ Sfd._reset_queue stale_app.
Proof.
  repeat split; try (vm_compute; reflexivity).
  intros Heq. apply (f_equal Sfd.app_id) in Heq. vm_compute in Heq. discriminate.
Qed.

End WorkedExamples.


(* ================================================================== *)
(** * Further properties *)
(* ================================================================== *)

(** ** Verification: what it accepts and what it leaves *)

Section VerifierMore.
Import Fs Verifier Scheduler Repair.
#[local] Open Scope nat_scope.
Context (sha1 : bytes → bytes).

(** The loop stops after whole chunks, each of them matched in full. *)
Lemma scan_chunks_verified env p (content : bytes) pos cs acc v :
  (∀ c d, c ∈ cs → sha1 d = sha c → length d = cb_original c) →
  scan_chunks sha1 env p content pos cs acc = Return v →
  ∃ k, v = acc + sum_sizes (take k cs)
       ∧ sum_sizes (take k cs) ≤ length (drop pos content)
       ∧ chunks_match sha1 (take k cs)
           (take (sum_sizes (take k cs)) (drop pos content))
       ∧ k ≤ length cs.
Proof.
  revert pos acc. induction cs as [|c cs IH]; intros pos acc Hpin; simpl.
  - intros [= <-]. exists 0. unfold sum_sizes. simpl. split; [lia|].
    split; [lia|]. split; [by rewrite take_0|lia].
  - destruct (read_fails env p pos); [done|].
    destruct (take (cb_original c) (drop pos content)) as [|b data] eqn:Htake.
    { intros [= <-]. exists 0. unfold sum_sizes. simpl. split; [lia|].
      split; [lia|]. split; [by rewrite take_0|lia]. }
    case_decide as Hsha.
    + assert (length (b :: data) = cb_original c) as Hlen.
      { apply (Hpin c); [by left|done]. }
      rewrite Hlen. intros Hscan.
      apply IH in Hscan as (k & -> & Hle & Hm & Hk);
        [|by intros c' d Hc'; apply Hpin; right].
      assert (cb_original c ≤ length (drop pos content)) as Hcb.
      { rewrite <-Hlen, <-Htake, length_take. lia. }
      rewrite <-drop_drop, length_drop in Hle.
      exists (S k). unfold sum_sizes in *. simpl.
      split; [lia|]. split; [lia|]. split; [|lia].
      split; [rewrite length_take; lia|].
      rewrite take_take.
      replace (cb_original c `min` (cb_original c + sum_list_with cb_original (take k cs)))
        with (cb_original c) by lia.
      rewrite Htake. split; [done|].
      rewrite <-drop_drop in Hm.
      by rewrite skipn_firstn_comm,
        (Nat.add_comm (cb_original c)), Nat.add_sub.
    + intros [= <-]. exists 0. unfold sum_sizes. simpl. split; [lia|].
      split; [lia|]. split; [by rewrite take_0|lia].
Qed.

(** Chunks of positive size: a prefix with the full sum is the whole list. *)
Lemma take_full_sum k cs :
  Forall (λ c, 0 < cb_original c) cs →
  sum_sizes (take k cs) = sum_sizes cs → take k cs = cs.
Proof.
  revert k. induction cs as [|c cs IH]; intros k Hpos Hsum; [by destruct k|].
  apply Forall_cons in Hpos as [Hc Hpos].
  destruct k as [|k]; unfold sum_sizes in *; simpl in *; [lia|].
  f_equal. apply IH; [done|]. unfold sum_sizes. lia.
Qed.

(** With reads that do not raise the loop returns. *)
Lemma scan_chunks_returns env p (content : bytes) pos cs acc :
  (∀ q, read_fails env p q = false) →
  ∃ v, scan_chunks sha1 env p content pos cs acc = Return v.
Proof.
  intros Hread. revert pos acc. induction cs as [|c cs IH]; intros pos acc;
    simpl; [by eexists|].
  rewrite Hread. destruct (take _ _); [by eexists|].
  case_decide; [apply IH|by eexists].
Qed.

(** An answer True comes without a change. *)
Lemma verify_true_unchanged env fi p (st : fs) fi' st' :
  _verify_and_repair_file sha1 env fi p st = (Return (true, fi'), st') →
  fi' = fi ∧ st' = st.
Proof.
  unfold _verify_and_repair_file, verify_body.
  destruct (st !! p) as [content|]; [|done].
  destruct (open_rb_fails env p); [done|].
  destruct (scan_chunks sha1 env p content 0 (chunks fi) 0) as [v|[]];
    [|done..].
  case_decide; [by intros [= <- <-]|].
  by destruct (open_rwb_fails env p), (truncate_fails env p).
Qed.

(** A file that starts with the chunks of the entry is accepted. *)
Lemma verify_accepts env fi p (st : fs) (good tail : bytes) :
  well_formed fi →
  open_rb_fails env p = false → (∀ q, read_fails env p q = false) →
  st !! p = Some (good ++ tail) →
  chunks_match sha1 (chunks fi) good →
  _verify_and_repair_file sha1 env fi p st = (Return (true, fi), st).
Proof.
  intros [Hpos Hsum] Hopen Hread Hst Hm.
  unfold _verify_and_repair_file, verify_body. rewrite Hst, Hopen.
  pose proof (scan_chunks_prefix sha1 env p (good ++ tail) 0 (chunks fi) []
                0 good tail Hread Hpos eq_refl Hm) as Hscan.
  rewrite app_nil_r in Hscan. rewrite Hscan. simpl.
  by rewrite decide_True.
Qed.

Lemma verify_accepts_iff env fi p (st : fs) (content : bytes) :
  well_formed fi →
  digests_pin_length sha1 fi →
  open_rb_fails env p = false → (∀ q, read_fails env p q = false) →
  st !! p = Some content →
  _verify_and_repair_file sha1 env fi p st = (Return (true, fi), st)
  ↔ ∃ good tail, content = good ++ tail ∧ chunks_match sha1 (chunks fi) good.
Proof.
  intros Hwf Hpin Hopen Hread Hst. split.
  - destruct Hwf as [Hpos Hsum].
    unfold _verify_and_repair_file, verify_body. rewrite Hst, Hopen.
    destruct (scan_chunks_returns env p content 0 (chunks fi) 0 Hread) as [v Hv].
    rewrite Hv. case_decide as Hsize.
    + intros _. apply scan_chunks_verified in Hv as (k & -> & Hle & Hm & _);
        [|done].
      simpl in Hsize. rewrite drop_0 in Hle, Hm.
      rewrite (take_full_sum k) in Hm, Hle by (done || congruence).
      exists (take (sum_sizes (chunks fi)) content),
        (drop (sum_sizes (chunks fi)) content).
      by rewrite take_drop.
    + by destruct (open_rwb_fails env p), (truncate_fails env p).
  - intros (good & tail & -> & Hm). by apply (verify_accepts _ _ _ _ good tail).
Qed.

(** Verification returns, whatever raises inside it. *)
Lemma verify_returns env fi p (st : fs) :
  ∃ ok fi' st',
    _verify_and_repair_file sha1 env fi p st = (Return (ok, fi'), st').
Proof.
  unfold _verify_and_repair_file. destruct (st !! p) as [content|]; [|eauto].
  destruct (verify_body sha1 env fi p content st) as [[[]|[]] ?] eqn:Hb; eauto.
  by apply verify_body_raises with (e := OtherError) in Hb as [? _].
Qed.

(** Verification leaves every other path as it is. *)
Lemma verify_frame env fi p (st : fs) q :
  q ≠ p → (_verify_and_repair_file sha1 env fi p st).2 !! q = st !! q.
Proof.
  intros Hq. unfold _verify_and_repair_file, verify_body.
  destruct (st !! p) as [content|]; [|done].
  destruct (open_rb_fails env p); [done|].
  destruct (scan_chunks sha1 env p content 0 (chunks fi) 0) as [v|[]];
    [|done..].
  case_decide; [done|].
  destruct (open_rwb_fails env p), (truncate_fails env p); try done.
  simpl. by rewrite lookup_insert_ne.
Qed.

(** X1. With opening and reading that do not raise, verification answers
    True exactly when the file starts with the chunks of the entry, each with
    its digest; bytes behind them are not read. An answer True never comes
    with a change: the entry and the file system are the ones passed in. *)
Theorem verify_true_iff_valid_prefix env fi p (st : fs) (content : bytes) :
  well_formed fi →
  digests_pin_length sha1 fi →
  open_rb_fails env p = false → (∀ q, read_fails env p q = false) →
  st !! p = Some content →
  (∀ ok fi' st', _verify_and_repair_file sha1 env fi p st
                 = (Return (ok, fi'), st') →
     (ok = true ↔ ∃ good tail, content = good ++ tail
                               ∧ chunks_match sha1 (chunks fi) good)
     ∧ (ok = true → fi' = fi ∧ st' = st)).
Proof.
  intros Hwf Hpin Hopen Hread Hst ok fi' st' Hrun.
  pose proof (verify_accepts_iff env fi p st content Hwf Hpin Hopen Hread Hst)
    as Hiff.
  split; [split|].
  - intros ->. destruct (verify_true_unchanged _ _ _ _ _ _ Hrun) as [-> ->].
    by apply Hiff.
  - intros Hgood. apply Hiff in Hgood. rewrite Hgood in Hrun. by simplify_eq.
  - intros ->. by apply (verify_true_unchanged env fi p st).
Qed.

Lemma verify_false_prefix env fi p (st : fs) content fi' st' :
  well_formed fi →
  digests_pin_length sha1 fi →
  verify_fault_free env p →
  st !! p = Some content →
  _verify_and_repair_file sha1 env fi p st = (Return (false, fi'), st') →
  ∃ k, k < length (chunks fi)
       ∧ st' = <[p := take (offset fi') content]> st
       ∧ offset fi' = sum_sizes (take k (chunks fi))
       ∧ offset fi' ≤ length content
       ∧ offset fi' < size fi
       ∧ chunks_match sha1 (take k (chunks fi)) (take (offset fi') content)
       ∧ same_entry fi fi'.
Proof.
  intros [Hpos Hsum] Hpin (Hopen & Hread & Hrw & Htr) Hst.
  unfold _verify_and_repair_file, verify_body.
  rewrite Hst, Hopen, Hrw, Htr.
  destruct (scan_chunks_returns env p content 0 (chunks fi) 0 Hread) as [v Hv].
  rewrite Hv. case_decide as Hsize; [done|]. intros [= <- <-].
  apply scan_chunks_verified in Hv as (k & -> & Hle & Hm & Hk); [|done].
  simpl in *. rewrite drop_0 in Hle, Hm.
  pose proof (sum_sizes_take_le k (chunks fi)) as Hle'.
  assert (size fi `min` sum_sizes (take k (chunks fi))
          = sum_sizes (take k (chunks fi))) as -> by lia.
  exists k. split.
  { destruct (decide (k < length (chunks fi))) as [|Hge]; [done|].
    rewrite take_ge in Hsize by lia. congruence. }
  split.
  { f_equal. unfold truncate.
    replace (sum_sizes (take k (chunks fi)) - length content) with 0 by lia.
    simpl. by rewrite app_nil_r. }
  repeat split; try done; lia.
Qed.

Lemma verify_false_resumable env fi base (st : fs) fi' st' :
  well_formed fi →
  digests_pin_length sha1 fi →
  verify_fault_free env (joinpath base (filename fi)) →
  _verify_and_repair_file sha1 env fi (joinpath base (filename fi)) st
    = (Return (false, fi'), st') →
  resumable sha1 base st' fi' ∧ same_entry fi fi' ∧ offset fi' ≤ size fi.
Proof.
  intros Hwf Hpin Hvf Hrun. set (p := joinpath base (filename fi)) in *.
  destruct (st !! p) as [content|] eqn:Hst.
  - destruct (verify_false_prefix env fi p st content fi' st')
      as (k & Hk & -> & Hoff & Hle & Hlt & Hm & Hsame); try done.
    split; [|split; [done|lia]].
    exists k. destruct Hsame as (Hn & _ & Hc & _). rewrite Hn, Hc. fold p.
    rewrite lookup_insert_eq. simpl. split; [done|]. rewrite length_take. lia.
  - revert Hrun. unfold _verify_and_repair_file. rewrite Hst.
    intros [= <- <-]. split; [|split; [done|simpl; lia]].
    exists 0. simpl. fold p. rewrite Hst. simpl. split; [done|lia].
Qed.

(** X2. When no file operation raises and verification answers False, what
    is on disk afterwards is a verified prefix: whole chunks of the entry, in
    order, each with its digest, and the cursor of the entry is at its end. A
    file that was found has been cut to a proper prefix of itself; an absent
    one is still absent, with the cursor at 0. *)
Theorem verify_false_leaves_verified_prefix env fi base (st : fs) fi' st' :
  let p := joinpath base (filename fi) in
  well_formed fi →
  digests_pin_length sha1 fi →
  verify_fault_free env p →
  _verify_and_repair_file sha1 env fi p st = (Return (false, fi'), st') →
  resumable sha1 base st' fi'
  ∧ same_entry fi fi'
  ∧ offset fi' ≤ size fi
  ∧ (st !! p = None → st' = st ∧ offset fi' = 0)
  ∧ (∀ content, st !! p = Some content →
       st' = <[p := take (offset fi') content]> st
       ∧ offset fi' ≤ length content ∧ offset fi' < size fi).
Proof.
  intros p Hwf Hpin Hvf Hrun.
  destruct (verify_false_resumable env fi base st fi' st')
    as (Hres & Hsame & Hle); try done.
  split_and!; try done.
  - intros Hst. revert Hrun. unfold _verify_and_repair_file. rewrite Hst.
    intros [= <- <-]. split; [done|simpl; lia].
  - intros content Hst.
    destruct (verify_false_prefix env fi p st content fi' st')
      as (k & Hk & -> & Hoff & Hle' & Hlt & Hm & _); done.
Qed.

(** X3. Verification touches one path at most: every other path keeps its
    content, an absent file stays absent and no file is created, and the
    entry changes in its cursor only. When the digests pin the chunk sizes
    the file it finds can only become a prefix of itself. *)
Theorem verify_only_shortens_its_file env fi p (st : fs) :
  let res := _verify_and_repair_file sha1 env fi p st in
  (∀ q, q ≠ p → res.2 !! q = st !! q)
  ∧ (st !! p = None → res.2 = st)
  ∧ (digests_pin_length sha1 fi → ∀ content, st !! p = Some content →
       ∃ v, res.2 !! p = Some (take v content))
  ∧ (∀ ok fi', res.1 = Return (ok, fi') → same_entry fi fi').
Proof.
  unfold _verify_and_repair_file, verify_body. simpl.
  assert (same_entry fi fi) as Hrefl by done.
  destruct (st !! p) as [content|] eqn:Hst; simpl;
    [|split_and!; try done; by intros ?? [= <- <-]].
  assert (∀ c, Some content = Some c → ∃ v, st !! p = Some (take v c)) as Hsame.
  { intros ? [= <-]. exists (length content). by rewrite firstn_all. }
  destruct (open_rb_fails env p); simpl;
    [split_and!; try done; by intros ?? [= <- <-]|].
  destruct (scan_chunks sha1 env p content 0 (chunks fi) 0) as [v|e] eqn:Hv.
  - case_decide as Hsize; simpl;
      [split_and!; try done; by intros ?? [= <- <-]|].
    destruct (open_rwb_fails env p); simpl;
      [split_and!; try done; by intros ?? [= <- <-]|].
    destruct (truncate_fails env p); simpl;
      [split_and!; try done; by intros ?? [= <- <-]|].
    split_and!; try done.
    + intros q Hq. by rewrite lookup_insert_ne.
    + intros Hpin ? [= <-]. exists v. rewrite lookup_insert_eq. f_equal.
      apply scan_chunks_verified in Hv as (k & -> & Hle & _); [|done].
      rewrite drop_0 in Hle. unfold truncate. simpl.
      replace (sum_sizes (take k (chunks fi)) - length content) with 0 by lia.
      simpl. by rewrite app_nil_r.
    + by intros ?? [= <- <-].
  - apply scan_chunks_raises in Hv as ->. simpl.
    split_and!; try done. by intros ?? [= <- <-].
Qed.

End VerifierMore.

(** ** Verification as its caller sees it *)

Section VerifierCallFacts.
Import Fs Verifier Scheduler VerifierCall.
#[local] Open Scope nat_scope.
Context (sha1 : bytes → bytes).

(** When the existence check answers and the entry is a plain file, the
    function is the one of [Verifier]. *)
Lemma verify_call_plain env lib fi p (st : fs) :
  exists_raises lib p = false → seekable lib fi = true →
  VerifierCall._verify_and_repair_file sha1 env lib fi p st
  = Verifier._verify_and_repair_file sha1 env fi p st.
Proof.
  intros Hex Hseek.
  unfold VerifierCall._verify_and_repair_file, try_block, seek_call,
    Verifier._verify_and_repair_file, verify_body.
  rewrite Hex, Hseek. destruct (st !! p) as [content|]; [|done].
  destruct (open_rb_fails env p); [done|].
  destruct (scan_chunks sha1 env p content 0 (chunks fi) 0) as [v|[]];
    [|done..].
  case_decide; [done|].
  by destruct (open_rwb_fails env p), (truncate_fails env p).
Qed.

(** For an entry that is not a plain file, every answer [False] of the
    function of [Verifier] is a [ValueError] instead, after the file has been
    truncated. *)
Lemma verify_call_not_seekable env lib fi p (st : fs) :
  exists_raises lib p = false → seekable lib fi = false →
  VerifierCall._verify_and_repair_file sha1 env lib fi p st
  = match Verifier._verify_and_repair_file sha1 env fi p st with
    | (Return (false, _), st') => (Raise OtherError, st')
    | r => r
    end.
Proof.
  intros Hex Hseek.
  unfold VerifierCall._verify_and_repair_file, try_block, seek_call,
    Verifier._verify_and_repair_file, verify_body.
  rewrite Hex, Hseek. destruct (st !! p) as [content|]; [|done].
  destruct (open_rb_fails env p); [done|].
  destruct (scan_chunks sha1 env p content 0 (chunks fi) 0) as [v|e] eqn:Hv.
  - case_decide; [done|].
    by destruct (open_rwb_fails env p), (truncate_fails env p).
  - by apply scan_chunks_raises in Hv as ->.
Qed.

(** The loop raises at the first read that fails, when the chunks before
    it are read and match. *)
Lemma scan_chunks_read_error env p content pos pre c post acc good rest :
  Forall (λ c, 0 < cb_original c) pre →
  drop pos content = good ++ rest →
  chunks_match sha1 pre good →
  (∀ q, q < pos + sum_sizes pre → read_fails env p q = false) →
  read_fails env p (pos + sum_sizes pre) = true →
  scan_chunks sha1 env p content pos (pre ++ c :: post) acc = Raise IOError.
Proof.
  revert pos acc good.
  induction pre as [|c0 pre IH]; intros pos acc good Hpos Hdrop Hm Hok Hbad;
    simpl.
  - unfold sum_sizes in Hbad. simpl in Hbad. rewrite Nat.add_0_r in Hbad.
    by rewrite Hbad.
  - apply Forall_cons in Hpos as [Hc Hpos].
    destruct Hm as (Hle & Hsha & Hm).
    unfold sum_sizes in Hok, Hbad. simpl in Hok, Hbad.
    rewrite Hok by lia. rewrite Hdrop, take_app_le by done.
    destruct (take (cb_original c0) good) as [|b data] eqn:Htake.
    { apply (f_equal length) in Htake. rewrite length_take in Htake.
      simpl in Htake. lia. }
    rewrite decide_True by done.
    assert (length (b :: data) = cb_original c0) as ->.
    { rewrite <-Htake, length_take. lia. }
    apply (IH _ _ (drop (cb_original c0) good)); [done| |done|..].
    + by rewrite <-drop_drop, Hdrop, drop_app_le.
    + intros q Hq. apply Hok. unfold sum_sizes in Hq. lia.
    + rewrite <-Hbad. f_equal. unfold sum_sizes. lia.
Qed.

(** C3 (as amended). When the existence check answers and the entry is a
    plain file, verification does not raise. For an absent file it answers
    [False] with the cursor at 0 and leaves the file system as it was, so no
    file is created. When opening raises, when a read raises (every read the
    loop makes, and in particular the first read that fails behind chunks that
    match), or when opening for truncation or truncating raises, it answers
    [False] with the cursor at 0 as well, and the file system is as it
    was. *)
Theorem verify_handles_io_errors env lib fi p (st : fs) :
  exists_raises lib p = false →
  seekable lib fi = true →
  (∃ ok fi' st',
      VerifierCall._verify_and_repair_file sha1 env lib fi p st
      = (Return (ok, fi'), st'))
  ∧ (st !! p = None →
       VerifierCall._verify_and_repair_file sha1 env lib fi p st
       = (Return (false, seek fi 0), st)
       ∧ resume_offset (false, seek fi 0) = 0)
  ∧ (∀ content, st !! p = Some content → open_rb_fails env p = true →
       VerifierCall._verify_and_repair_file sha1 env lib fi p st
       = (Return (false, seek fi 0), st))
  ∧ (∀ content e, st !! p = Some content → open_rb_fails env p = false →
       scan_chunks sha1 env p content 0 (chunks fi) 0 = Raise e →
       VerifierCall._verify_and_repair_file sha1 env lib fi p st
       = (Return (false, seek fi 0), st))
  ∧ (∀ pre c post good rest,
       st !! p = Some (good ++ rest) → open_rb_fails env p = false →
       chunks fi = pre ++ c :: post →
       Forall (λ c, 0 < cb_original c) pre →
       chunks_match sha1 pre good →
       (∀ q, q < sum_sizes pre → read_fails env p q = false) →
       read_fails env p (sum_sizes pre) = true →
       VerifierCall._verify_and_repair_file sha1 env lib fi p st
       = (Return (false, seek fi 0), st))
  ∧ (∀ content v, st !! p = Some content → open_rb_fails env p = false →
       scan_chunks sha1 env p content 0 (chunks fi) 0 = Return v →
       v ≠ size fi →
       open_rwb_fails env p = true ∨ truncate_fails env p = true →
       VerifierCall._verify_and_repair_file sha1 env lib fi p st
       = (Return (false, seek fi 0), st)).
Proof.
  intros Hex Hseek.
  assert (∀ content e, st !! p = Some content → open_rb_fails env p = false →
            scan_chunks sha1 env p content 0 (chunks fi) 0 = Raise e →
            VerifierCall._verify_and_repair_file sha1 env lib fi p st
            = (Return (false, seek fi 0), st)) as Hread.
  { intros content e Hst Hopen Hscan.
    unfold VerifierCall._verify_and_repair_file, try_block, seek_call.
    rewrite Hex, Hst, Hopen, Hscan, Hseek.
    by apply scan_chunks_raises in Hscan as ->. }
  split_and!.
  - rewrite verify_call_plain by done. apply verify_returns.
  - intros Hnone.
    unfold VerifierCall._verify_and_repair_file, seek_call.
    rewrite Hex, Hnone, Hseek. split; [done|].
    unfold resume_offset. simpl. lia.
  - intros content Hst Hopen.
    unfold VerifierCall._verify_and_repair_file, try_block, seek_call.
    by rewrite Hex, Hst, Hopen, Hseek.
  - exact Hread.
  - intros pre c post good rest Hst Hopen Hcs Hpos Hm Hok Hbad.
    apply (Hread (good ++ rest) IOError); [done|done|].
    rewrite Hcs. by apply (scan_chunks_read_error _ _ _ 0 _ _ _ _ good rest).
  - intros content v Hst Hopen Hscan Hne Hfail.
    unfold VerifierCall._verify_and_repair_file, try_block, seek_call.
    rewrite Hex, Hst, Hopen, Hscan, decide_False, Hseek by done.
    destruct Hfail as [-> | ->]; [done|]. by destruct (open_rwb_fails env p).
Qed.

End VerifierCallFacts.

(** ** Verification followed by a download *)

Section RepairFacts.
Import Fs Verifier Scheduler Reconcile Repair.
#[local] Open Scope nat_scope.
Context (sha1 : bytes → bytes).

(** Verified chunks followed by what the complete file has behind them. *)
Lemma chunks_match_resume cs k (good full : bytes) :
  chunks_match sha1 cs full →
  chunks_match sha1 (take k cs) good →
  chunks_match sha1 cs (good ++ drop (length good) full).
Proof.
  revert k good full. induction cs as [|c cs IH]; intros k good full Hfull Hgood.
  - rewrite take_nil in Hgood. simpl in *. by subst.
  - destruct k as [|k]; simpl in Hgood; [by subst|].
    destruct Hfull as (Hlen & Hsha & Hfull), Hgood as (Hlen' & Hsha' & Hgood).
    simpl. split; [rewrite length_app; lia|].
    rewrite take_app_le, drop_app_le by done. split; [done|].
    specialize (IH k _ _ Hfull Hgood).
    rewrite length_drop, drop_drop in IH.
    by replace (cb_original c + (length good - cb_original c))
      with (length good) in IH by lia.
Qed.

Lemma accepted_lookup base (st st' : fs) fi fi' :
  same_entry fi fi' →
  st' !! joinpath base (filename fi) = st !! joinpath base (filename fi) →
  accepted sha1 base st fi → accepted sha1 base st' fi'.
Proof.
  intros (Hn & _ & Hc & _) Hlook (good & tail & Hst & Hm).
  exists good, tail. by rewrite Hn, Hc, Hlook.
Qed.

Lemma resumable_lookup base (st st' : fs) fi :
  st' !! joinpath base (filename fi) = st !! joinpath base (filename fi) →
  resumable sha1 base st fi → resumable sha1 base st' fi.
Proof. unfold resumable. by intros ->. Qed.

Lemma valid_accepted base (st : fs) fi :
  valid_on_disk sha1 base st fi → accepted sha1 base st fi.
Proof. intros (content & Hst & Hm). exists content, []. by rewrite app_nil_r. Qed.

(** The worker on an entry whose file is a verified prefix, with a remote
    side that serves the rest. *)
Lemma download_resumable env base fi fi' full (st : fs) pbar :
  well_formed fi →
  same_entry fi fi' →
  chunks_match sha1 (chunks fi) full →
  download_fault_free env (joinpath base (filename fi)) →
  remote_serves env fi full →
  resumable sha1 base st fi' →
  let p := joinpath base (filename fi) in
  ∃ fi'',
    _download_single_file env fi' base st pbar
    = (fi'', <[p := default [] (st !! p) ++ drop (offset fi') full]> st,
       pbar_update pbar (size fi' - offset fi'))
    ∧ same_entry fi fi''
    ∧ chunks_match sha1 (chunks fi)
        (default [] (st !! p) ++ drop (offset fi') full).
Proof.
  intros [Hpos Hsum] Hsame Hfull (Hmk & Hab & Hwr) Hserve (k & Hgood & Hoff) p.
  destruct (Hserve fi' Hsame) as [Hraise Hyield].
  destruct Hsame as (Hn & Hsz & Hc & Hd).
  rewrite Hn in Hoff, Hgood. rewrite Hc in Hgood.
  pose proof (chunks_match_length sha1 _ _ Hfull) as Hlf.
  pose proof (chunks_match_length sha1 _ _ Hgood) as Hlg.
  pose proof (sum_sizes_take_le k (chunks fi)) as Hle.
  unfold _download_single_file. subst p. rewrite Hn, Hmk, Hab.
  rewrite write_chunks_complete by done. rewrite Hraise, Hyield.
  eexists. split; [|split].
  - rewrite length_drop. do 2 f_equal. unfold pbar_update. f_equal. lia.
  - done.
  - rewrite Hoff. by apply (chunks_match_resume _ k).
Qed.

(** X4. Whatever the local file holds, verification followed, when it
    answers False, by a download from the cursor it left gives a file made of
    the chunks of the entry: the verified bytes are kept, the remote side's
    bytes from the cursor on are appended, the progress bar advances by the
    bytes that were missing, and no other path changes. *)
Theorem verify_then_download_repairs env env' fi base (st : fs) full pbar :
  let p := joinpath base (filename fi) in
  well_formed fi →
  digests_pin_length sha1 fi →
  chunks_match sha1 (chunks fi) full →
  verify_fault_free env p →
  download_fault_free env' p →
  remote_serves env' fi full →
  ∃ ok fi1 st1,
    _verify_and_repair_file sha1 env fi p st = (Return (ok, fi1), st1)
    ∧ if ok then st1 = st ∧ accepted sha1 base st fi
      else ∃ fi2 st2 pbar2,
        _download_single_file env' fi1 base st1 pbar = (fi2, st2, pbar2)
        ∧ valid_on_disk sha1 base st2 fi
        ∧ st2 !! p = Some (default [] (st1 !! p) ++ drop (offset fi1) full)
        ∧ n pbar2 = n pbar + (size fi - offset fi1)
        ∧ messages pbar2 = messages pbar
        ∧ (∀ q, q ≠ p → st2 !! q = st !! q).
Proof.
  intros p Hwf Hpin Hfull Hvf Hdf Hserve.
  assert (∀ fi1 st1, same_entry fi fi1 → resumable sha1 base st1 fi1 →
            (∀ q, q ≠ p → st1 !! q = st !! q) →
            ∃ fi2 st2 pbar2,
              _download_single_file env' fi1 base st1 pbar = (fi2, st2, pbar2)
              ∧ valid_on_disk sha1 base st2 fi
              ∧ st2 !! p = Some (default [] (st1 !! p) ++ drop (offset fi1) full)
              ∧ n pbar2 = n pbar + (size fi - offset fi1)
              ∧ messages pbar2 = messages pbar
              ∧ (∀ q, q ≠ p → st2 !! q = st !! q)) as Hdown.
  { intros fi1 st1 Hsame Hres Hframe.
    destruct (download_resumable env' base fi fi1 full st1 pbar)
      as (fi2 & Hrun & _ & Hm); try done.
    do 3 eexists. split; [exact Hrun|]. fold p.
    split; [eexists; split; [apply lookup_insert_eq|done]|].
    split; [apply lookup_insert_eq|].
    split; [simpl; destruct Hsame as (_ & -> & _); done|].
    split; [done|].
    intros q Hq. rewrite lookup_insert_ne by done. by apply Hframe. }
  destruct (st !! p) as [content|] eqn:Hst.
  - destruct (_verify_and_repair_file sha1 env fi p st) as [r st1] eqn:Hrun.
    assert (∃ ok fi1, r = Return (ok, fi1)) as (ok & fi1 & ->).
    { destruct (verify_returns sha1 env fi p st) as (ok & fi1 & ? & Hret).
      rewrite Hrun in Hret. injection Hret as -> _. eauto. }
    exists ok, fi1, st1. split; [done|]. destruct ok.
    + destruct Hvf as (Hopen & Hread & _).
      destruct (verify_true_unchanged _ _ _ _ _ _ _ Hrun) as [-> ->].
      split; [done|].
      apply (verify_accepts_iff _ env fi p st content) in Hrun
        as (good & tail & -> & Hm); try done.
      by exists good, tail.
    + destruct (verify_false_prefix sha1 env fi p st content fi1 st1)
        as (k & Hk & -> & Hoff & Hle & Hlt & Hm & Hsame); try done.
      apply Hdown; [done|..].
      * exists k. destruct Hsame as (Hn & _ & Hc & _). rewrite Hn, Hc. fold p.
        rewrite lookup_insert_eq. simpl. split; [done|].
        rewrite length_take. lia.
      * intros q Hq. by rewrite lookup_insert_ne.
  - exists false, (seek fi 0), st. unfold _verify_and_repair_file. rewrite Hst.
    split; [done|]. specialize (Hdown (seek fi 0) st). rewrite Hst in Hdown.
    apply Hdown; [done| |done].
    exists 0. simpl. fold p. rewrite Hst. simpl. split; [done|lia].
Qed.

End RepairFacts.

(** ** The reconciliation loop from any local state *)

Section CycleFacts.
Import Fs Verifier Scheduler Reconcile Repair.
#[local] Open Scope nat_scope.
Context (sha1 : bytes → bytes).

Lemma pass_outcome_frame base (st0 st st' st'' : fs) fi e :
  st !! joinpath base (filename fi) = st0 !! joinpath base (filename fi) →
  st'' !! joinpath base (filename fi) = st' !! joinpath base (filename fi) →
  pass_outcome sha1 base st st' fi e → pass_outcome sha1 base st0 st'' fi e.
Proof.
  intros H0 H2 (Hsame & Hflag & Hok). split; [done|]. split.
  - intros Hb. destruct (Hflag Hb) as (Hd & Hres & Hna). split; [done|]. split.
    + apply (resumable_lookup sha1 base st'); [|done].
      destruct Hsame as (-> & _). done.
    + intros Hacc. apply Hna. by apply (accepted_lookup sha1 base st0 st fi fi).
  - intros Hb. destruct (Hok Hb) as [-> Hacc]. split; [done|].
    intros Hd. destruct (Hacc Hd) as [Ha Hl]. split.
    + by apply (accepted_lookup sha1 base st st0 fi fi).
    + congruence.
Qed.

Lemma verify_all_outcome env base fl (st : fs) :
  NoDup (filename <$> fl) →
  Forall (λ fi, is_directory fi = false →
            well_formed fi ∧ digests_pin_length sha1 fi
            ∧ verify_fault_free env (joinpath base (filename fi))) fl →
  ∃ l st',
    verify_all sha1 env base fl st = (Return (l, missing_bytes l), st')
    ∧ Forall2 (pass_outcome sha1 base st st') fl l
    ∧ (∀ q, (∀ fi, fi ∈ fl → is_directory fi = false →
               joinpath base (filename fi) ≠ q) → st' !! q = st !! q).
Proof.
  intros Hnd Hall. revert st.
  induction fl as [|fi fl IH]; intros st; simpl.
  { exists [], st. split; [done|]. split; [constructor|done]. }
  apply Forall_cons in Hall as [Hhead Hall].
  simpl in Hnd. apply NoDup_cons in Hnd as [Hnotin Hnd].
  set (p := joinpath base (filename fi)).
  assert (∀ fj, fj ∈ fl → joinpath base (filename fj) ≠ p) as Hfresh.
  { intros fj Hj Heq. apply joinpath_inj in Heq. apply Hnotin. rewrite <-Heq.
    by apply list_elem_of_fmap_2. }
  destruct (is_directory fi) eqn:Hdir.
  - destruct (IH Hnd Hall st) as (l & st' & Hrun & Hl & Hframe).
    rewrite Hrun. exists ((fi, false) :: l), st'. split; [done|]. split.
    + constructor; [|done]. split; [done|]. split; [done|].
      intros _. split; [done|congruence].
    + intros q Hq. apply Hframe. intros fj Hj. apply Hq. by right.
  - destruct (Hhead eq_refl) as (Hwf & Hpin & Hvf).
    destruct (verify_returns sha1 env fi p st) as (ok & fi1 & st1 & Hv).
    rewrite Hv.
    pose proof (verify_frame sha1 env fi p st) as Hvframe.
    rewrite Hv in Hvframe. simpl in Hvframe.
    destruct (IH Hnd Hall st1) as (l & st' & Hrun & Hl & Hframe).
    rewrite Hrun.
    assert (st' !! p = st1 !! p) as Hp.
    { apply Hframe. intros fj Hj _. by apply Hfresh. }
    assert (Forall2 (pass_outcome sha1 base st st') fl l) as Hl'.
    { assert (Forall (λ fj, fj ∈ fl) fl) as Hmem by (by apply Forall_forall).
      pose proof (Forall2_with_left _ _ _ _ Hl Hmem) as Hl2.
      eapply Forall2_impl; [exact Hl2|].
      intros fj e [Hout Hj]. simpl in *.
      apply (pass_outcome_frame base st st1 st' st'); [|done|done].
      apply Hvframe. by apply Hfresh. }
    assert (∀ q, (∀ fj, fj ∈ fi :: fl → is_directory fj = false →
              joinpath base (filename fj) ≠ q) → st' !! q = st !! q) as Hfr.
    { intros q Hq. rewrite Hframe.
      - apply Hvframe. intros ->. apply (Hq fi); [by left|done..].
      - intros fj Hj. apply Hq. by right. }
    destruct ok.
    + destruct (verify_true_unchanged sha1 _ _ _ _ _ _ Hv) as [-> ->].
      exists ((fi, false) :: l), st'. split; [done|]. split; [|done].
      constructor; [|done]. split; [done|]. split; [done|].
      intros _. split; [done|]. intros _. split; [|done].
      destruct (st !! p) as [content|] eqn:Hst.
      * destruct Hvf as (Hopen & Hread & _).
        apply (verify_accepts_iff sha1 env fi p st content) in Hv
          as (good & tail & -> & Hm); try done.
        by exists good, tail.
      * revert Hv. unfold _verify_and_repair_file. by rewrite Hst.
    + exists ((fi1, true) :: l), st'. split; [done|]. split; [|done].
      constructor; [|done].
      destruct (verify_false_resumable sha1 env fi base st fi1 st1)
        as (Hres & Hsame & Hle); try done.
      split; [done|]. split; [|done]. intros _. split; [done|]. split.
      * simpl. apply (resumable_lookup sha1 base st1); [|done].
        destruct Hsame as (-> & _). done.
      * intros (good & tail & Hst & Hm). destruct Hvf as (Hopen & Hread & _).
        rewrite (verify_accepts sha1 env fi p st good tail) in Hv; done.
Qed.

Lemma pbar_update_0 pbar : pbar_update pbar 0 = pbar.
Proof. destruct pbar. unfold pbar_update. simpl. f_equal. lia. Qed.

Lemma pbar_update_add pbar a b :
  pbar_update (pbar_update pbar a) b = pbar_update pbar (a + b).
Proof. unfold pbar_update. simpl. f_equal. lia. Qed.

(** The download phase on flagged entries whose files are verified
    prefixes, with a remote side that serves every one of them. *)
Lemma download_flagged_repairs env base l (st : fs) pbar :
  NoDup (filename <$> l.*1) →
  Forall (λ e : FileInfo * bool, e.2 = true →
            resumable sha1 base st e.1 ∧ well_formed e.1
            ∧ download_fault_free env (joinpath base (filename e.1))
            ∧ ∃ full, chunks_match sha1 (chunks e.1) full
                      ∧ remote_serves env e.1 full) l →
  ∃ files' st',
    download_flagged env base l st pbar
    = (files', st', pbar_update pbar (missing_bytes l))
    ∧ Forall2 same_entry l.*1 files'
    ∧ (∀ q, (∀ e, e ∈ l → e.2 = true → joinpath base (filename e.1) ≠ q) →
         st' !! q = st !! q)
    ∧ Forall (λ e : FileInfo * bool,
                e.2 = true → valid_on_disk sha1 base st' e.1) l.
Proof.
  intros Hnd Hall. revert st pbar Hall.
  induction l as [|[fi b] l IH]; intros st pbar Hall; simpl.
  { eexists _, _. rewrite pbar_update_0. split; [done|].
    repeat split; by constructor. }
  apply Forall_cons in Hall as [Hhead Hall]. simpl in Hhead.
  simpl in Hnd. apply NoDup_cons in Hnd as [Hnotin Hnd].
  set (p := joinpath base (filename fi)) in *.
  assert (∀ e, e ∈ l → joinpath base (filename e.1) ≠ p) as Hfresh.
  { intros e He Heq. apply joinpath_inj in Heq. apply Hnotin. rewrite <-Heq.
    by apply list_elem_of_fmap_2, list_elem_of_fmap_2. }
  unfold missing_bytes. simpl. fold (missing_bytes l).
  destruct b.
  - destruct (Hhead eq_refl) as (Hres & Hwf & Hdf & full & Hfull & Hserve).
    destruct (download_resumable sha1 env base fi fi full st pbar)
      as (fi2 & Hrun & Hsame2 & Hm); try done.
    rewrite Hrun. fold p. fold p in Hm.
    set (st1 := <[p := default [] (st !! p) ++ drop (offset fi) full]> st).
    destruct (IH Hnd st1 (pbar_update pbar (size fi - offset fi)))
      as (files' & st' & Hdl & Hsame & Hother & Hvalid).
    { apply Forall_forall. intros e He Hflag.
      rewrite Forall_forall in Hall.
      destruct (Hall e He Hflag) as (Hres' & ?). split; [|done].
      apply (resumable_lookup sha1 base st); [|done].
      unfold st1. rewrite lookup_insert_ne; [done|].
      intros Heq. by apply (Hfresh e He). }
    rewrite Hdl, pbar_update_add. eexists _, _. split; [done|].
    split; [by constructor|]. split.
    + intros q Hq. rewrite Hother.
      * unfold st1. rewrite lookup_insert_ne; [done|].
        apply (Hq (fi, true)); [left|done].
      * intros e He. apply Hq. by right.
    + constructor; [|done]. intros _. eexists. split; [|exact Hm].
      simpl. fold p. rewrite Hother.
      * unfold st1. by rewrite lookup_insert_eq.
      * intros e He _. by apply Hfresh.
  - destruct (IH Hnd st pbar Hall)
      as (files' & st' & Hdl & Hsame & Hother & Hvalid).
    rewrite Hdl. eexists _, _. split; [done|].
    split; [by constructor|]. split.
    + intros q Hq. apply Hother. intros e He. apply Hq. by right.
    + constructor; [done|done].
Qed.

(** A pass over entries whose files are all accepted flags nothing and
    changes nothing. *)
Lemma verify_all_accepted env base fl (st : fs) :
  Forall (λ fi, is_directory fi = false →
            well_formed fi
            ∧ open_rb_fails env (joinpath base (filename fi)) = false
            ∧ (∀ q, read_fails env (joinpath base (filename fi)) q = false)
            ∧ accepted sha1 base st fi) fl →
  verify_all sha1 env base fl st = (Return ((λ fi, (fi, false)) <$> fl, 0), st).
Proof.
  induction 1 as [|fi fl Hhead _ IH]; simpl; [done|].
  destruct (is_directory fi) eqn:Hdir; [by rewrite IH|].
  destruct (Hhead eq_refl) as (Hwf & Hopen & Hread & good & tail & Hst & Hm).
  by rewrite (verify_accepts sha1 env fi _ st good tail), IH.
Qed.


Lemma files_to_download_unflagged (fl : list FileInfo) :
  files_to_download ((λ fi, (fi, false)) <$> fl) = [].
Proof.
  unfold files_to_download. induction fl as [|fi fl IH]; [done|].
  simpl. by rewrite filter_cons_False.
Qed.

Lemma well_formed_same fi fi' : same_entry fi fi' → well_formed fi → well_formed fi'.
Proof. intros (_ & Hs & Hc & _). unfold well_formed. by rewrite Hs, Hc. Qed.

Lemma remote_serves_same env fi fi' full :
  same_entry fi fi' → remote_serves env fi full → remote_serves env fi' full.
Proof.
  intros Hsame Hserve fi'' Hsame'. apply Hserve.
  by apply (same_entry_trans fi fi' fi'').
Qed.

Lemma Forall2_with_right {A B} (R : A → B → Prop) (Q : B → Prop) l k :
  Forall2 R l k → Forall Q k → Forall2 (λ x y, R x y ∧ Q y) l k.
Proof.
  induction 1; intros HQ; [constructor|].
  apply Forall_cons in HQ as [??]. constructor; auto.
Qed.

Lemma Forall2_left {A B} (R : A → B → Prop) (P : A → Prop) l k :
  Forall2 R l k → (∀ x y, R x y → P x) → Forall P l.
Proof. induction 1; intros HP; constructor; eauto. Qed.

Lemma NoDup_fmap_elem_eq {A B} (f : A → B) (l : list A) x y :
  NoDup (f <$> l) → x ∈ l → y ∈ l → f x = f y → x = y.
Proof.
  induction l as [|a l IH]; simpl; [by intros _ ?%elem_of_nil|].
  intros [Hnotin Hnd]%NoDup_cons [->|Hx]%elem_of_cons [->|Hy]%elem_of_cons Hf.
  - done.
  - destruct Hnotin. rewrite Hf. by apply list_elem_of_fmap_2.
  - destruct Hnotin. rewrite <-Hf. by apply list_elem_of_fmap_2.
  - by apply IH.
Qed.

Lemma pass_outcome_names base (st st1 : fs) fl l :
  Forall2 (pass_outcome sha1 base st st1) fl l →
  filename <$> l.*1 = filename <$> fl.
Proof.
  induction 1 as [|fi e fl l (Hsame & _) _ IH]; [done|].
  rewrite !fmap_cons, IH. by destruct Hsame as (-> & _).
Qed.

(** A verification pass followed by the download phase. *)
Lemma pass_then_download env base fl l (st st1 : fs) pbar :
  NoDup (filename <$> fl) →
  Forall (λ fi, is_directory fi = false →
            well_formed fi
            ∧ download_fault_free env (joinpath base (filename fi))
            ∧ ∃ full, chunks_match sha1 (chunks fi) full
                      ∧ remote_serves env fi full) fl →
  Forall2 (pass_outcome sha1 base st st1) fl l →
  ∃ files' st2,
    download_flagged env base l st1 pbar
    = (files', st2, pbar_update pbar (missing_bytes l))
    ∧ Forall2 same_entry fl files'
    ∧ Forall (λ fi, is_directory fi = false →
                accepted sha1 base st2 fi
                ∧ (accepted sha1 base st fi →
                     st2 !! joinpath base (filename fi)
                     = st !! joinpath base (filename fi))) fl
    ∧ (∀ q, (∀ fi, fi ∈ fl → is_directory fi = false →
               ¬ accepted sha1 base st fi →
               joinpath base (filename fi) ≠ q) → st2 !! q = st1 !! q).
Proof.
  intros Hnd Hfl Hl.
  pose proof (pass_outcome_names _ _ _ _ _ Hl) as Hnames.
  assert (Forall2 (λ fi e, (pass_outcome sha1 base st st1 fi e
                            ∧ (is_directory fi = false →
                                 well_formed fi
                                 ∧ download_fault_free env
                                     (joinpath base (filename fi))
                                 ∧ ∃ full, chunks_match sha1 (chunks fi) full
                                           ∧ remote_serves env fi full))
                           ∧ fi ∈ fl) fl l) as Hl1.
  { apply Forall2_with_left; [by apply Forall2_with_left|].
    by apply Forall_forall. }
  destruct (download_flagged_repairs env base l st1 pbar)
    as (files' & st2 & Hdl & Hsame & Hother & Hvalid).
  { by rewrite Hnames. }
  { eapply Forall2_right; [exact Hl1|]. clear.
    intros fi e [[(Hsame & Hflag & _) Hfi] _] Hb.
    destruct (Hflag Hb) as (Hd & Hres & _).
    destruct (Hfi Hd) as (Hwf & Hdf & full & Hfull & Hserve).
    split; [done|]. split; [by apply (well_formed_same fi)|].
    destruct Hsame as (Hn & Hs & Hc & Hdir). rewrite Hn, Hc.
    split; [done|]. exists full. split; [done|].
    by apply (remote_serves_same env fi). }
  assert (∀ q, (∀ fi, fi ∈ fl → is_directory fi = false →
             ¬ accepted sha1 base st fi →
             joinpath base (filename fi) ≠ q) → st2 !! q = st1 !! q) as Hframe.
  { intros q Hq. apply Hother. intros e He Hb.
    assert (Forall (λ e, e.2 = true → joinpath base (filename e.1) ≠ q) l)
      as Hall; [|by rewrite Forall_forall in Hall; apply Hall].
    eapply Forall2_right; [exact Hl1|].
    intros fi e' [[(Hsame' & Hflag & _) _] Hin] Hb'.
    destruct (Hflag Hb') as (Hd & _ & Hna).
    destruct Hsame' as (-> & _). by apply Hq. }
  exists files', st2. split; [done|]. split; [|split; [|done]].
  - rewrite Forall2_fmap_l in Hsame.
    eapply Forall2_trans; [|exact Hl|exact Hsame].
    intros fi e fi' (Hse & _) Hse'. by apply (same_entry_trans fi e.1 fi').
  - assert (Forall (λ e, e ∈ l) l) as Hmem by (by apply Forall_forall).
    pose proof (Forall2_with_right _ _ _ _
                  (Forall2_with_right _ _ _ _ Hl1 Hvalid) Hmem) as Hl2.
    eapply Forall2_left; [exact Hl2|]. clear Hl2.
    intros fi e [[[[(Hse & Hflag & Hok) _] Hin] Hval] He] Hd. simpl in *.
    destruct (e.2) eqn:Hb.
    + destruct (Hflag eq_refl) as (_ & _ & Hna). split; [|done].
      apply (accepted_lookup sha1 base st2 st2 e.1 fi); [|done|].
      { destruct Hse as (Hn & Hs & Hc & Hdir). repeat split; congruence. }
      by apply valid_accepted, Hval.
    + destruct (Hok eq_refl) as [Heq Hacc]. destruct (Hacc Hd) as [Ha Hlook].
      assert (st2 !! joinpath base (filename fi)
              = st1 !! joinpath base (filename fi)) as Hkeep.
      { apply Hother. intros e' He' Hb' Heq'. apply joinpath_inj in Heq'.
        assert (e' = e) as ->; [|congruence].
        apply (NoDup_fmap_elem_eq (λ e, filename e.1) l); try done.
        - change (NoDup ((filename ∘ fst) <$> l)).
          by rewrite (list_fmap_compose fst filename), Hnames.
        - by rewrite Heq', Heq. }
      split; [|congruence].
      apply (accepted_lookup sha1 base st st2 fi fi); [done|congruence|done].
Qed.

Lemma unflagged_fst (fl : list FileInfo) : ((λ fi, (fi, false)) <$> fl).*1 = fl.
Proof. rewrite <-list_fmap_compose. apply list_fmap_id. Qed.


(** X6. When every file already starts with the chunks of its entry and
    opening and reading do not raise, a run makes one verification pass and
    returns True, in verify-only mode as in repair mode: it reads no input,
    downloads nothing and leaves the file system and the entries as they
    were. *)
Theorem cycle_nothing_to_repair
    fuel envs base fl (st : fs) verify_only inputs :
  Forall (λ fi, is_directory fi = false →
            well_formed fi
            ∧ open_rb_fails (envs 0) (joinpath base (filename fi)) = false
            ∧ (∀ q, read_fails (envs 0) (joinpath base (filename fi)) q = false)
            ∧ accepted sha1 base st fi) fl →
  _execute_verification_and_download_cycle sha1 (S fuel) envs inputs fl base
    verify_only st
  = Some {| result := Return true; files_after := fl; fs_after := st;
            trace := [Verified []] |}.
Proof.
  intros Hfl. unfold _execute_verification_and_download_cycle. simpl.
  rewrite (verify_all_accepted (envs 0) base fl st Hfl).
  by rewrite files_to_download_unflagged, unflagged_fst.
Qed.


(** X8. A verification pass followed by the download phase, with no file
    operation raising and a remote side that serves every file: the progress
    bar advances by exactly [total_download_size], which is the sum over the
    flagged files of size minus cursor, and no error line is written. *)
Theorem download_phase_reaches_total env base fl (st : fs) pbar :
  NoDup (filename <$> fl) →
  Forall (λ fi, is_directory fi = false →
            well_formed fi ∧ digests_pin_length sha1 fi
            ∧ verify_fault_free env (joinpath base (filename fi))
            ∧ download_fault_free env (joinpath base (filename fi))
            ∧ ∃ full, chunks_match sha1 (chunks fi) full
                      ∧ remote_serves env fi full) fl →
  ∃ l total st1 files' st2 pbar',
    verify_all sha1 env base fl st = (Return (l, total), st1)
    ∧ download_flagged env base l st1 pbar = (files', st2, pbar')
    ∧ total = missing_bytes l
    ∧ n pbar' = n pbar + total
    ∧ messages pbar' = messages pbar.
Proof.
  intros Hnd Hfl.
  destruct (verify_all_outcome env base fl st) as (l & st1 & Hrun & Hl & _).
  { done. }
  { eapply Forall_impl; [exact Hfl|]. intros fi Hfi Hd.
    destruct (Hfi Hd) as (? & ? & ? & _). done. }
  destruct (pass_then_download env base fl l st st1 pbar)
    as (files' & st2 & Hdl & _); [done| |done|].
  { eapply Forall_impl; [exact Hfl|]. intros fi Hfi Hd.
    destruct (Hfi Hd) as (? & _ & _ & ? & ?). done. }
  by eexists _, _, _, _, _, _.
Qed.

End CycleFacts.

(** ** The aggregated file list *)

Section AggregatorMore.
Import Fs Aggregator.

Lemma odict_get_None {V} k (d : list (string * V)) :
  odict_get k d = None ↔ k ∉ d.*1.
Proof.
  induction d as [|[k' v'] d IH]; simpl.
  - split; [intros _; apply not_elem_of_nil|done].
  - rewrite not_elem_of_cons. case_decide as Hk.
    + split; [done|]. by intros [? _].
    + rewrite IH. split; [done|]. by intros [_ ?].
Qed.

Lemma odict_set_keys {V} k (v : V) d :
  (odict_set k v d).*1 = if decide (k ∈ d.*1) then d.*1 else d.*1 ++ [k].
Proof.
  induction d as [|[k' v'] d IH]; [done|].
  cbn [odict_set]. rewrite fmap_cons. cbn [fst].
  destruct (decide (k = k')) as [->|Hk].
  - rewrite decide_True; [done|]. by left.
  - rewrite fmap_cons, IH. cbn [fst].
    destruct (decide (k ∈ d.*1)) as [Hin|Hin].
    + rewrite decide_True; [done|]. by right.
    + rewrite decide_False; [done|]. rewrite not_elem_of_cons. done.
Qed.

Lemma odict_set_Forall {V} (P : string * V → Prop) k v d :
  Forall P d → P (k, v) → Forall P (odict_set k v d).
Proof.
  induction 1 as [|[k' v'] d Hhd Htl IH]; simpl; intros HP.
  - by constructor.
  - case_decide; constructor; auto.
Qed.

(** The names in order of first appearance. *)
Lemma first_appearance_snoc (names : list string) x :
  reverse (remove_dups (reverse (names ++ [x])))
  = if decide (x ∈ reverse (remove_dups (reverse names)))
    then reverse (remove_dups (reverse names))
    else reverse (remove_dups (reverse names)) ++ [x].
Proof.
  rewrite reverse_snoc. simpl.
  destruct (decide_rel elem_of x (reverse names)) as [Hin|Hin].
  - rewrite decide_True; [done|].
    by rewrite elem_of_reverse, elem_of_remove_dups.
  - rewrite decide_False, reverse_cons; [done|].
    by rewrite elem_of_reverse, elem_of_remove_dups.
Qed.

Lemma add_file_map_invariant (os : list (FileInfo * DepotRecord)) :
  let r := foldl (λ acc o, add_file o.2 acc o.1) ([], []) os in
  r.1.*1 = reverse (remove_dups (reverse (filename <$> os.*1)))
  ∧ Forall (λ kv : string * (FileInfo * Z), filename kv.2.1 = kv.1) r.1
  ∧ (length r.2 + length r.1 = length os)%nat.
Proof.
  induction os as [|o os IH] using rev_ind; simpl; [by repeat split|].
  rewrite foldl_snoc.
  destruct (foldl (λ acc o, add_file o.2 acc o.1) ([], []) os) as [m log].
  simpl in IH. destruct IH as (Hkeys & Hnames & Hlen).
  unfold add_file. simpl.
  rewrite !fmap_app. change (filename <$> [o].*1) with [filename o.1].
  rewrite first_appearance_snoc, <-Hkeys.
  split; [apply odict_set_keys|]. split; [by apply odict_set_Forall|].
  rewrite length_app. simpl.
  pose proof (f_equal length (odict_set_keys (filename o.1)
                                (o.1, depot_id o.2) m)) as Hl.
  rewrite !length_fmap in Hl.
  destruct (odict_get (filename o.1) m) as [[? ?]|] eqn:Hget.
  - rewrite decide_True in Hl.
    + rewrite length_fmap in Hl. rewrite length_app. simpl. lia.
    + destruct (decide (filename o.1 ∈ m.*1)); [done|].
      apply odict_get_None in n. congruence.
  - apply odict_get_None in Hget. rewrite decide_False in Hl by done.
    rewrite length_app, length_fmap in Hl. simpl in Hl. lia.
Qed.

(** X9. The aggregated file list is keyed by path: the entries handed to
    verification and download have distinct names, one for every path that
    some depot of the queue brings and no other, in order of first
    appearance; and every write to the map either added a file or logged an
    overwrite. *)
Theorem aggregate_files_distinct remote app queue :
  let r := aggregate remote app queue in
  let occ := occurrences remote app queue in
  let names := filename <$> all_files_in_manifest r.1 in
  NoDup names
  ∧ names = r.1.*1
  ∧ (∀ path, path ∈ names ↔ ∃ o, o ∈ occ ∧ filename o.1 = path)
  ∧ names = reverse (remove_dups (reverse (filename <$> occ.*1)))
  ∧ (length r.2 + length names = length occ)%nat.
Proof.
  intros r occ names. subst r names. rewrite aggregate_occurrences. fold occ.
  destruct (add_file_map_invariant occ) as (Hkeys & Hnames & Hlen).
  set (r := foldl (λ acc o, add_file o.2 acc o.1) ([], []) occ) in *.
  assert (filename <$> all_files_in_manifest r.1 = r.1.*1) as Heq.
  { unfold all_files_in_manifest. rewrite <-list_fmap_compose.
    apply Forall_fmap_ext_1. eapply Forall_impl; [exact Hnames|]. done. }
  rewrite Heq, Hkeys. split_and!.
  - rewrite reverse_Permutation. apply NoDup_remove_dups.
  - done.
  - intros path. rewrite elem_of_reverse, elem_of_remove_dups, elem_of_reverse.
    rewrite <-list_fmap_compose, list_elem_of_fmap.
    split; [intros (o & -> & Ho); by exists o|intros (o & Ho & <-); by exists o].
  - done.
  - rewrite <-Hkeys, length_fmap. done.
Qed.

End AggregatorMore.

(** ** The queue after a load *)

Section SfdMore.
Import Text Fs Sfd Queue.
Context {payload Manifest : Type} `{!Builtins payload Manifest}.

Lemma caches_agree_add_depot a depot m (st : App payload Manifest) :
  app_id st = Some a →
  DepotManifestClass a (manifest_content depot) = Some m →
  caches_agree st → caches_agree (add_depot a depot m st).
Proof.
  intros Ha Hm (Hq & Hd & Hk & Hman). unfold caches_agree. simpl.
  split; [by rewrite Ha|]. split; [|split].
  - intros d [Hin|Heq%list_elem_of_singleton]%elem_of_app; [|subst d];
      exists a.
    + destruct (Hd d Hin) as (a' & Ha' & Hm' & Hk').
      assert (a' = a) as -> by congruence.
      split; [done|]. split; apply lookup_insert_is_Some'; by right.
    + split; [done|]. by rewrite !lookup_insert_eq.
  - intros i k.
    destruct (decide (i = depot_id depot)) as [->|Hne].
    + rewrite lookup_insert_eq. intros [= <-]. exists depot.
      split; [|done]. apply elem_of_app. right. by left.
    + rewrite lookup_insert_ne by done. intros (d & Hin & ?)%Hk.
      exists d. split; [|done]. apply elem_of_app. by left.
  - intros a' i mid m'.
    destruct (decide ((a', i, mid) = (a, depot_id depot, manifest_id depot)))
      as [[= -> -> ->]|Hne].
    + rewrite lookup_insert_eq. intros [= <-]. split; [done|]. exists depot.
      split; [|done]. apply elem_of_app. right. by left.
    + rewrite lookup_insert_ne by done.
      intros (Ha' & d & Hin & ?)%Hman. split; [done|].
      exists d. split; [|done]. apply elem_of_app. by left.
Qed.

Lemma caches_agree_opened a : caches_agree (opened (payload := payload) a).
Proof.
  unfold caches_agree. simpl.
  split; [done|]. split; [by intros ? ?%elem_of_nil|].
  split; [intros i k|intros a' i mid m]; by rewrite lookup_empty.
Qed.

(** Whatever the lines are, the loop keeps the queue and the caches in
    agreement. *)
Lemma load_records_agree a ls (st : App payload Manifest) :
  app_id st = Some a → overwrite_log st = [] → caches_agree st →
  match load_records a ls st with
  | Return st' => app_id st' = Some a ∧ overwrite_log st' = []
                  ∧ caches_agree st'
  | Raise _ => True
  end.
Proof.
  remember (length ls) as k eqn:Hk. revert ls st Hk.
  induction (lt_wf k) as [k _ IH]. intros ls st -> Ha Hlog Hagree.
  destruct ls as [|line1 ls1]; simpl; [done|].
  case_decide; [done|].
  destruct ls1 as [|line2 [|line3 [|line4 rest]]]; try done.
  case_decide; [done|].
  destruct (parse_record a line1 line2 line3 line4) as [[depot m]|] eqn:Hp;
    [|done].
  apply (IH (length rest)); [simpl; lia|done|done|done|].
  apply parse_record_Some in Hp as (_ & _ & _ & _ & Hm).
  by apply caches_agree_add_depot.
Qed.

(** X10. After a load, whatever the file holds and whatever the queue held
    before: the queue and the caches of the CDN client agree. Every depot of
    the queue has a cached key and a cached manifest under the app id, the
    caches hold nothing that is not in the queue, a queue that is not empty
    has an app id, and the overwrite log is empty. *)
Theorem load_keeps_queue_and_caches_in_step
    (file : option (list string)) (st : App payload Manifest) :
  let loaded := _load_sfd_from_path file st in
  caches_agree loaded ∧ overwrite_log loaded = [].
Proof.
  unfold _load_sfd_from_path, load_body. simpl.
  assert (caches_agree (_reset_queue (_reset_queue st))
          ∧ overwrite_log (_reset_queue (_reset_queue st)) = []) as Hreset.
  { split; [|done]. unfold caches_agree. simpl.
    split; [done|]. split; [by intros ? ?%elem_of_nil|].
    split; [intros i k|intros a' i mid m]; by rewrite lookup_empty. }
  destruct file as [ls|]; [|done].
  destruct (py_int (strip (hd EmptyString ls))) as [a|]; [|done].
  pose proof (load_records_agree a (tl ls) (opened a) eq_refl eq_refl
                (caches_agree_opened a)) as Hload.
  unfold opened in Hload.
  destruct (load_records a (tail ls) _); [|done].
  by destruct Hload as (_ & ? & ?).
Qed.

Lemma write_then_load_state a (ds : list (DepotInfo payload))
    (st : App payload Manifest) :
  py_int (strip (str_int a +:+ NL)) = Some a →
  strip (SENTINEL +:+ NL) = SENTINEL →
  Forall (rereads a) ds →
  Forall (λ d, is_Some (DepotManifestClass a (manifest_content d))) ds →
  _load_sfd_from_path (Some (_write_sfd_file a ds)) st = add_all a ds (opened a).
Proof.
  intros Ha Hs Hre Hman.
  apply load_well_formed. rewrite write_as_records.
  eexists _, _, _. split; [done|]. split; [done|]. split; [|done].
  by apply written_records_parse.
Qed.

(** The caches after the depots are taken in. *)
Lemma add_all_caches a (ds : list (DepotInfo payload)) :
  Forall (λ d, is_Some (DepotManifestClass a (manifest_content d))) ds →
  (∀ d, d ∈ ds →
     cdn_depot_keys (add_all a ds (opened a)) !! depot_id d
     = depot_key <$> last (filter (λ d', depot_id d' = depot_id d) ds))
  ∧ (∀ d, d ∈ ds →
       is_Some (cdn_manifests (add_all a ds (opened a))
                  !! (a, depot_id d, manifest_id d))).
Proof.
  intros Hman.
  induction ds as [|d0 ds IH] using rev_ind; [split; by intros ? ?%elem_of_nil|].
  apply Forall_app in Hman as [Hman [[m Hm] _]%Forall_cons].
  destruct (IH Hman) as [IHk IHm]. rewrite add_all_snoc, Hm. simpl. split.
  - intros d Hd. rewrite filter_app.
    destruct (decide (depot_id d0 = depot_id d)) as [Heq|Hne].
    + rewrite filter_cons_True by done. rewrite filter_nil, last_snoc.
      simpl. by rewrite Heq, lookup_insert_eq.
    + rewrite filter_cons_False, filter_nil, app_nil_r by done.
      rewrite lookup_insert_ne by done. apply IHk.
      apply elem_of_app in Hd as [?|Heq%list_elem_of_singleton]; [done|].
      by subst d.
  - intros d [Hd|Heq%list_elem_of_singleton]%elem_of_app; [|subst d].
    + apply lookup_insert_is_Some'. right. by apply IHm.
    + by rewrite lookup_insert_eq.
Qed.

(** X11. A queue written by [_write_sfd_file] loads back as the same queue:
    the app id, the depots in the order written with all four fields, and a
    cached key and manifest for each of them, whatever the queue held
    before. The key cached for a depot id is the key of the last depot
    written with that id. *)
Theorem write_then_load a (ds : list (DepotInfo payload))
    (st : App payload Manifest) :
  py_int (strip (str_int a +:+ NL)) = Some a →
  strip (SENTINEL +:+ NL) = SENTINEL →
  Forall (rereads a) ds →
  Forall (λ d, is_Some (DepotManifestClass a (manifest_content d))) ds →
  let loaded := _load_sfd_from_path (Some (_write_sfd_file a ds)) st in
  app_id loaded = Some a
  ∧ depots_to_download loaded = ds
  ∧ (∀ d, d ∈ ds →
       cdn_depot_keys loaded !! depot_id d
       = depot_key <$> last (filter (λ d', depot_id d' = depot_id d) ds))
  ∧ (∀ d, d ∈ ds →
       is_Some (cdn_manifests loaded !! (a, depot_id d, manifest_id d))).
Proof.
  intros Ha Hs Hre Hman loaded. subst loaded.
  rewrite (write_then_load_state a ds st Ha Hs Hre Hman).
  destruct (add_all_depots a ds (opened a) Hman) as [Hds Hid].
  split; [done|]. split; [done|]. by apply add_all_caches.
Qed.

(** X12. The load reads up to the first sentinel at the start of a record:
    the lines behind it are ignored, and a file that ends at the end of a
    record without a sentinel loads the same queue. *)
Theorem load_stops_at_sentinel first a recs ds last junk
    (st : App payload Manifest) :
  py_int (strip first) = Some a →
  Forall2 (record_parses a) recs ds →
  strip last = SENTINEL →
  _load_sfd_from_path (Some (first :: (recs ≫= record_text) ++ last :: junk)) st
  = add_all a ds (opened a)
  ∧ _load_sfd_from_path (Some (first :: (recs ≫= record_text))) st
    = add_all a ds (opened a)
  ∧ depots_to_download (add_all a ds (opened a)) = ds.
Proof.
  intros Ha Hrecs Hlast. unfold _load_sfd_from_path, load_body. simpl.
  rewrite Ha. split; [|split].
  - rewrite (load_records_parsed a recs ds) by done. simpl.
    rewrite decide_True; [done|by right].
  - rewrite <-(app_nil_r (recs ≫= record_text)).
    by rewrite (load_records_parsed a recs ds).
  - apply (add_all_depots a ds (opened a)).
    by apply (record_parses_manifest a recs).
Qed.

End SfdMore.

(** ** Folder names *)

Section NamesFacts.
Import Names.

Lemma underscore_valid : invalid_char "_" = false.
Proof. reflexivity. Qed.

(** X13. The sanitized name has the length of the name, holds none of the
    nine characters of the class, and differs from the name exactly where the
    name holds one of them, where it has an underscore; so sanitizing is
    idempotent, and a name is left as it is exactly when it holds no such
    character. *)
Theorem sanitize_filename_safe name :
  String.length (_sanitize_filename name) = String.length name
  ∧ Forall (λ c, invalid_char c = false) (chars (_sanitize_filename name))
  ∧ (∀ i c, chars name !! i = Some c →
       chars (_sanitize_filename name) !! i
       = Some (if invalid_char c then "_"%char else c))
  ∧ _sanitize_filename (_sanitize_filename name) = _sanitize_filename name
  ∧ (_sanitize_filename name = name
     ↔ Forall (λ c, invalid_char c = false) (chars name)).
Proof.
  induction name as [|c name (Hlen & Hsafe & Hnth & Hidem & Hfix)]; simpl.
  - split; [done|]. split; [constructor|]. split; [by intros ??|].
    split; [done|]. split; [constructor|done].
  - split; [by rewrite Hlen|]. split; [|split; [|split]].
    + constructor; [|done].
      destruct (invalid_char c) eqn:Hc; [apply underscore_valid|done].
    + intros [|i] c'; simpl; [by intros [= <-]|apply Hnth].
    + rewrite Hidem. f_equal.
      destruct (invalid_char c) eqn:Hc; [by rewrite underscore_valid|].
      by rewrite Hc.
    + rewrite Forall_cons, <-Hfix. split.
      * intros [= Hc Hrest]. split; [|done].
        destruct (invalid_char c) eqn:Hinv; [|done].
        subst c. by rewrite underscore_valid in Hinv.
      * intros [Hc Hrest]. by rewrite Hc, Hrest.
Qed.

End NamesFacts.

(** ** The name cache *)

Section SessionFacts.
Import Text Session.

(** X14. [_get_game_name] answers from the cache without touching the
    client when the app id is cached. Otherwise the name it returns is either
    the one it has just cached under the app id, or the app id in decimal, in
    which case the cache is as it was: a fallback is never cached. No cached
    name is ever replaced, and once a name is cached every later call gives
    it back, whatever the Steam side does. A login that is answered True has
    the client logged on. *)
Theorem get_game_name_cache r app_id st :
  let res := _get_game_name r app_id st in
  (∀ name, app_name_cache st !! app_id = Some name → res = (name, st))
  ∧ (app_name_cache res.2 !! app_id = Some res.1
     ∨ (res.1 = str_int app_id ∧ app_name_cache res.2 = app_name_cache st
        ∧ app_name_cache st !! app_id = None))
  ∧ (∀ k v, app_name_cache st !! k = Some v →
       app_name_cache res.2 !! k = Some v)
  ∧ (∀ r', app_name_cache res.2 !! app_id = Some res.1 →
       _get_game_name r' app_id res.2 = res)
  ∧ ((_ensure_logged_in r st).1 = true →
       logged_on (_ensure_logged_in r st).2 = true)
  ∧ (logged_on st = true → _ensure_logged_in r st = (true, st)).
Proof.
  unfold _get_game_name, _ensure_logged_in. simpl.
  destruct (app_name_cache st !! app_id) as [name|] eqn:Hc.
  - simpl. split_and!.
    + by intros ? [= <-].
    + by left.
    + done.
    + intros r' _. by rewrite Hc.
    + destruct (logged_on st) eqn:Hl; simpl; [done|].
      by destruct (login_raises (anonymous_login r)).
    + by intros ->.
  - assert (∀ st1 : state, app_name_cache st1 = app_name_cache st →
      ∀ game_name k v, app_name_cache st !! k = Some v →
        <[app_id := game_name]> (app_name_cache st1) !! k = Some v) as Hkeep.
    { intros st1 -> game_name k v Hk. rewrite lookup_insert_ne; [done|].
      intros <-. congruence. }
    destruct (logged_on st) eqn:Hl; simpl.
    + destruct (product_name r app_id) as [game_name|]; simpl.
      * split_and!; try done.
        -- left. by rewrite lookup_insert_eq.
        -- by apply Hkeep.
        -- intros r' _. by rewrite lookup_insert_eq.
      * split_and!; try done.
        -- by right.
        -- intros r'. by rewrite Hc.
    + destruct (login_raises (anonymous_login r)); simpl.
      * split_and!; try done.
        -- by right.
        -- intros r'. by rewrite Hc.
      * destruct (logged_on_after (anonymous_login r)); simpl;
          [destruct (product_name r app_id) as [game_name|]; simpl|].
        -- split_and!; try done.
           ++ left. by rewrite lookup_insert_eq.
           ++ by apply Hkeep.
           ++ intros r' _. by rewrite lookup_insert_eq.
        -- split_and!; try done.
           ++ by right.
           ++ intros r'. by rewrite Hc.
        -- split_and!; try done.
           ++ by right.
           ++ intros r'. by rewrite Hc.
Qed.

End SessionFacts.

(** ** Picking a file *)

Section PickerFacts.
Import Fs Picker.
Context (py_int : string → option Z).

(** X15. The picker never indexes out of range. With files found and a line
    of input it returns, taking that one line: the file number [choice] of the
    list when the line is a number with [1 ≤ choice ≤ len], and [None]
    otherwise (0, a number out of range, or not a number). With no file found
    it returns [None] and reads nothing. *)
Theorem select_file_in_range found_files answer inputs :
  found_files ≠ [] →
  ∃ r,
    _select_file_from_list py_int found_files (answer :: inputs)
    = (Return r, inputs)
    ∧ (∀ f, r = Some f ↔
         ∃ choice, py_int answer = Some choice
                   ∧ 1 ≤ choice ≤ Z.of_nat (length found_files)
                   ∧ found_files !! Z.to_nat (choice - 1) = Some f)
    ∧ (∀ f, r = Some f → f ∈ found_files)
    ∧ _select_file_from_list py_int [] (answer :: inputs)
      = (Return None, answer :: inputs).
Proof.
  intros Hne. unfold _select_file_from_list.
  destruct found_files as [|f0 fs0] eqn:Hfs; [done|]. rewrite <-Hfs.
  destruct (py_int answer) as [choice|] eqn:Hint.
  - case_decide as Hrange.
    + unfold py_getitem. rewrite decide_True by lia.
      destruct (lookup_lt_is_Some_2 found_files (Z.to_nat (choice - 1)))
        as [f Hf]; [lia|].
      rewrite Hf. exists (Some f). split; [done|]. split; [|split; [|done]].
      * intros f'. split.
        -- intros [= <-]. by exists choice.
        -- intros (c & [= <-] & _ & Hf'). congruence.
      * intros f' [= <-]. by apply list_elem_of_lookup_2 in Hf.
    + exists None. split; [done|]. split; [|done].
      intros f. split; [done|]. intros (c & [= <-] & ? & _). done.
  - exists None. split; [done|]. split; [|done].
    intros f. split; [done|]. by intros (c & ? & _).
Qed.

End PickerFacts.

(** ** The Lua importer *)

Section LuaFacts.
Import Text Fs Lua.
Context {Manifest : Type} `{!Sfd.Builtins bytes Manifest}.
Context (re_addappid re_setmanifest : string → option (string * string)).
Context (manifest_exists : string → bool) (read_bytes : string → option bytes).

#[local] Abbreviation parse_line := (parse_line re_addappid re_setmanifest).
#[local] Abbreviation parse_lines := (parse_lines re_addappid re_setmanifest).
#[local] Abbreviation sets_for := (sets_for re_addappid re_setmanifest).
#[local] Abbreviation adds := (adds re_addappid).
#[local] Abbreviation collect_depot := (collect_depot manifest_exists read_bytes).
#[local] Abbreviation collect_depots := (collect_depots manifest_exists read_bytes).
#[local] Abbreviation convert_lua :=
  (convert_lua re_addappid re_setmanifest manifest_exists read_bytes).

Lemma idict_get_set {V} k k' (v : V) d :
  idict_get k (idict_set k' v d)
  = if decide (k = k') then Some v else idict_get k d.
Proof.
  induction d as [|[k0 v0] d IH]; simpl.
  - by destruct (decide (k = k')).
  - destruct (decide (k' = k0)) as [->|Hne]; simpl.
    + by destruct (decide (k = k0)).
    + rewrite IH. destruct (decide (k = k0)) as [->|]; [|done].
      by rewrite decide_False.
Qed.

Lemma idict_set_keys {V} k (v : V) d :
  (idict_set k v d).*1 = if decide (k ∈ d.*1) then d.*1 else d.*1 ++ [k].
Proof.
  induction d as [|[k' v'] d IH]; [done|].
  cbn [idict_set]. rewrite fmap_cons. cbn [fst].
  destruct (decide (k = k')) as [->|Hk].
  - rewrite decide_True; [done|]. by left.
  - rewrite fmap_cons, IH. cbn [fst].
    destruct (decide (k ∈ d.*1)) as [Hin|Hin].
    + rewrite decide_True; [done|]. by right.
    + rewrite decide_False; [done|]. rewrite not_elem_of_cons. done.
Qed.

Lemma idict_get_is_Some {V} k (d : list (Z * V)) :
  is_Some (idict_get k d) ↔ k ∈ d.*1.
Proof.
  induction d as [|[k' v'] d IH]; simpl.
  - split; [by intros [? ?]|by intros ?%elem_of_nil].
  - rewrite elem_of_cons. destruct (decide (k = k')) as [->|Hne].
    + split; [by left|by eexists].
    + rewrite IH. split; [by right|]. by intros [?|?].
Qed.

Lemma parse_lines_app parsed l1 l2 :
  parse_lines parsed (l1 ++ l2)
  = match parse_lines parsed l1 with
    | Return parsed' => parse_lines parsed' l2
    | Raise e => Raise e
    end.
Proof.
  revert parsed. induction l1 as [|l l1 IH]; intros parsed; simpl; [done|].
  destruct (parse_line parsed l); [apply IH|done].
Qed.

(** The keys of [parsed_depots] after a line. *)
Lemma parse_line_keys parsed l parsed' :
  parse_line parsed l = Return parsed' →
  NoDup parsed.*1 →
  NoDup parsed'.*1
  ∧ ∀ i, i ∈ parsed'.*1 ↔ i ∈ parsed.*1 ∨ adds i l.
Proof.
  unfold parse_line, Lua.adds. intros Hl Hnd.
  assert (∀ i (e : LuaEntry),
    NoDup (idict_set i e parsed).*1
    ∧ ∀ j, j ∈ (idict_set i e parsed).*1 ↔ j ∈ parsed.*1 ∨ j = i) as Hset.
  { intros i e. rewrite idict_set_keys. case_decide as Hin.
    - split; [done|]. intros j. split; [by left|]. by intros [?| ->].
    - split.
      + apply NoDup_app. split; [done|]. split; [|apply NoDup_singleton].
        intros x Hx ->%list_elem_of_singleton. done.
      + intros j. by rewrite elem_of_app, list_elem_of_singleton. }
  destruct (re_addappid l) as [[ds dk]|] eqn:Hadd.
  - destruct (Sfd.py_int ds) as [i|] eqn:Hint; [|done].
    injection Hl as <-. destruct (Hset i {| key := dk; lua_manifest_id := None |})
      as [Hnd' Hkeys].
    split; [done|]. intros j. rewrite Hkeys. split.
    + intros [?| ->]; [by left|]. right. by exists ds, dk.
    + intros [?|(ds' & dk' & [= <- <-] & Hj)]; [by left|]. right. congruence.
  - assert (∀ i, i ∈ parsed.*1
                 ↔ i ∈ parsed.*1 ∨
                   ∃ depot_id depot_key : string,
                     None = Some (depot_id, depot_key)
                     ∧ Sfd.py_int depot_id = Some i) as Hsame.
    { intros i. split; [by left|]. by intros [?|(? & ? & ? & _)]. }
    destruct (re_setmanifest l) as [[ds m]|]; [|by injection Hl as <-].
    destruct (Sfd.py_int ds) as [i|]; [|done].
    destruct (idict_get i parsed) as [e|] eqn:Hget; injection Hl as <-;
      [|done].
    destruct (Hset i {| key := key e; lua_manifest_id := Some m |})
      as [Hnd' Hkeys].
    split; [done|]. intros j. rewrite Hkeys, <-Hsame. split; [|by left].
    intros [?| ->]; [done|]. apply idict_get_is_Some. by eexists.
Qed.

Lemma parse_lines_keys parsed lines parsed' :
  parse_lines parsed lines = Return parsed' →
  NoDup parsed.*1 →
  NoDup parsed'.*1
  ∧ ∀ i, i ∈ parsed'.*1 ↔ i ∈ parsed.*1 ∨ ∃ l, l ∈ lines ∧ adds i l.
Proof.
  revert parsed. induction lines as [|l lines IH]; intros parsed; simpl.
  - intros [= <-] Hnd. split; [done|]. intros i. split; [by left|].
    by intros [?|(? & ?%elem_of_nil & _)].
  - destruct (parse_line parsed l) as [p1|] eqn:Hl; [|done].
    intros Hrest Hnd.
    destruct (parse_line_keys _ _ _ Hl Hnd) as [Hnd1 Hk1].
    destruct (IH _ Hrest Hnd1) as [Hnd2 Hk2].
    split; [done|]. intros i. rewrite Hk2, Hk1. split.
    + intros [[?|?]|(l' & ? & ?)]; [by left|right..].
      * exists l. split; [by left|done].
      * exists l'. split; [by right|done].
    + intros [?|(l' & [->|?]%elem_of_cons & ?)]; [by left; left|by left; right|].
      right. by exists l'.
Qed.

(** The entry of a depot after lines that do not add it again. *)
Lemma parse_lines_entry i parsed post parsed' e :
  parse_lines parsed post = Return parsed' →
  idict_get i parsed = Some e →
  (∀ l, l ∈ post → ¬ adds i l) →
  idict_get i parsed'
  = Some {| key := key e;
            lua_manifest_id :=
              match last (sets_for i post) with
              | Some m => Some m
              | None => lua_manifest_id e
              end |}.
Proof.
  revert parsed e. induction post as [|l post IH]; intros parsed e; simpl.
  - intros [= <-] -> _. by destruct e.
  - destruct (parse_line parsed l) as [p1|] eqn:Hl; [|done].
    intros Hrest Hget Hno.
    assert (∀ l', l' ∈ post → ¬ adds i l') as Hno'.
    { intros l' Hl'. apply Hno. by right. }
    assert (¬ adds i l) as Hnol by (apply Hno; by left).
    unfold parse_line in Hl. unfold Lua.sets_for. simpl.
    fold (sets_for i post).
    destruct (re_addappid l) as [[ds dk]|] eqn:Hadd.
    + destruct (Sfd.py_int ds) as [j|] eqn:Hint; [|done]. injection Hl as <-.
      apply (IH _ e Hrest); [|done].
      rewrite idict_get_set, decide_False; [done|].
      intros ->. apply Hnol. by exists ds, dk.
    + destruct (re_setmanifest l) as [[ds m]|];
        [|injection Hl as <-; by apply (IH _ e Hrest)].
      destruct (Sfd.py_int ds) as [j|] eqn:Hint; [|done].
      destruct (decide (Some j = Some i)) as [[= ->]|Hne].
      * rewrite Hget in Hl. injection Hl as <-.
        rewrite (IH _ {| key := key e; lua_manifest_id := Some m |} Hrest);
          [|by rewrite idict_get_set, decide_True|done].
        simpl. rewrite last_cons. by destruct (last (sets_for i post)).
      * assert (idict_get i p1 = Some e) as Hget1; [|by apply (IH _ e Hrest)].
        destruct (idict_get j parsed) as [e'|]; injection Hl as <-; [|done].
        rewrite idict_get_set, decide_False; [done|]. congruence.
Qed.

(** X17. In the [.lua] file the last [addappid] line of a depot decides: the
    depot is parsed with the key of that line and with the manifest id of the
    last [setManifestid] line for it behind that line, or with none when
    there is no such line. A [setManifestid] line before it does not count.
    The depots parsed are those with an [addappid] line, each once. *)
Theorem lua_last_addappid_decides pre l post depot_id depot_key i parsed :
  parse_lines [] (pre ++ l :: post) = Return parsed →
  re_addappid l = Some (depot_id, depot_key) →
  Sfd.py_int depot_id = Some i →
  (∀ l', l' ∈ post → ¬ adds i l') →
  idict_get i parsed
  = Some {| key := depot_key; lua_manifest_id := last (sets_for i post) |}
  ∧ NoDup parsed.*1
  ∧ (∀ j, j ∈ parsed.*1 ↔ ∃ l', l' ∈ pre ++ l :: post ∧ adds j l').
Proof.
  intros Hparse Hadd Hint Hno.
  destruct (parse_lines_keys [] _ _ Hparse) as [Hnd Hkeys]; [constructor|].
  split; [|split; [done|]].
  - rewrite parse_lines_app in Hparse.
    destruct (parse_lines [] pre) as [p1|]; [|done]. simpl in Hparse.
    unfold Lua.parse_line in Hparse. rewrite Hadd, Hint in Hparse.
    rewrite (parse_lines_entry i _ post parsed
               {| key := depot_key; lua_manifest_id := None |} Hparse);
      [|by rewrite idict_get_set, decide_True|done].
    simpl. by destruct (last (sets_for i post)).
  - intros j. rewrite Hkeys. split; [|by right].
    by intros [?%elem_of_nil|?].
Qed.

Lemma collect_depot_Some item d :
  collect_depot item = Some d →
  Sfd.depot_id d = item.1
  ∧ ∃ mid, lua_manifest_id item.2 = Some mid
           ∧ manifest_exists (manifest_name item.1 mid) = true
           ∧ read_bytes (manifest_name item.1 mid) = Some (Sfd.manifest_content d)
           ∧ Sfd.py_int mid = Some (Sfd.manifest_id d)
           ∧ Sfd.fromhex (key item.2) = Some (Sfd.depot_key d).
Proof.
  unfold Lua.collect_depot.
  destruct (lua_manifest_id item.2) as [mid|]; [|done].
  destruct (manifest_exists _) eqn:Hex; [|done].
  destruct (read_bytes _) as [content|] eqn:Hread; [|done]. simpl.
  destruct (Sfd.py_int mid) as [m|] eqn:Hint; [|done]. simpl.
  destruct (Sfd.fromhex _) as [k|] eqn:Hhex; [|done]. simpl.
  intros [= <-]. simpl. split; [done|]. by exists mid.
Qed.

Lemma collect_depots_ids parsed :
  Sfd.depot_id <$> collect_depots parsed `sublist_of` parsed.*1.
Proof.
  unfold Lua.collect_depots.
  induction parsed as [|item parsed IH]; simpl; [done|].
  destruct (collect_depot item) as [d|] eqn:Hd; simpl.
  - apply collect_depot_Some in Hd as [-> _]. by apply sublist_skip.
  - by apply sublist_cons.
Qed.

Lemma idict_get_elem {V} k (v : V) d :
  NoDup d.*1 → (k, v) ∈ d → idict_get k d = Some v.
Proof.
  induction d as [|[k' v'] d IH]; simpl; [by intros _ ?%elem_of_nil|].
  intros [Hnotin Hnd]%NoDup_cons [[= -> ->]|Hin]%elem_of_cons.
  - by rewrite decide_True.
  - rewrite decide_False; [by apply IH|].
    intros ->. apply Hnotin. by apply (list_elem_of_fmap_2 fst) in Hin.
Qed.

Lemma filter_same_key {A B} `{EqDecision B} (f : A → B) (l : list A) x :
  NoDup (f <$> l) → x ∈ l → filter (λ y, f y = f x) l = [x].
Proof.
  induction l as [|a l IH]; simpl; [by intros _ ?%elem_of_nil|].
  intros [Hnotin Hnd]%NoDup_cons [->|Hin]%elem_of_cons.
  - rewrite filter_cons_True by done. f_equal.
    apply filter_none, Forall_forall. intros y Hy Heq.
    apply Hnotin. rewrite <-Heq. by apply list_elem_of_fmap_2.
  - rewrite filter_cons_False; [by apply IH|].
    intros Heq. apply Hnotin. rewrite Heq. by apply list_elem_of_fmap_2.
Qed.

(** X18. A conversion that collects at least one depot writes a descriptor
    of the depots collected and loads it: the queue is then exactly those
    depots under the app id entered, each depot id at most once, each with
    its own key in the key cache, and each built from the parsed entry of its
    id: the manifest id set for it, the bytes of the manifest file named
    after both, and the key of its [addappid] line. A conversion that writes
    no descriptor leaves the queue as it was. *)
Theorem convert_lua_loads_collected lines parsed a
    (st : Sfd.App bytes Manifest) :
  parse_lines [] lines = Return parsed →
  collect_depots parsed ≠ [] →
  Sfd.py_int (Sfd.strip (str_int a +:+ NL)) = Some a →
  Sfd.strip (Sfd.SENTINEL +:+ NL) = Sfd.SENTINEL →
  Forall (Sfd.rereads a) (collect_depots parsed) →
  Forall (λ d, is_Some (Sfd.DepotManifestClass a (Sfd.manifest_content d)))
    (collect_depots parsed) →
  let res := convert_lua (Some lines) a st in
  res.1 = Some (Sfd._write_sfd_file a (collect_depots parsed))
  ∧ Sfd.app_id res.2 = Some a
  ∧ Sfd.depots_to_download res.2 = collect_depots parsed
  ∧ NoDup (Sfd.depot_id <$> Sfd.depots_to_download res.2)
  ∧ (∀ d, d ∈ Sfd.depots_to_download res.2 →
       Sfd.cdn_depot_keys res.2 !! Sfd.depot_id d = Some (Sfd.depot_key d)
       ∧ ∃ e mid,
           idict_get (Sfd.depot_id d) parsed = Some e
           ∧ lua_manifest_id e = Some mid
           ∧ manifest_exists (manifest_name (Sfd.depot_id d) mid) = true
           ∧ read_bytes (manifest_name (Sfd.depot_id d) mid)
             = Some (Sfd.manifest_content d)
           ∧ Sfd.py_int mid = Some (Sfd.manifest_id d)
           ∧ Sfd.fromhex (key e) = Some (Sfd.depot_key d))
  ∧ (∀ lua_file st', (convert_lua lua_file a st').1 = None →
       (convert_lua lua_file a st').2 = st').
Proof.
  intros Hparse Hne Ha Hs Hre Hman res.
  destruct (parse_lines_keys [] _ _ Hparse) as [Hnd _]; [constructor|].
  assert (NoDup (Sfd.depot_id <$> collect_depots parsed)) as Hids.
  { eapply sublist_NoDup; [exact Hnd|apply collect_depots_ids]. }
  assert (res = (Some (Sfd._write_sfd_file a (collect_depots parsed)),
                 Sfd.add_all a (collect_depots parsed) (Sfd.opened a))) as ->.
  { subst res. unfold Lua.convert_lua. rewrite Hparse.
    destruct parsed as [|item parsed']; [done|].
    destruct (collect_depots (item :: parsed')) as [|d ds] eqn:Hcol; [done|].
    by rewrite (write_then_load_state a (d :: ds) st Ha Hs Hre Hman). }
  simpl. destruct (add_all_depots a (collect_depots parsed) (Sfd.opened a) Hman)
    as [Hds Hid].
  split; [done|]. split; [done|]. split; [done|].
  split; [by rewrite Hds|]. split.
  - rewrite Hds. intros d Hd. split.
    + destruct (add_all_caches a (collect_depots parsed) Hman) as [Hk _].
      rewrite (Hk d Hd), (filter_same_key Sfd.depot_id) by done. done.
    + unfold Lua.collect_depots in Hd. apply list_elem_of_omap in Hd
        as (item & Hin & Hcol).
      apply collect_depot_Some in Hcol as (Hid' & mid & ?).
      exists item.2, mid. rewrite Hid'. split; [|done].
      apply idict_get_elem; [done|]. by destruct item.
  - intros lua_file st'. unfold Lua.convert_lua.
    destruct lua_file as [ls|]; [|done].
    destruct (parse_lines [] ls) as [[|item p]|]; try done.
    by destruct (Lua.collect_depots _ _ (item :: p)).
Qed.

End LuaFacts.

(** ** A file that cannot be repaired *)

Section CycleStuck.
Import Fs Verifier Scheduler Reconcile.
#[local] Open Scope nat_scope.
Context (sha1 : bytes → bytes).









End CycleStuck.

(** ** Further worked examples *)

Section MoreWorkedExamples.
Import Fs Verifier Scheduler Reconcile Repair Examples.
#[local] Open Scope nat_scope.

#[local] Ltac toy_wf :=
  split; [repeat constructor; simpl; lia | reflexivity].

(** With the identity for a digest, a block that meets the digest of a chunk
    cut from data has the size of the chunk. *)
Lemma toy_pins fi :
  Forall (λ c, cb_original c = length (sha c)) (chunks fi) →
  digests_pin_length toy_sha1 fi.
Proof.
  intros Hall c d Hc Hd. rewrite Forall_forall in Hall.
  rewrite (Hall c Hc). unfold toy_sha1 in Hd. by rewrite Hd.
Qed.

Lemma quiet_serves fi : remote_serves quiet_env fi (served fi).
Proof.
  intros fi' (_ & _ & Hc & _). split; [done|]. simpl.
  unfold served. by rewrite Hc, app_nil_r.
Qed.

Lemma quiet_verify_fault_free p : verify_fault_free quiet_env p.
Proof. by repeat split. Qed.

Lemma quiet_download_fault_free p : download_fault_free quiet_env p.
Proof. by repeat split. Qed.

Lemma file_c_pins : digests_pin_length toy_sha1 file_c.
Proof. apply toy_pins. by repeat constructor. Qed.

(** A read that raises behind a chunk that matches: the answer is [False]
    with the cursor at 0, and the complete file is left as it is. *)
Lemma verify_handles_io_errors_witness :
  VerifierCall._verify_and_repair_file toy_sha1 bad_read_env plain_lib file_c
    "game/c.bin" disk_c
  = (Return (false, seek file_c 0), disk_c).
Proof.
  destruct (verify_handles_io_errors toy_sha1 bad_read_env plain_lib file_c
              "game/c.bin" disk_c eq_refl eq_refl)
    as (_ & _ & _ & _ & Hread & _).
  apply (Hread [chunk_of [x05; x06]] (chunk_of [x07; x08]) []
           [x05; x06] [x07; x08]).
  - reflexivity.
  - reflexivity.
  - reflexivity.
  - repeat constructor.
  - simpl. repeat split; lia.
  - intros q Hq. simpl. apply bool_decide_eq_false. simpl in Hq.
    unfold sum_sizes in Hq. simpl in Hq. lia.
  - reflexivity.
Defined.

(** C3, as the specification states it, has verification never raise and
    has the caller re-create the file after an IO error. Neither holds. An
    existence check that raises is outside the [try] block, and the
    [ValueError] of [seek] for an entry that is not a plain file is not an
    [IOError]: both reach the caller, the second one after the file has been
    truncated. And after an IO error the worker opens the file in append
    mode, so the bytes that verification could not truncate stay in front of
    the downloaded ones. *)
Lemma verify_raises_and_file_not_recreated :
  ¬ (∀ (sha1 : bytes → bytes) env lib fi p (st : fs),
       ∃ ok fi' st',
         VerifierCall._verify_and_repair_file sha1 env lib fi p st
         = (Return (ok, fi'), st'))
  ∧ VerifierCall._verify_and_repair_file toy_sha1 quiet_env no_access_lib
      file_c "game/c.bin" disk_c_damaged
    = (Raise IOError, disk_c_damaged)
  ∧ VerifierCall._verify_and_repair_file toy_sha1 quiet_env symlink_lib
      file_c "game/c.bin" ∅
    = (Raise OtherError, ∅)
  ∧ VerifierCall._verify_and_repair_file toy_sha1 quiet_env symlink_lib
      file_c "game/c.bin" disk_c_damaged
    = (Raise OtherError, <["game/c.bin" := [x05; x06]]> disk_c_damaged)
  ∧ VerifierCall._verify_and_repair_file toy_sha1 no_truncate_env plain_lib
      file_c "game/c.bin" disk_c_damaged
    = (Return (false, seek file_c 0), disk_c_damaged)
  ∧ (_download_single_file quiet_env (seek file_c 0) "game" disk_c_damaged
       empty_pbar).1.2 !! "game/c.bin"%string
    = Some ([x05; x06; xff; xff] ++ [x05; x06; x07; x08]).
Proof.
  split_and!.
  - intros Hclaim.
    destruct (Hclaim toy_sha1 quiet_env no_access_lib file_c
                "game/c.bin"%string disk_c_damaged) as (ok & fi' & st' & Hrun).
    vm_compute in Hrun. discriminate.
  - reflexivity.
  - reflexivity.
  - vm_compute. reflexivity.
  - vm_compute. reflexivity.
  - vm_compute. reflexivity.
Qed.

Lemma verify_true_iff_valid_prefix_witness :
  (true = true
   ↔ ∃ good tail, [x05; x06; x07; x08; xff] = good ++ tail
                  ∧ chunks_match toy_sha1 (chunks file_c) good)
  ∧ (true = true → file_c = file_c ∧ disk_c_tail = disk_c_tail).
Proof.
  apply (verify_true_iff_valid_prefix toy_sha1 quiet_env file_c "game/c.bin"
           disk_c_tail [x05; x06; x07; x08; xff]).
  - toy_wf.
  - apply file_c_pins.
  - reflexivity.
  - reflexivity.
  - reflexivity.
  - vm_compute. reflexivity.
Defined.

Lemma verify_false_leaves_verified_prefix_witness :
  let st' := <["game/c.bin" := [x05; x06]]> disk_c_damaged in
  resumable toy_sha1 "game" st' (seek file_c 2)
  ∧ same_entry file_c (seek file_c 2)
  ∧ offset (seek file_c 2) ≤ size file_c
  ∧ (disk_c_damaged !! joinpath "game" (filename file_c) = None →
       st' = disk_c_damaged ∧ offset (seek file_c 2) = 0)
  ∧ (∀ content,
       disk_c_damaged !! joinpath "game" (filename file_c) = Some content →
       st' = <[joinpath "game" (filename file_c)
               := take (offset (seek file_c 2)) content]> disk_c_damaged
       ∧ offset (seek file_c 2) ≤ length content
       ∧ offset (seek file_c 2) < size file_c).
Proof.
  apply (verify_false_leaves_verified_prefix toy_sha1 quiet_env file_c "game"
           disk_c_damaged (seek file_c 2)
           (<["game/c.bin" := [x05; x06]]> disk_c_damaged)).
  - toy_wf.
  - apply file_c_pins.
  - apply quiet_verify_fault_free.
  - vm_compute. reflexivity.
Defined.

Lemma verify_then_download_repairs_witness :
  ∃ ok fi1 st1,
    _verify_and_repair_file toy_sha1 quiet_env file_c "game/c.bin" disk_c_damaged
    = (Return (ok, fi1), st1)
    ∧ if ok then st1 = disk_c_damaged ∧ accepted toy_sha1 "game" disk_c_damaged file_c
      else ∃ fi2 st2 pbar2,
        _download_single_file quiet_env fi1 "game" st1 empty_pbar
        = (fi2, st2, pbar2)
        ∧ valid_on_disk toy_sha1 "game" st2 file_c
        ∧ st2 !! "game/c.bin"%string
          = Some (default [] (st1 !! "game/c.bin"%string)
                  ++ drop (offset fi1) (served file_c))
        ∧ n pbar2 = n empty_pbar + (size file_c - offset fi1)
        ∧ messages pbar2 = messages empty_pbar
        ∧ (∀ q, q ≠ "game/c.bin"%string → st2 !! q = disk_c_damaged !! q).
Proof.
  apply (verify_then_download_repairs toy_sha1 quiet_env quiet_env file_c "game"
           disk_c_damaged (served file_c) empty_pbar).
  - toy_wf.
  - apply file_c_pins.
  - simpl. repeat split; lia.
  - apply quiet_verify_fault_free.
  - apply quiet_download_fault_free.
  - apply quiet_serves.
Defined.





Lemma cycle_nothing_to_repair_witness :
  _execute_verification_and_download_cycle toy_sha1 1 (λ _, quiet_env) []
    [file_a; file_b] "game" true disk_ab
  = Some {| result := Return true; files_after := [file_a; file_b];
            fs_after := disk_ab; trace := [Verified []] |}.
Proof.
  apply (cycle_nothing_to_repair toy_sha1 0 (λ _, quiet_env) "game"
           [file_a; file_b] disk_ab true []).
  constructor; [intros _|constructor; [intros _|constructor]].
  - split; [toy_wf|]. split; [done|]. split; [done|].
    exists [x01; x02; x03; x04], []. split; [reflexivity|].
    simpl. repeat split; lia.
  - split; [toy_wf|]. split; [done|]. split; [done|].
    exists [x0a; x0b; x0c], []. split; [reflexivity|].
    simpl. repeat split; lia.
Defined.


Lemma download_phase_reaches_total_witness :
  ∃ l total st1 files' st2 pbar',
    verify_all toy_sha1 quiet_env "game" [file_c] disk_c_damaged
    = (Return (l, total), st1)
    ∧ download_flagged quiet_env "game" l st1 empty_pbar = (files', st2, pbar')
    ∧ total = missing_bytes l
    ∧ n pbar' = n empty_pbar + total
    ∧ messages pbar' = messages empty_pbar.
Proof.
  apply (download_phase_reaches_total toy_sha1 quiet_env "game" [file_c]
           disk_c_damaged empty_pbar).
  - apply (bool_decide_unpack _). vm_compute. reflexivity.
  - constructor; [intros _|constructor].
    split; [toy_wf|]. split; [apply file_c_pins|].
    split; [apply quiet_verify_fault_free|].
    split; [apply quiet_download_fault_free|].
    exists (served file_c). split; [simpl; repeat split; lia|apply quiet_serves].
Defined.


Lemma depot_one_rereads : Sfd.rereads 480 depot_one.
Proof.
  split; [vm_compute; discriminate|]. repeat split; vm_compute; reflexivity.
Qed.

Lemma write_then_load_witness :
  let loaded :=
    Sfd._load_sfd_from_path (Some (Sfd._write_sfd_file 480 [depot_one]))
      stale_app in
  Sfd.app_id loaded = Some 480%Z
  ∧ Sfd.depots_to_download loaded = [depot_one]
  ∧ (∀ d, d ∈ [depot_one] →
       Sfd.cdn_depot_keys loaded !! Sfd.depot_id d
       = Sfd.depot_key
           <$> last (filter (λ d', Sfd.depot_id d' = Sfd.depot_id d) [depot_one]))
  ∧ (∀ d, d ∈ [depot_one] →
       is_Some (Sfd.cdn_manifests loaded
                  !! (480%Z, Sfd.depot_id d, Sfd.manifest_id d))).
Proof.
  apply (write_then_load 480%Z [depot_one] stale_app).
  - vm_compute. reflexivity.
  - vm_compute. reflexivity.
  - constructor; [apply depot_one_rereads|constructor].
  - constructor; [by eexists|constructor].
Defined.

Lemma load_stops_at_sentinel_witness :
  Sfd._load_sfd_from_path
    (Some (line "480"
             :: ([(line "1", line "2", line "ab", line "b'x'")]
                   ≫= Sfd.record_text)
             ++ line "EndOfFile" :: [line "junk"])) stale_app
  = Sfd.add_all 480 [depot_one] (Sfd.opened 480)
  ∧ Sfd._load_sfd_from_path
      (Some (line "480"
               :: ([(line "1", line "2", line "ab", line "b'x'")]
                     ≫= Sfd.record_text))) stale_app
    = Sfd.add_all 480 [depot_one] (Sfd.opened 480)
  ∧ Sfd.depots_to_download (Sfd.add_all 480 [depot_one] (Sfd.opened 480))
    = [depot_one].
Proof.
  apply (load_stops_at_sentinel (line "480") 480%Z
           [(line "1", line "2", line "ab", line "b'x'")] [depot_one]
           (line "EndOfFile") [line "junk"] stale_app).
  - vm_compute. reflexivity.
  - constructor; [|constructor].
    repeat (split; [vm_compute; discriminate|]).
    exists [x78]. vm_compute. reflexivity.
  - vm_compute. reflexivity.
Defined.

Lemma select_file_in_range_witness :
  ∃ r,
    Picker._select_file_from_list toy_int ["a.sfd"; "b.sfd"]%string
      ["2"%string]
    = (Return r, [])
    ∧ (∀ f, r = Some f ↔
         ∃ choice, toy_int "2" = Some choice
                   ∧ (1 ≤ choice ≤ Z.of_nat (length ["a.sfd"; "b.sfd"]%string))%Z
                   ∧ ["a.sfd"; "b.sfd"]%string !! Z.to_nat (choice - 1) = Some f)
    ∧ (∀ f, r = Some f → f ∈ ["a.sfd"; "b.sfd"]%string)
    ∧ Picker._select_file_from_list toy_int [] ["2"%string]
      = (Return None, ["2"%string]).
Proof.
  apply (select_file_in_range toy_int ["a.sfd"; "b.sfd"]%string "2" []).
  discriminate.
Defined.

Lemma lua_last_addappid_decides_witness :
  let parsed :=
    [(1%Z, {| Lua.key := "ab"; Lua.lua_manifest_id := Some "2"%string |});
     (2%Z, {| Lua.key := "cd"; Lua.lua_manifest_id := None |})] in
  Lua.idict_get 1 parsed
  = Some {| Lua.key := "ab";
            Lua.lua_manifest_id :=
              last (Lua.sets_for toy_addappid toy_setmanifest 1
                      ["m:1:7"; "a:2:cd"; "m:1:2"]%string) |}
  ∧ NoDup parsed.*1
  ∧ (∀ j, j ∈ parsed.*1 ↔
       ∃ l', l' ∈ ["m:1:5"%string] ++ "a:1:ab"%string
                    :: ["m:1:7"; "a:2:cd"; "m:1:2"]%string
             ∧ Lua.adds toy_addappid j l').
Proof.
  apply (lua_last_addappid_decides toy_addappid toy_setmanifest
           ["m:1:5"%string] "a:1:ab"
           ["m:1:7"; "a:2:cd"; "m:1:2"]%string "1" "ab" 1%Z).
  - vm_compute. reflexivity.
  - reflexivity.
  - vm_compute. reflexivity.
  - intros l' Hl' (ds & dk & Hre & Hint).
    repeat (apply elem_of_cons in Hl' as [->|Hl']);
      [..|by apply elem_of_nil in Hl'];
      vm_compute in Hre; try discriminate.
    injection Hre as <- <-. vm_compute in Hint. discriminate.
Defined.

Lemma convert_lua_loads_collected_witness :
  let parsed :=
    [(1%Z, {| Lua.key := "ab"; Lua.lua_manifest_id := Some "2"%string |});
     (2%Z, {| Lua.key := "cd"; Lua.lua_manifest_id := None |})] in
  let collected := Lua.collect_depots lua_dir_exists lua_dir_read parsed in
  let res :=
    Lua.convert_lua toy_addappid toy_setmanifest lua_dir_exists lua_dir_read
      (Some lua_lines) 480 stale_app in
  res.1 = Some (Sfd._write_sfd_file 480 collected)
  ∧ Sfd.app_id res.2 = Some 480%Z
  ∧ Sfd.depots_to_download res.2 = collected
  ∧ NoDup (Sfd.depot_id <$> Sfd.depots_to_download res.2)
  ∧ (∀ d, d ∈ Sfd.depots_to_download res.2 →
       Sfd.cdn_depot_keys res.2 !! Sfd.depot_id d = Some (Sfd.depot_key d)
       ∧ ∃ e mid,
           Lua.idict_get (Sfd.depot_id d) parsed = Some e
           ∧ Lua.lua_manifest_id e = Some mid
           ∧ lua_dir_exists (Lua.manifest_name (Sfd.depot_id d) mid) = true
           ∧ lua_dir_read (Lua.manifest_name (Sfd.depot_id d) mid)
             = Some (Sfd.manifest_content d)
           ∧ Sfd.py_int mid = Some (Sfd.manifest_id d)
           ∧ Sfd.fromhex (Lua.key e) = Some (Sfd.depot_key d))
  ∧ (∀ lua_file st',
       (Lua.convert_lua toy_addappid toy_setmanifest lua_dir_exists
          lua_dir_read lua_file 480 st').1 = None →
       (Lua.convert_lua toy_addappid toy_setmanifest lua_dir_exists
          lua_dir_read lua_file 480 st').2 = st').
Proof.
  apply (convert_lua_loads_collected toy_addappid toy_setmanifest
           lua_dir_exists lua_dir_read lua_lines
           [(1%Z, {| Lua.key := "ab"; Lua.lua_manifest_id := Some "2"%string |});
            (2%Z, {| Lua.key := "cd"; Lua.lua_manifest_id := None |})]
           480%Z stale_app).
  - vm_compute. reflexivity.
  - vm_compute. discriminate.
  - vm_compute. reflexivity.
  - vm_compute. reflexivity.
  - change (Forall (Sfd.rereads 480) [depot_one]).
    constructor; [apply depot_one_rereads|constructor].
  - change (Forall (λ d, is_Some (Sfd.DepotManifestClass 480
                                    (Sfd.manifest_content d))) [depot_one]).
    constructor; [by eexists|constructor].
Defined.

End MoreWorkedExamples.
